(** * Bulk data import/export: job processing pipeline

    A shallow embedding of the job processing core of the repository
    (import schemas, import repository, import processor, export processor
    and the worker loop) together with the properties stated for it.

    Conventions of the embedding
    - JavaScript strings are [string]s of 8-bit characters; the letters,
      digits and white space the code tests for are the ASCII ones.
    - JavaScript numbers are integers ([NInt]) or a non-integral number kept
      by its literal ([NFrac]); the code only tests integrality and zero.
    - JavaScript objects are finite maps from keys to values; a missing key
      reads as [VUndefined].
    - [async] code is a state-and-exception computation over the store: an
      exception keeps every effect performed before it was raised. *)

From stdpp Require Import gmap strings list fin_maps pretty sorting.
From Stdlib Require Import Ascii.

Set Warnings "-register-all,-clear-no-such-hyp".

(* ################################################################# *)
(** * JavaScript values *)

Module Js.

Inductive number : Type :=
| NInt (z : Z)
| NFrac (lit : string).

Inductive value : Type :=
| VUndefined
| VNull
| VBool (b : bool)
| VNum (n : number)
| VStr (s : string)
| VArr (l : list value)
| VObj (m : gmap string value).

Abbreviation obj := (gmap string value).

(** [o.k]: a missing property reads as [undefined]. *)
Definition get (o : obj) (k : string) : value := default VUndefined (o !! k).

(** [o[k] = v] *)
Definition set (o : obj) (k : string) (v : value) : obj := <[k := v]> o.

(** An object literal [{k: v, ...}]. *)
Definition literal (kvs : list (string * value)) : obj := list_to_map kvs.

(** ToBoolean *)
Definition truthy (v : value) : bool :=
  match v with
  | VUndefined | VNull => false
  | VBool b => b
  | VNum (NInt z) => negb (z =? 0)%Z
  | VNum (NFrac _) => true
  | VStr s => negb (String.eqb s "")
  | VArr _ | VObj _ => true
  end.

(** [a || b] *)
Definition or (a b : value) : value := if truthy a then a else b.

(** [a ?? b] *)
Definition nullish (a b : value) : value :=
  match a with VUndefined | VNull => b | _ => a end.

Definition is_undefined (v : value) : bool :=
  match v with VUndefined => true | _ => false end.

(** The own keys whose value is not [undefined]. *)
Definition defined_keys (o : obj) : gset string :=
  dom (filter (fun kv => is_undefined kv.2 = false) o).

End Js.
Import Js.

(* ################################################################# *)
(** * Strings *)

Module Str.

Definition chars (s : string) : list ascii := String.list_ascii_of_string s.
Definition of_chars (l : list ascii) : string := String.string_of_list_ascii l.

Definition code (c : ascii) : N := N_of_ascii c.

Definition in_range (lo hi c : ascii) : bool :=
  ((code lo <=? code c) && (code c <=? code hi))%N.

Definition is_lower (c : ascii) : bool := in_range "a" "z" c.
Definition is_upper (c : ascii) : bool := in_range "A" "Z" c.
Definition is_digit (c : ascii) : bool := in_range "0" "9" c.
Definition is_alnum (c : ascii) : bool := is_lower c || is_upper c || is_digit c.

(** White space as [trim] and the regular expression class [\s] see it. *)
Definition is_space (c : ascii) : bool :=
  match code c with
  | 9%N | 10%N | 11%N | 12%N | 13%N | 32%N => true
  | _ => false
  end.

Definition to_lower (c : ascii) : ascii :=
  if is_upper c then ascii_of_N (code c + 32) else c.
Definition to_upper (c : ascii) : ascii :=
  if is_lower c then ascii_of_N (code c - 32) else c.

Definition toLowerCase (s : string) : string := of_chars (map to_lower (chars s)).

Fixpoint drop_space (l : list ascii) : list ascii :=
  match l with
  | c :: l' => if is_space c then drop_space l' else l
  | [] => []
  end.

(** [s.trim()] *)
Definition trim (s : string) : string :=
  of_chars (rev (drop_space (rev (drop_space (chars s))))).

(** [s.replace(/\s+/g, '')] *)
Definition remove_spaces (s : string) : string :=
  of_chars (filter (fun c => is_space c = false) (chars s)).

Fixpoint is_prefix (p l : list ascii) : bool :=
  match p, l with
  | [], _ => true
  | a :: p', b :: l' => Ascii.eqb a b && is_prefix p' l'
  | _ :: _, [] => false
  end.

(** [s.startsWith(p)] *)
Definition startsWith (s p : string) : bool := is_prefix (chars p) (chars s).

(** [s.endsWith(p)] *)
Definition endsWith (s p : string) : bool :=
  is_prefix (rev (chars p)) (rev (chars s)).

Fixpoint has_infix (p l : list ascii) : bool :=
  is_prefix p l || match l with [] => false | _ :: l' => has_infix p l' end.

(** [s.includes(p)] *)
Definition includes (s p : string) : bool := has_infix (chars p) (chars s).

(** [s.split(sep)] for a one-character separator: at least one piece. *)
Fixpoint split_chars (sep : ascii) (l : list ascii) : list (list ascii) :=
  match l with
  | [] => [[]]
  | c :: l' =>
      if Ascii.eqb c sep then [] :: split_chars sep l'
      else match split_chars sep l' with
           | g :: gs => (c :: g) :: gs
           | [] => [[c]]
           end
  end.

Definition split (sep : ascii) (s : string) : list string :=
  map of_chars (split_chars sep (chars s)).

(** ** [parseInt(s)] with no radix *)

Definition digit_value (radix : Z) (c : ascii) : option Z :=
  let d := if is_digit c then Some (Z.of_N (code c) - 48)%Z
           else if is_lower c then Some (Z.of_N (code c) - 87)%Z
           else if is_upper c then Some (Z.of_N (code c) - 55)%Z
           else None in
  match d with
  | Some v => if (v <? radix)%Z then Some v else None
  | None => None
  end.

(** The longest prefix of digits, read in the radix; [None] when there is
    no digit at all. *)
Fixpoint read_digits (radix : Z) (acc : option Z) (l : list ascii) : option Z :=
  match l with
  | c :: l' =>
      match digit_value radix c with
      | Some d => read_digits radix (Some (default 0%Z acc * radix + d)%Z) l'
      | None => acc
      end
  | [] => acc
  end.

Definition parseInt (s : string) : option Z :=
  let l := drop_space (chars s) in
  let '(neg, l) :=
    match l with
    | "-"%char :: l' => (true, l')
    | "+"%char :: l' => (false, l')
    | _ => (false, l)
    end in
  let '(radix, l) :=
    match l with
    | "0"%char :: "x"%char :: l' | "0"%char :: "X"%char :: l' => (16%Z, l')
    | _ => (10%Z, l)
    end in
  (fun z => if neg : bool then (- z)%Z else z) <$> read_digits radix None l.

End Str.

(* ################################################################# *)
(** * Regular expressions

    The fragment of JavaScript regular expressions the schemas use:
    character classes given by ranges, concatenation, alternation and
    iteration, matched against the whole string ([^...$]). *)

Module Regex.

Inductive regex : Type :=
| Void
| Eps
| Class (p : ascii -> bool)
| Cat (r1 r2 : regex)
| Alt (r1 r2 : regex)
| Star (r : regex).

(** [r+] *)
Definition Plus (r : regex) : regex := Cat r (Star r).

(** All characters of the range [lo-hi]. *)
Definition range_members (lo hi : ascii) : list ascii :=
  map (fun n => ascii_of_N (Str.code lo + N.of_nat n))
      (seq 0 (N.to_nat (Str.code hi + 1 - Str.code lo))).

(** A class [[...]] lists ranges; a single character is a one-element range. *)
Definition class_members (ranges : list (ascii * ascii)) : list ascii :=
  concat (map (fun r => range_members r.1 r.2) ranges).

(** Case-sensitive class test. *)
Definition class_cs (ranges : list (ascii * ascii)) (c : ascii) : bool :=
  existsb (fun m => Ascii.eqb m c) (class_members ranges).

(** Under the [i] flag two characters match when their canonical (upper
    case) forms agree. *)
Definition canonicalize (c : ascii) : ascii := Str.to_upper c.

Definition class_ci (ranges : list (ascii * ascii)) (c : ascii) : bool :=
  existsb (fun m => Ascii.eqb (canonicalize m) (canonicalize c))
          (class_members ranges).

Fixpoint nullable (r : regex) : bool :=
  match r with
  | Void => false
  | Eps => true
  | Class _ => false
  | Cat r1 r2 => nullable r1 && nullable r2
  | Alt r1 r2 => nullable r1 || nullable r2
  | Star _ => true
  end.

Fixpoint deriv (c : ascii) (r : regex) : regex :=
  match r with
  | Void | Eps => Void
  | Class p => if p c then Eps else Void
  | Cat r1 r2 =>
      if nullable r1 then Alt (Cat (deriv c r1) r2) (deriv c r2)
      else Cat (deriv c r1) r2
  | Alt r1 r2 => Alt (deriv c r1) (deriv c r2)
  | Star r1 => Cat (deriv c r1) (Star r1)
  end.

Fixpoint matches (r : regex) (l : list ascii) : bool :=
  match l with
  | [] => nullable r
  | c :: l' => matches (deriv c r) l'
  end.

(** [re.test(s)] for an anchored expression. *)
Definition test (r : regex) (s : string) : bool := matches r (Str.chars s).

(** The language of an expression. *)
Inductive lang : regex -> list ascii -> Prop :=
| lang_eps : lang Eps []
| lang_class p c : p c = true -> lang (Class p) [c]
| lang_cat r1 r2 l1 l2 : lang r1 l1 -> lang r2 l2 -> lang (Cat r1 r2) (l1 ++ l2)
| lang_alt_l r1 r2 l : lang r1 l -> lang (Alt r1 r2) l
| lang_alt_r r1 r2 l : lang r2 l -> lang (Alt r1 r2) l
| lang_star_nil r : lang (Star r) []
| lang_star_cons r l1 l2 :
    lang r l1 -> lang (Star r) l2 -> lang (Star r) (l1 ++ l2).

End Regex.

(* ################################################################# *)
(** * Exceptions and the services the runtime provides *)

Module Zod.

Inductive issue_code : Type :=
| invalid_type | too_small | too_big | invalid_string
| invalid_union | invalid_enum_value.

Record issue : Type := Issue { path : list string; message : string }.

End Zod.

Inductive exn : Type :=
| ZodError (issues : list Zod.issue)
| Error (name message : string).

(** What the code takes from the JavaScript runtime and from the
    validation library without defining it. *)
Class Runtime : Type := {
  (** [JSON.parse]; [inl message] is a [SyntaxError] *)
  JSON_parse : string -> string + value;
  (** [JSON.stringify] *)
  JSON_stringify : value -> string;
  (** [Number(s)]; [None] is [NaN] *)
  Number : string -> option number;
  (** [date.toISOString()] of a time stamp *)
  toISOString : Z -> string;
  (** the pattern behind [z.string().email()] *)
  isEmail : string -> bool;
  (** the library's own message for an issue that carries no custom one *)
  zodMessage : Zod.issue_code -> string;
}.

(* ################################################################# *)
(** * Schemas (importSchemas.ts) *)

Module Schemas.
Import Zod Regex.

Section WithRuntime.
Context `{RT : Runtime}.

Inductive check : Type :=
| Min (n : nat) (msg : option string)
| Max (n : nat) (msg : option string)
| Re (r : regex) (msg : string)
| Email (msg : string).

Inductive ztype : Type :=
| ZString (checks : list check)
| ZNumber (int : bool)
| ZBoolean
| ZEnum (opts : list string)
| ZArray (t : ztype)
| ZUnion (ts : list ztype)
| ZOptional (t : ztype)
| ZNullable (t : ztype)
| ZDefault (t : ztype) (d : value).

Definition msg_or (code : issue_code) (msg : option string) : string :=
  default (zodMessage code) msg.

Definition run_check (p : list string) (s : string) (c : check) : list issue :=
  match c with
  | Min n msg =>
      if (n <=? String.length s)%nat then [] else [Issue p (msg_or too_small msg)]
  | Max n msg =>
      if (String.length s <=? n)%nat then [] else [Issue p (msg_or too_big msg)]
  | Re r msg => if Regex.test r s then [] else [Issue p msg]
  | Email msg => if isEmail s then [] else [Issue p msg]
  end.

Fixpoint parse (t : ztype) (p : list string) (v : value) : list issue + value :=
  match t with
  | ZString cs =>
      match v with
      | VStr s =>
          match flat_map (run_check p s) cs with
          | [] => inr v
          | errs => inl errs
          end
      | _ => inl [Issue p (zodMessage invalid_type)]
      end
  | ZNumber int =>
      match v with
      | VNum (NInt _) => inr v
      | VNum (NFrac _) =>
          if int then inl [Issue p (zodMessage invalid_type)] else inr v
      | _ => inl [Issue p (zodMessage invalid_type)]
      end
  | ZBoolean =>
      match v with
      | VBool _ => inr v
      | _ => inl [Issue p (zodMessage invalid_type)]
      end
  | ZEnum opts =>
      match v with
      | VStr s =>
          if bool_decide (s ∈ opts) then inr v
          else inl [Issue p (zodMessage invalid_enum_value)]
      | _ => inl [Issue p (zodMessage invalid_type)]
      end
  | ZArray t' =>
      match v with
      | VArr l =>
          let rs := imap (fun i x => parse t' (p ++ [pretty i]) x) l in
          match flat_map (fun r => match r with inl errs => errs | inr _ => [] end) rs with
          | [] => inr (VArr (flat_map (fun r => match r with inl _ => [] | inr x => [x] end) rs))
          | errs => inl errs
          end
      | _ => inl [Issue p (zodMessage invalid_type)]
      end
  | ZUnion ts =>
      (fix first (ts : list ztype) : list issue + value :=
         match ts with
         | [] => inl [Issue p (zodMessage invalid_union)]
         | t' :: ts' =>
             match parse t' p v with
             | inr r => inr r
             | inl _ => first ts'
             end
         end) ts
  | ZOptional t' =>
      match v with
      | VUndefined => inr VUndefined
      | _ => parse t' p v
      end
  | ZNullable t' =>
      match v with
      | VNull => inr VNull
      | _ => parse t' p v
      end
  | ZDefault t' d =>
      match v with
      | VUndefined => inr d
      | _ => parse t' p v
      end
  end.

(** [z.object({...})] followed by [.refine(pred, {message})] calls. Unknown
    keys are stripped from the result. *)
Record schema : Type := Schema {
  shape : list (string * ztype);
  refinements : list ((obj -> bool) * string);
}.

Definition parse_shape (sh : list (string * ztype)) (m : obj)
  : list issue * obj :=
  foldr (fun '(k, t) '(errs, o) =>
           match parse t [k] (get m k) with
           | inl errs' => (errs' ++ errs, o)
           | inr VUndefined => (errs, o)
           | inr v => (errs, <[k := v]> o)
           end) ([], ∅) sh.

Definition run_refinements (rs : list ((obj -> bool) * string)) (o : obj)
  : list issue :=
  flat_map (fun '(pred, msg) => if pred o : bool then [] else [Issue [] msg]) rs.

(** [schema.parse(v)] *)
Definition schema_parse (sc : schema) (v : value) : exn + obj :=
  match v with
  | VObj m =>
      match parse_shape (shape sc) m with
      | ([], o) =>
          match run_refinements (refinements sc) o with
          | [] => inr o
          | errs => inl (ZodError errs)
          end
      | (errs, _) => inl (ZodError errs)
      end
  | _ => inl (ZodError [Issue [] (zodMessage invalid_type)])
  end.

Definition id_type : ztype := ZUnion [ZNumber true; ZString []].

Definition userRecordSchema : schema :=
  Schema
    [ ("id", id_type);
      ("email", ZString [Email "Invalid email format"]);
      ("name", ZString [Min 1 None]);
      ("role", ZOptional (ZString []));
      ("active", ZDefault ZBoolean (VBool true));
      ("created_at", ZOptional (ZString []));
      ("updated_at", ZOptional (ZString [])) ]
    [].

(** [/^[a-z0-9]+(?:-[a-z0-9]+)*$/i] *)
Definition slug_class : ascii -> bool :=
  class_ci [("a", "z"); ("0", "9")]%char.

Definition slug_regex : regex :=
  Cat (Plus (Class slug_class))
      (Star (Cat (Class (class_cs [("-", "-")]%char)) (Plus (Class slug_class)))).

Definition is_draft_with_date (data : obj) : bool :=
  match get data "status", get data "published_at" with
  | VStr "draft", VNull | VStr "draft", VUndefined => false
  | VStr "draft", _ => true
  | _, _ => false
  end.

Definition articleRecordSchema : schema :=
  Schema
    [ ("id", ZOptional id_type);
      ("slug", ZString [Re slug_regex "Must be kebab-case"]);
      ("title", ZString [Min 1 None]);
      ("description", ZOptional (ZString [Min 1 None]));
      ("body", ZString [Min 1 None]);
      ("author_id", ZOptional id_type);
      ("tags", ZOptional (ZArray (ZString [])));
      ("status", ZOptional (ZEnum ["draft"; "published"]));
      ("published_at", ZNullable (ZOptional (ZString []))) ]
    [ (fun data => negb (is_undefined (get data "author_id")),
       "author_id is required");
      (fun data => negb (is_draft_with_date data),
       "Draft articles must not have published_at") ].

Definition ref_type : ztype := ZUnion [ZNumber false; ZString []].

Definition commentRecordSchema : schema :=
  Schema
    [ ("id", ZOptional ref_type);
      ("article_id", ref_type);
      ("user_id", ref_type);
      ("body", ZString [Min 1 (Some "Body is required");
                        Max 2500 (Some "Body must be <=500 words")]);
      ("created_at", ZOptional (ZString [])) ]
    [].

End WithRuntime.
End Schemas.

(* ################################################################# *)
(** * The store, the file system and the network *)

Inductive ResourceType : Type := users | articles | comments.
Inductive FormatType : Type := ndjson | json.
Inductive Status : Type := pending | processing | completed | failed.
Inductive JobKind : Type := ImportKind | ExportKind.

#[global] Instance Status_eq_dec : EqDecision Status.
Proof. solve_decision. Defined.
#[global] Instance JobKind_eq_dec : EqDecision JobKind.
Proof. solve_decision. Defined.
#[global] Instance ResourceType_eq_dec : EqDecision ResourceType.
Proof. solve_decision. Defined.

Record UserRow : Type := mkUser {
  u_id : Z;
  u_email : string;
  u_username : string;
  u_password : string;
  u_role : option string;
  u_active : option bool;
  u_externalId : option string;
  u_createdAt : option Z;
  u_updatedAt : option Z;
}.

Record ArticleRow : Type := mkArticle {
  a_id : Z;
  a_slug : string;
  a_title : string;
  a_description : string;
  a_body : string;
  a_externalId : option string;
  a_authorId : Z;
  a_tagList : list string;
  a_status : option string;
  a_publishedAt : option Z;
  a_createdAt : option Z;
}.

Record CommentRow : Type := mkComment {
  c_id : Z;
  c_body : string;
  c_articleId : Z;
  c_authorId : Z;
  c_externalId : option string;
  c_createdAt : option Z;
}.

Record ImportJob : Type := mkImportJob {
  ij_idempotencyKey : string;
  ij_resource : ResourceType;
  ij_status : Status;
  ij_totalRecords : Z;
  ij_successCount : Z;
  ij_errorCount : Z;
  ij_skippedCount : Z;
  ij_filePath : option string;
  ij_startedAt : option Z;
  ij_completedAt : option Z;
  ij_createdAt : Z;
}.

Record ExportJob : Type := mkExportJob {
  ej_idempotencyKey : string;
  ej_resource : ResourceType;
  ej_format : FormatType;
  ej_status : Status;
  ej_totalRecords : Z;
  ej_filePath : option string;
  ej_downloadUrl : option string;
  ej_filters : option obj;
  ej_fields : option (list string);
  ej_startedAt : option Z;
  ej_completedAt : option Z;
  ej_createdAt : Z;
}.

Record ImportError : Type := mkImportError {
  importJobId : Z;
  recordIndex : Z;
  recordData : value;
  errorMessage : string;
  errorType : string;
}.

(** importMetrics.ts, [ImportMetrics] *)
Record ImportMetrics : Type := mkMetrics {
  m_startTime : Z;
  m_processedCount : Z;
  m_errorCount : Z;
}.

Inductive HttpResult : Type :=
| Response (statusCode : Z) (body : string)
| NetworkError (e : exn).

(** One write of a job's status column: the value it replaced and the
    value written. The store keeps their history. *)
Record StatusWrite : Type := mkWrite {
  w_kind : JobKind;
  w_job : Z;
  w_from : Status;
  w_to : Status;
}.

(** Modelled from the spec: the relational store and its schema are not in
    the sources; the tables hold what the repositories read and write, with
    the unique keys the store's contract names (user email, article slug,
    external identifiers). [faults] schedules the store's transient
    failures: each store call consumes one entry and fails when it is
    [true]; an exhausted schedule means no failure. *)
Record Store : Type := mkStore {
  userTable : list UserRow;
  articleTable : list ArticleRow;
  commentTable : list CommentRow;
  nextUserId : Z;
  nextArticleId : Z;
  nextCommentId : Z;
  importJobs : gmap Z ImportJob;
  exportJobs : gmap Z ExportJob;
  importErrors : list ImportError;
  files : gmap string string;
  web : gmap string HttpResult;
  clock : Z;
  faults : list bool;
  metrics : gmap Z ImportMetrics;
  statusLog : list StatusWrite;
}.

Definition upd_userTable (f : _ -> _) (s : Store) : Store :=
  mkStore (f (userTable s)) (articleTable s) (commentTable s) (nextUserId s)
    (nextArticleId s) (nextCommentId s) (importJobs s) (exportJobs s)
    (importErrors s) (files s) (web s) (clock s) (faults s) (metrics s)
    (statusLog s).
Definition upd_articleTable (f : _ -> _) (s : Store) : Store :=
  mkStore (userTable s) (f (articleTable s)) (commentTable s) (nextUserId s)
    (nextArticleId s) (nextCommentId s) (importJobs s) (exportJobs s)
    (importErrors s) (files s) (web s) (clock s) (faults s) (metrics s)
    (statusLog s).
Definition upd_commentTable (f : _ -> _) (s : Store) : Store :=
  mkStore (userTable s) (articleTable s) (f (commentTable s)) (nextUserId s)
    (nextArticleId s) (nextCommentId s) (importJobs s) (exportJobs s)
    (importErrors s) (files s) (web s) (clock s) (faults s) (metrics s)
    (statusLog s).
Definition upd_nextUserId (f : _ -> _) (s : Store) : Store :=
  mkStore (userTable s) (articleTable s) (commentTable s) (f (nextUserId s))
    (nextArticleId s) (nextCommentId s) (importJobs s) (exportJobs s)
    (importErrors s) (files s) (web s) (clock s) (faults s) (metrics s)
    (statusLog s).
Definition upd_nextArticleId (f : _ -> _) (s : Store) : Store :=
  mkStore (userTable s) (articleTable s) (commentTable s) (nextUserId s)
    (f (nextArticleId s)) (nextCommentId s) (importJobs s) (exportJobs s)
    (importErrors s) (files s) (web s) (clock s) (faults s) (metrics s)
    (statusLog s).
Definition upd_nextCommentId (f : _ -> _) (s : Store) : Store :=
  mkStore (userTable s) (articleTable s) (commentTable s) (nextUserId s)
    (nextArticleId s) (f (nextCommentId s)) (importJobs s) (exportJobs s)
    (importErrors s) (files s) (web s) (clock s) (faults s) (metrics s)
    (statusLog s).
Definition upd_importJobs (f : _ -> _) (s : Store) : Store :=
  mkStore (userTable s) (articleTable s) (commentTable s) (nextUserId s)
    (nextArticleId s) (nextCommentId s) (f (importJobs s)) (exportJobs s)
    (importErrors s) (files s) (web s) (clock s) (faults s) (metrics s)
    (statusLog s).
Definition upd_exportJobs (f : _ -> _) (s : Store) : Store :=
  mkStore (userTable s) (articleTable s) (commentTable s) (nextUserId s)
    (nextArticleId s) (nextCommentId s) (importJobs s) (f (exportJobs s))
    (importErrors s) (files s) (web s) (clock s) (faults s) (metrics s)
    (statusLog s).
Definition upd_importErrors (f : _ -> _) (s : Store) : Store :=
  mkStore (userTable s) (articleTable s) (commentTable s) (nextUserId s)
    (nextArticleId s) (nextCommentId s) (importJobs s) (exportJobs s)
    (f (importErrors s)) (files s) (web s) (clock s) (faults s) (metrics s)
    (statusLog s).
Definition upd_files (f : _ -> _) (s : Store) : Store :=
  mkStore (userTable s) (articleTable s) (commentTable s) (nextUserId s)
    (nextArticleId s) (nextCommentId s) (importJobs s) (exportJobs s)
    (importErrors s) (f (files s)) (web s) (clock s) (faults s) (metrics s)
    (statusLog s).
Definition upd_faults (f : _ -> _) (s : Store) : Store :=
  mkStore (userTable s) (articleTable s) (commentTable s) (nextUserId s)
    (nextArticleId s) (nextCommentId s) (importJobs s) (exportJobs s)
    (importErrors s) (files s) (web s) (clock s) (f (faults s)) (metrics s)
    (statusLog s).
Definition upd_metrics (f : _ -> _) (s : Store) : Store :=
  mkStore (userTable s) (articleTable s) (commentTable s) (nextUserId s)
    (nextArticleId s) (nextCommentId s) (importJobs s) (exportJobs s)
    (importErrors s) (files s) (web s) (clock s) (faults s) (f (metrics s))
    (statusLog s).
Definition upd_statusLog (f : _ -> _) (s : Store) : Store :=
  mkStore (userTable s) (articleTable s) (commentTable s) (nextUserId s)
    (nextArticleId s) (nextCommentId s) (importJobs s) (exportJobs s)
    (importErrors s) (files s) (web s) (clock s) (faults s) (metrics s)
    (f (statusLog s)).

(* ################################################################# *)
(** * Computations over the store *)

(** An [async] function: from a store to the store it leaves behind and
    either the exception it threw or its result. *)
Definition M (A : Type) : Type := Store -> Store * (exn + A).

Definition ret {A} (a : A) : M A := fun s => (s, inr a).

Definition throw {A} (e : exn) : M A := fun s => (s, inl e).

Definition bind {A B} (m : M A) (k : A -> M B) : M B :=
  fun s =>
    match m s with
    | (s', inr a) => k a s'
    | (s', inl e) => (s', inl e)
    end.

(** [try { m } catch (e) { h e }] *)
Definition try_catch {A} (m : M A) (h : exn -> M A) : M A :=
  fun s =>
    match m s with
    | (s', inl e) => h e s'
    | r => r
    end.

(** [try { m } finally { f }] *)
Definition finally {A} (m : M A) (f : M unit) : M A :=
  fun s =>
    let '(s', r) := m s in
    match f s' with
    | (s'', inr _) => (s'', r)
    | (s'', inl e) => (s'', inl e)
    end.

Definition gets {A} (f : Store -> A) : M A := fun s => (s, inr (f s)).
Definition modify (f : Store -> Store) : M unit := fun s => (f s, inr tt).
Definition lift {A} (r : exn + A) : M A := fun s => (s, r).

Declare Scope js_scope.
Delimit Scope js_scope with js.
Notation "'let*' x ':=' m 'in' k" := (bind m (fun x => k))
  (at level 10, x pattern, m at level 100, k at level 200) : js_scope.
Notation "m ';;' k" := (bind m (fun _ => k))
  (at level 100, k at level 200, right associativity) : js_scope.
Open Scope js_scope.

(** A loop over a list whose body updates the local variables [st]. *)
Fixpoint foldM {A S} (body : S -> A -> M S) (l : list A) (st : S) : M S :=
  match l with
  | [] => ret st
  | x :: l' => let* st' := body st x in foldM body l' st'
  end.

Definition state_of {A} (r : Store * (exn + A)) : Store := r.1.
Definition outcome_of {A} (r : Store * (exn + A)) : exn + A := r.2.

(** [new Date()] and [Date.now()] *)
Definition now : M Z := gets clock.

(* ################################################################# *)
(** * Store calls *)

Definition StoreFailure : exn :=
  Error "PrismaClientInitializationError" "Can't reach database server".
Definition RecordNotFound : exn :=
  Error "PrismaClientKnownRequestError" "Record to update not found.".
Definition UniqueViolation : exn :=
  Error "PrismaClientKnownRequestError" "Unique constraint failed".
Definition ForeignKeyFailed : exn :=
  Error "PrismaClientKnownRequestError" "Foreign key constraint failed".
Definition ConnectNotFound : exn :=
  Error "PrismaClientKnownRequestError" "No record was found for a connect".
Definition InvalidArgument : exn :=
  Error "PrismaClientValidationError" "Invalid value provided".

(** Every store call first meets the failure schedule. *)
Definition store_call : M unit :=
  fun s =>
    match faults s with
    | true :: fs => (upd_faults (fun _ => fs) s, inl StoreFailure)
    | false :: fs => (upd_faults (fun _ => fs) s, inr tt)
    | [] => (s, inr tt)
    end.

(** The order of [orderBy: { key: 'asc' }]. *)
Definition ascending {R} (key : R -> Z) : relation R :=
  fun a b => (key a <= key b)%Z.

#[global] Instance ascending_dec {R} (key : R -> Z) :
  forall a b, Decision (ascending key a b).
Proof. intros a b. unfold ascending. apply _. Defined.

Definition opt_eqb (a : option string) (b : string) : bool :=
  match a with Some x => String.eqb x b | None => false end.

Module prisma.

(** [prisma.importJob.update({ where: { id }, data })] *)
Definition importJob_update (id : Z) (f : ImportJob -> ImportJob) : M ImportJob :=
  store_call ;;
  let* jobs := gets importJobs in
  match jobs !! id with
  | None => throw RecordNotFound
  | Some j =>
      modify (upd_importJobs (fun _ => <[id := f j]> jobs)) ;;
      ret (f j)
  end.

(** [prisma.importJob.findUnique({ where: { id } })] *)
Definition importJob_findUnique (id : Z) : M (option ImportJob) :=
  store_call ;;
  let* jobs := gets importJobs in
  ret (jobs !! id).

(** [prisma.exportJob.update({ where: { id }, data })] *)
Definition exportJob_update (id : Z) (f : ExportJob -> ExportJob) : M ExportJob :=
  store_call ;;
  let* jobs := gets exportJobs in
  match jobs !! id with
  | None => throw RecordNotFound
  | Some j =>
      modify (upd_exportJobs (fun _ => <[id := f j]> jobs)) ;;
      ret (f j)
  end.

Definition exportJob_findUnique (id : Z) : M (option ExportJob) :=
  store_call ;;
  let* jobs := gets exportJobs in
  ret (jobs !! id).

(** [prisma.importError.create({ data })]: the row references its job. *)
Definition importError_create (data : ImportError) : M ImportError :=
  store_call ;;
  let* jobs := gets importJobs in
  match jobs !! importJobId data with
  | None => throw ForeignKeyFailed
  | Some _ =>
      modify (upd_importErrors (fun l => l ++ [data])) ;;
      ret data
  end.

(** [prisma.user.findUnique({ where: { externalId } })] *)
Definition user_findUnique_externalId (ext : string) : M (option UserRow) :=
  store_call ;;
  let* us := gets userTable in
  ret (List.find (fun u => opt_eqb (u_externalId u) ext) us).

(** [prisma.article.findUnique({ where: { externalId } })] *)
Definition article_findUnique_externalId (ext : string) : M (option ArticleRow) :=
  store_call ;;
  let* arts := gets articleTable in
  ret (List.find (fun a => opt_eqb (a_externalId a) ext) arts).

(** The external identifier [ext] is held by a user other than the one
    with this email. *)
Definition user_externalId_taken (ext : option string) (email : string)
    (us : list UserRow) : bool :=
  match ext with
  | None => false
  | Some e =>
      existsb (fun u => opt_eqb (u_externalId u) e
                        && negb (String.eqb (u_email u) email)) us
  end.

Definition replace_user (email : string) (f : UserRow -> UserRow)
    (us : list UserRow) : list UserRow :=
  map (fun u => if String.eqb (u_email u) email then f u else u) us.

(** [prisma.user.upsert({ where: { email }, update, create })] with the
    same columns in [update] and [create]. *)
Definition user_upsert (email username password role : string) (active : bool)
    (externalId : option string) : M UserRow :=
  store_call ;;
  let* us := gets userTable in
  if user_externalId_taken externalId email us then throw UniqueViolation
  else
    match List.find (fun u => String.eqb (u_email u) email) us with
    | Some u =>
        let f u := mkUser (u_id u) (u_email u) username password (Some role)
                     (Some active) externalId (u_createdAt u) (u_updatedAt u) in
        modify (upd_userTable (replace_user email f)) ;;
        ret (f u)
    | None =>
        let* id := gets nextUserId in
        let u := mkUser id email username password (Some role) (Some active)
                   externalId None None in
        modify (upd_userTable (fun l => l ++ [u])) ;;
        modify (upd_nextUserId (fun n => (n + 1)%Z)) ;;
        ret u
    end.

Definition article_externalId_taken (ext : option string) (slug : string)
    (arts : list ArticleRow) : bool :=
  match ext with
  | None => false
  | Some e =>
      existsb (fun a => opt_eqb (a_externalId a) e
                        && negb (String.eqb (a_slug a) slug)) arts
  end.

Definition replace_article (slug : string) (f : ArticleRow -> ArticleRow)
    (arts : list ArticleRow) : list ArticleRow :=
  map (fun a => if String.eqb (a_slug a) slug then f a else a) arts.

Definition user_exists (id : Z) (us : list UserRow) : bool :=
  existsb (fun u => (u_id u =? id)%Z) us.

Definition article_exists (id : Z) (arts : list ArticleRow) : bool :=
  existsb (fun a => (a_id a =? id)%Z) arts.

(** [prisma.article.upsert({ where: { slug }, update, create })] with
    [author: { connect: { id } }] in both. *)
Definition article_upsert (slug title description body : string)
    (externalId : option string) (authorId : Z) : M ArticleRow :=
  store_call ;;
  let* us := gets userTable in
  let* arts := gets articleTable in
  if negb (user_exists authorId us) then throw ConnectNotFound
  else if article_externalId_taken externalId slug arts then throw UniqueViolation
  else
    match List.find (fun a => String.eqb (a_slug a) slug) arts with
    | Some a =>
        let f a := mkArticle (a_id a) (a_slug a) title description body
                     externalId authorId (a_tagList a) (a_status a)
                     (a_publishedAt a) (a_createdAt a) in
        modify (upd_articleTable (replace_article slug f)) ;;
        ret (f a)
    | None =>
        let* id := gets nextArticleId in
        let* t := now in
        let a := mkArticle id slug title description body externalId authorId
                   [] None None (Some t) in
        modify (upd_articleTable (fun l => l ++ [a])) ;;
        modify (upd_nextArticleId (fun n => (n + 1)%Z)) ;;
        ret a
    end.

(** [prisma.comment.create({ data: { body, articleId, authorId } })] *)
Definition comment_create (body : string) (articleId authorId : Z) : M CommentRow :=
  store_call ;;
  let* us := gets userTable in
  let* arts := gets articleTable in
  if negb (article_exists articleId arts && user_exists authorId us)
  then throw ForeignKeyFailed
  else
    let* id := gets nextCommentId in
    let* t := now in
    let c := mkComment id body articleId authorId None (Some t) in
    modify (upd_commentTable (fun l => l ++ [c])) ;;
    modify (upd_nextCommentId (fun n => (n + 1)%Z)) ;;
    ret c.

End prisma.

(* ################################################################# *)
(** * importRepository.ts *)

Module importRepository.

Record StatusData : Type := mkStatusData {
  startedAt : option Z;
  completedAt : option Z;
}.

Definition with_status (status : Status) (data : StatusData) (j : ImportJob)
  : ImportJob :=
  mkImportJob (ij_idempotencyKey j) (ij_resource j) status (ij_totalRecords j)
    (ij_successCount j) (ij_errorCount j) (ij_skippedCount j) (ij_filePath j)
    (if startedAt data is Some t then Some t else ij_startedAt j)
    (if completedAt data is Some t then Some t else ij_completedAt j)
    (ij_createdAt j).

(** The history entry of a status write that found the job. *)
Definition log_write (kind : JobKind) (id : Z) (before : option Status)
    (after : Status) : M unit :=
  match before with
  | Some old => modify (upd_statusLog (fun l => l ++ [mkWrite kind id old after]))
  | None => ret tt
  end.

Definition updateJobStatus (jobId : Z) (status : Status) (data : StatusData)
  : M ImportJob :=
  let* before := gets (fun s => ij_status <$> importJobs s !! jobId) in
  let* j := prisma.importJob_update jobId (with_status status data) in
  log_write ImportKind jobId before status ;;
  ret j.

Inductive CountUpdate : Type :=
| SetTo (n : Z)
| Increment (n : Z).

Record Counts : Type := mkCounts {
  totalRecords : option Z;
  successCount : option CountUpdate;
  errorCount : option CountUpdate;
}.

Definition apply_count (u : option CountUpdate) (old : Z) : Z :=
  match u with
  | Some (SetTo n) => n
  | Some (Increment n) => (old + n)%Z
  | None => old
  end.

Definition with_counts (counts : Counts) (j : ImportJob) : ImportJob :=
  mkImportJob (ij_idempotencyKey j) (ij_resource j) (ij_status j)
    (default (ij_totalRecords j) (totalRecords counts))
    (apply_count (successCount counts) (ij_successCount j))
    (apply_count (errorCount counts) (ij_errorCount j))
    (ij_skippedCount j) (ij_filePath j) (ij_startedAt j) (ij_completedAt j)
    (ij_createdAt j).

Definition updateJobCounts (jobId : Z) (counts : Counts) : M ImportJob :=
  prisma.importJob_update jobId (with_counts counts).

Definition getJob (jobId : Z) : M (option ImportJob) :=
  prisma.importJob_findUnique jobId.

Definition createImportError (data : ImportError) : M ImportError :=
  prisma.importError_create data.

Definition TypeError (message : string) : exn := Error "TypeError" message.

(** The argument of a store call whose column is a string. *)
Definition as_string (v : value) : M string :=
  match v with VStr s => ret s | _ => throw InvalidArgument end.

Definition as_bool (v : value) : M bool :=
  match v with VBool b => ret b | _ => throw InvalidArgument end.

(** [typeof id === 'string' && id.includes('-') ? id : null] *)
Definition externalId_of (id : value) : option string :=
  match id with
  | VStr s => if Str.includes s "-" then Some s else None
  | _ => None
  end.

(** [record.name?.toLowerCase().replace(/\s+/g, '')] *)
Definition name_as_username (name : value) : M value :=
  match name with
  | VUndefined | VNull => ret VUndefined
  | VStr n => ret (VStr (Str.remove_spaces (Str.toLowerCase n)))
  | _ => throw (TypeError "record.name?.toLowerCase is not a function")
  end.

(** [record.email.split('@')[0]] *)
Definition email_local_part (email : value) : M value :=
  match email with
  | VStr e => ret (VStr (hd ""%string (Str.split "@" e)))
  | VUndefined | VNull =>
      throw (TypeError "Cannot read properties of undefined (reading 'split')")
  | _ => throw (TypeError "record.email.split is not a function")
  end.

Definition upsertUser (record : obj) : M UserRow :=
  let* username :=
    if truthy (get record "username") then ret (get record "username")
    else
      let* n := name_as_username (get record "name") in
      if truthy n then ret n else email_local_part (get record "email") in
  let password := Js.or (get record "password") (VStr "imported-user-change-me") in
  let role := Js.or (get record "role") (VStr "reader") in
  let active :=
    if is_undefined (get record "active") then VBool true
    else get record "active" in
  let externalId := externalId_of (get record "id") in
  let* email := as_string (get record "email") in
  let* username := as_string username in
  let* password := as_string password in
  let* role := as_string role in
  let* active := as_bool active in
  prisma.user_upsert email username password role active externalId.

(** ToString, as template literals and [parseInt] apply it. *)
Definition toStr_prim (v : value) : string :=
  match v with
  | VUndefined => "undefined"
  | VNull => "null"
  | VBool true => "true"
  | VBool false => "false"
  | VNum (NInt z) => pretty z
  | VNum (NFrac lit) => lit
  | VStr s => s
  | VArr _ => ""
  | VObj _ => "[object Object]"
  end.

Definition toStr (v : value) : string :=
  match v with
  | VArr l =>
      String.concat ","
        (map (fun x => match x with
                       | VUndefined | VNull => ""%string
                       | _ => toStr_prim x
                       end) l)
  | _ => toStr_prim v
  end.

(** [typeof x === 'number' ? x : parseInt(x)], then the [isNaN] test; a
    non-integral number is left for the store call to refuse. *)
Definition to_int (what : string) (x : value) : M Z :=
  match x with
  | VNum (NInt z) => ret z
  | VNum (NFrac _) => throw InvalidArgument
  | _ =>
      match Str.parseInt (toStr x) with
      | Some z => ret z
      | None => throw (Error "Error" ("Invalid " +:+ what +:+ ": " +:+ toStr x))
      end
  end.

Definition is_external_ref (x : value) : option string :=
  match x with
  | VStr s => if Str.includes s "-" then Some s else None
  | _ => None
  end.

(** The double quote character, as a string. *)
Definition dquote : string := String (ascii_of_nat 34) EmptyString.

Definition fk_violation (field ref entity : string) : exn :=
  Error "Error"
    ("Foreign key violation: " +:+ field +:+ " " +:+ dquote +:+ ref +:+ dquote
     +:+ " does not exist (" +:+ entity +:+ " with externalId not found)").

(** Resolve a reference to a user: an external identifier is looked up,
    anything else is read as an integer id. *)
Definition resolve_user (field : string) (x : value) : M Z :=
  match is_external_ref x with
  | Some ext =>
      let* user := prisma.user_findUnique_externalId ext in
      match user with
      | None => throw (fk_violation field ext "user")
      | Some u => ret (u_id u)
      end
  | None => to_int field x
  end.

Definition resolve_article (field : string) (x : value) : M Z :=
  match is_external_ref x with
  | Some ext =>
      let* article := prisma.article_findUnique_externalId ext in
      match article with
      | None => throw (fk_violation field ext "article")
      | Some a => ret (a_id a)
      end
  | None => to_int field x
  end.

Definition upsertArticle (record : obj) : M ArticleRow :=
  let authorId := Js.or (get record "author_id") (get record "authorId") in
  let* authorIdInt := resolve_user "author_id" authorId in
  let externalId := externalId_of (get record "id") in
  let* slug := as_string (get record "slug") in
  let* title := as_string (get record "title") in
  let* description := as_string (Js.or (get record "description") (get record "title")) in
  let* body := as_string (get record "body") in
  prisma.article_upsert slug title description body externalId authorIdInt.

Definition upsertComment (record : obj) : M CommentRow :=
  let articleId := get record "article_id" in
  let userId := get record "user_id" in
  let* articleIdInt := resolve_article "article_id" articleId in
  let* userIdInt := resolve_user "user_id" userId in
  let* body := as_string (get record "body") in
  prisma.comment_create body articleIdInt userIdInt.

End importRepository.

(* ################################################################# *)
(** * importMetrics.ts *)

Module metricsTracker.

Definition startTracking (jobId : Z) : M unit :=
  let* t := now in
  modify (upd_metrics (fun m => <[jobId := mkMetrics t 0 0]> m)).

Definition updateProgress (jobId : Z) (processed errors : Z) : M unit :=
  modify (upd_metrics (fun m =>
    match m !! jobId with
    | Some metric => <[jobId := mkMetrics (m_startTime metric) processed errors]> m
    | None => m
    end)).

Definition finishTracking (jobId : Z) : M unit :=
  modify (upd_metrics (fun m => delete jobId m)).

End metricsTracker.

(* ################################################################# *)
(** * The file system and the network *)

Module fs.

Definition existsSync (path : string) : M bool :=
  gets (fun s => bool_decide (is_Some (files s !! path))).

Definition readFile (path : string) : M string :=
  let* f := gets (fun s => files s !! path) in
  match f with
  | Some content => ret content
  | None => throw (Error "Error" "ENOENT: no such file or directory")
  end.

Definition writeFile (path content : string) : M unit :=
  modify (upd_files (fun fsys => <[path := content]> fsys)).

Definition unlink (path : string) : M unit :=
  modify (upd_files (fun fsys => delete path fsys)).

(** The text cut at its line ends: a line feed, a carriage return, or a
    carriage return followed by a line feed. [cur] holds the line under
    way, last character first. *)
Fixpoint cut_lines (cs cur : list ascii) : list string :=
  match cs with
  | [] => [Str.of_chars (rev cur)]
  | c :: rest =>
      if Ascii.eqb c "010" then Str.of_chars (rev cur) :: cut_lines rest []
      else if Ascii.eqb c "013" then
        Str.of_chars (rev cur) ::
          match rest with
          | c' :: rest' =>
              if Ascii.eqb c' "010" then cut_lines rest' [] else cut_lines rest []
          | [] => cut_lines rest []
          end
      else cut_lines rest (c :: cur)
  end.

(** The lines [readline] delivers over the stream of a file: the text cut
    at its line ends, without a last empty piece. *)
Definition lines (content : string) : list string :=
  match rev (cut_lines (Str.chars content) []) with
  | last :: front =>
      if String.eqb last EmptyString then rev front else rev (last :: front)
  | [] => []
  end.

End fs.

(* ################################################################# *)
(** * importProcessor.ts *)

Module importProcessor.
Import importRepository.

Section WithRuntime.
Context `{RT : Runtime}.

Definition BATCH_SIZE : nat := 1000.

(** [BatchItem]: a validated record and its [recordIndex]. *)
Record BatchItem : Type := mkItem {
  item_recordIndex : Z;
  item_record : obj;
}.

Record ProcessBatchResult : Type := mkResult {
  success : Z;
  error : Z;
}.

Definition schema_of (resource : ResourceType) : Schemas.schema :=
  match resource with
  | users => Schemas.userRecordSchema
  | articles => Schemas.articleRecordSchema
  | comments => Schemas.commentRecordSchema
  end.

Definition validateRecord (resource : ResourceType) (record : value) : exn + obj :=
  Schemas.schema_parse (schema_of resource) record.

Definition issue_line (e : Zod.issue) : string :=
  String.concat "." (Zod.path e) +:+ ": " +:+ Zod.message e.

Definition recordError (jobId : Z) (recordIndex : Z) (recordData : value)
    (error : exn) : M unit :=
  let '(errorMessage, errorType) :=
    match error with
    | ZodError issues =>
        (String.concat "; " (map issue_line issues), "VALIDATION_ERROR"%string)
    | Error name message => (message, name)
    end in
  createImportError
    (mkImportError jobId recordIndex recordData errorMessage errorType) ;;
  ret tt.

Definition upsert (resource : ResourceType) (record : obj) : M unit :=
  match resource with
  | users => upsertUser record ;; ret tt
  | articles => upsertArticle record ;; ret tt
  | comments => upsertComment record ;; ret tt
  end.

(** One turn of the loop of [processBatch]. *)
Definition processItem (jobId : Z) (resource : ResourceType)
    (acc : ProcessBatchResult) (item : BatchItem) : M ProcessBatchResult :=
  try_catch
    (upsert resource (item_record item) ;;
     ret (mkResult (success acc + 1) (error acc)))
    (fun err =>
       recordError jobId (item_recordIndex item) (VObj (item_record item)) err ;;
       ret (mkResult (success acc) (error acc + 1))).

Definition processBatch (jobId : Z) (resource : ResourceType)
    (batch : list BatchItem) : M ProcessBatchResult :=
  let* r := foldM (processItem jobId resource) batch (mkResult 0 0) in
  updateJobCounts jobId
    (mkCounts None (Some (Increment (success r))) (Some (Increment (error r)))) ;;
  ret r.

(** The local variables of the three file loops. *)
Record Locals : Type := mkLocals {
  l_recordIndex : Z;
  l_successCount : Z;
  l_errorCount : Z;
  l_batch : list BatchItem;
  l_headers : list string;
}.

Definition next_index (st : Locals) : Locals :=
  mkLocals (l_recordIndex st + 1) (l_successCount st) (l_errorCount st)
    (l_batch st) (l_headers st).

Definition count_error (st : Locals) : Locals :=
  mkLocals (l_recordIndex st) (l_successCount st) (l_errorCount st + 1)
    (l_batch st) (l_headers st).

Definition push (item : BatchItem) (st : Locals) : Locals :=
  mkLocals (l_recordIndex st) (l_successCount st) (l_errorCount st)
    (l_batch st ++ [item]) (l_headers st).

Definition add_result (r : ProcessBatchResult) (st : Locals) : Locals :=
  mkLocals (l_recordIndex st) (l_successCount st + success r)
    (l_errorCount st + error r) (l_batch st) (l_headers st).

Definition clear_batch (st : Locals) : Locals :=
  mkLocals (l_recordIndex st) (l_successCount st) (l_errorCount st) []
    (l_headers st).

Definition with_headers (hs : list string) (st : Locals) : Locals :=
  mkLocals (l_recordIndex st) (l_successCount st) (l_errorCount st)
    (l_batch st) hs.

Definition batch_full (st : Locals) : bool :=
  (BATCH_SIZE <=? length (l_batch st))%nat.

(** [if (!line.trim()) continue] *)
Definition is_blank (line : string) : bool :=
  negb (truthy (VStr (Str.trim line))).

(** The statements of the [try] block that follow [batch.push]: flush a
    full batch and report progress. [processed] is the count handed to
    the metrics tracker. *)
Definition flush_when_full (jobId : Z) (resource : ResourceType)
    (processed : Z) (st : Locals) : M Locals :=
  if batch_full st then
    let* result := processBatch jobId resource (l_batch st) in
    let st := clear_batch (add_result result st) in
    metricsTracker.updateProgress jobId processed (l_errorCount st) ;;
    ret st
  else ret st.

(** [JSON.parse(line)] then [validateRecord]. *)
Definition parse_line (resource : ResourceType) (line : string) : exn + obj :=
  match JSON_parse line with
  | inl msg => inl (Error "SyntaxError" msg)
  | inr record => validateRecord resource record
  end.

(** The body of the loop of [processNdjsonFile]. The [catch] clause sees
    the local variables as the failing statement left them. *)
Definition ndjson_line (jobId : Z) (resource : ResourceType) (st : Locals)
    (line : string) : M Locals :=
  if is_blank line then ret st
  else
    let currentIndex := l_recordIndex st in
    let st := next_index st in
    let catch (st : Locals) (error : exn) : M Locals :=
      let st := count_error st in
      recordError jobId currentIndex (VStr line) error ;;
      ret st in
    match parse_line resource line with
    | inl error => catch st error
    | inr validated =>
        let st := push (mkItem currentIndex validated) st in
        try_catch (flush_when_full jobId resource (l_recordIndex st) st) (catch st)
    end.

(** The statements after the loop: flush what is left of the batch. *)
Definition flush_rest (jobId : Z) (resource : ResourceType) (st : Locals)
  : M Locals :=
  if (0 <? length (l_batch st))%nat then
    let* result := processBatch jobId resource (l_batch st) in
    ret (add_result result st)
  else ret st.

Definition initial_locals : Locals := mkLocals 0 0 0 [] [].

Definition processNdjsonFile (jobId : Z) (resource : ResourceType)
    (filePath : string) : M unit :=
  let* content := fs.readFile filePath in
  let* st := foldM (ndjson_line jobId resource) (fs.lines content) initial_locals in
  let* st := flush_rest jobId resource st in
  metricsTracker.updateProgress jobId (l_recordIndex st) (l_errorCount st) ;;
  updateJobCounts jobId
    (mkCounts (Some (l_recordIndex st)) (Some (SetTo (l_successCount st)))
       (Some (SetTo (l_errorCount st)))) ;;
  ret tt.

(** The value of a cell of a CSV line. *)
Definition csv_cell (cell : option string) : value :=
  match cell with
  | None => VUndefined
  | Some v =>
      if String.eqb v EmptyString then VUndefined
      else if String.eqb v "true" then VBool true
      else if String.eqb v "false" then VBool false
      else match Number v with
           | Some n => VNum n
           | None => VStr v
           end
  end.

Definition csv_cells (line : string) : list string :=
  map Str.trim (Str.split "," line).

(** [headers.forEach((header, i) => record[header] = ...values[i]...)] *)
Definition csv_record (headers : list string) (values : list string) : obj :=
  foldl (fun record hi => <[hi.2 := csv_cell (values !! hi.1)]> record) ∅
        (imap pair headers).

Definition csv_line (jobId : Z) (resource : ResourceType) (st : Locals)
    (line : string) : M Locals :=
  if is_blank line then ret st
  else if (l_recordIndex st =? 0)%Z then
    ret (next_index (with_headers (csv_cells line) st))
  else
    let currentIndex := l_recordIndex st in
    let st := next_index st in
    let catch (st : Locals) (error : exn) : M Locals :=
      let st := count_error st in
      recordError jobId currentIndex (VStr line) error ;;
      ret st in
    let record := csv_record (l_headers st) (csv_cells line) in
    match validateRecord resource (VObj record) with
    | inl error => catch st error
    | inr validated =>
        let st := push (mkItem currentIndex validated) st in
        try_catch (flush_when_full jobId resource (l_recordIndex st) st) (catch st)
    end.

Definition processCsvFile (jobId : Z) (resource : ResourceType)
    (filePath : string) : M unit :=
  let* content := fs.readFile filePath in
  let* st := foldM (csv_line jobId resource) (fs.lines content) initial_locals in
  let* st := flush_rest jobId resource st in
  let totalRecords := (l_recordIndex st - 1)%Z in
  metricsTracker.updateProgress jobId totalRecords (l_errorCount st) ;;
  updateJobCounts jobId
    (mkCounts (Some totalRecords) (Some (SetTo (l_successCount st)))
       (Some (SetTo (l_errorCount st)))) ;;
  ret tt.

(** The body of the loop of [processJsonFile]; [l_recordIndex] is [i]. *)
Definition json_record (jobId : Z) (resource : ResourceType) (st : Locals)
    (record : value) : M Locals :=
  let i := l_recordIndex st in
  let catch (st : Locals) (error : exn) : M Locals :=
    recordError jobId i record error ;;
    ret (count_error st) in
  let* st :=
    match validateRecord resource record with
    | inl error => catch st error
    | inr validated =>
        let st := push (mkItem i validated) st in
        try_catch (flush_when_full jobId resource (i + 1) st) (catch st)
    end in
  ret (next_index st).

Definition processJsonFile (jobId : Z) (resource : ResourceType)
    (filePath : string) : M unit :=
  let* content := fs.readFile filePath in
  match JSON_parse content with
  | inl msg => throw (Error "SyntaxError" msg)
  | inr (VArr records) =>
      updateJobCounts jobId (mkCounts (Some (Z.of_nat (length records))) None None) ;;
      let* st := foldM (json_record jobId resource) records initial_locals in
      let* st := flush_rest jobId resource st in
      metricsTracker.updateProgress jobId (Z.of_nat (length records)) (l_errorCount st) ;;
      updateJobCounts jobId
        (mkCounts None (Some (SetTo (l_successCount st)))
           (Some (SetTo (l_errorCount st)))) ;;
      ret tt
  | inr _ => throw (Error "Error" "JSON must be an array")
  end.

(** [path.join('uploads', `download-${Date.now()}.${ext}`)], with the
    extension detected from the URL. *)
Definition download_path (url : string) (t : Z) : string :=
  let ext : string :=
    if Str.includes url ".ndjson" then "ndjson"
    else if Str.includes url ".csv" then "csv"
    else "json" in
  "uploads/download-" +:+ pretty t +:+ "." +:+ ext.

Definition downloadFile (url : string) : M string :=
  let* t := now in
  let filePath := download_path url t in
  fs.writeFile filePath EmptyString ;;
  let* r := gets (fun s => web s !! url) in
  match r with
  | Some (Response statusCode body) =>
      if (statusCode =? 200)%Z then
        fs.writeFile filePath body ;;
        ret filePath
      else throw (Error "Error" ("Failed to download: HTTP " +:+ pretty statusCode))
  | Some (NetworkError err) =>
      fs.unlink filePath ;;
      throw err
  | None =>
      fs.unlink filePath ;;
      throw (Error "Error" "getaddrinfo ENOTFOUND")
  end.

(** Run [m]; hand back what it threw or returned. *)
Definition attempt {A} (m : M A) : M (exn + A) :=
  fun s => let '(s', r) := m s in (s', inr r).

(** The first statements of the [try] block of [processImportJob]: they
    set [actualFilePath] and [downloadedFile]. *)
Definition resolve_source (job : ImportJob) : M (string * bool) :=
  match ij_filePath job with
  | None => throw (Error "Error" "No file path")
  | Some filePath =>
      if String.eqb filePath EmptyString then throw (Error "Error" "No file path")
      else if Str.startsWith filePath "http://" || Str.startsWith filePath "https://"
      then
        let* actualFilePath := downloadFile filePath in
        ret (actualFilePath, true)
      else ret (filePath, false)
  end.

(** The rest of the [try] block. *)
Definition process_source (jobId : Z) (job : ImportJob) (actualFilePath : string)
  : M unit :=
  let* found := fs.existsSync actualFilePath in
  if negb found then throw (Error "Error" "File not found")
  else
    (if Str.endsWith actualFilePath ".ndjson"
     then processNdjsonFile jobId (ij_resource job) actualFilePath
     else if Str.endsWith actualFilePath ".csv"
     then processCsvFile jobId (ij_resource job) actualFilePath
     else processJsonFile jobId (ij_resource job) actualFilePath) ;;
    let* t := now in
    updateJobStatus jobId completed (mkStatusData None (Some t)) ;;
    let* finalJob := getJob jobId in
    ret tt.

(** The [catch] clause. *)
Definition fail_job (jobId : Z) (error : exn) : M unit :=
  let* t := now in
  updateJobStatus jobId failed (mkStatusData None (Some t)) ;;
  throw error.

(** The [finally] clause. *)
Definition cleanup (jobId : Z) (actualFilePath : option string)
    (downloadedFile : bool) : M unit :=
  metricsTracker.finishTracking jobId ;;
  match actualFilePath with
  | Some p =>
      let* found := fs.existsSync p in
      if downloadedFile && found then fs.unlink p else ret tt
  | None => ret tt
  end.

Definition processImportJob (jobId : Z) : M unit :=
  metricsTracker.startTracking jobId ;;
  let* t := now in
  let* job := updateJobStatus jobId processing (mkStatusData (Some t) None) in
  let* source := attempt (resolve_source job) in
  match source with
  | inl error => finally (fail_job jobId error) (cleanup jobId None false)
  | inr (actualFilePath, downloadedFile) =>
      finally
        (try_catch (process_source jobId job actualFilePath) (fail_job jobId))
        (cleanup jobId (Some actualFilePath) downloadedFile)
  end.

End WithRuntime.
End importProcessor.

(* ################################################################# *)
(** * exportRepository.ts *)

Module exportRepository.

Record StatusData : Type := mkStatusData {
  startedAt : option Z;
  completedAt : option Z;
  filePath : option string;
  downloadUrl : option string;
  totalRecords : option Z;
}.

Definition with_status (status : Status) (data : StatusData) (j : ExportJob)
  : ExportJob :=
  mkExportJob (ej_idempotencyKey j) (ej_resource j) (ej_format j) status
    (default (ej_totalRecords j) (totalRecords data))
    (if filePath data is Some p then Some p else ej_filePath j)
    (if downloadUrl data is Some u then Some u else ej_downloadUrl j)
    (ej_filters j) (ej_fields j)
    (if startedAt data is Some t then Some t else ej_startedAt j)
    (if completedAt data is Some t then Some t else ej_completedAt j)
    (ej_createdAt j).

Definition updateJobStatus (jobId : Z) (status : Status) (data : StatusData)
  : M ExportJob :=
  let* before := gets (fun s => ej_status <$> exportJobs s !! jobId) in
  let* j := prisma.exportJob_update jobId (with_status status data) in
  importRepository.log_write ExportKind jobId before status ;;
  ret j.

Definition getJob (jobId : Z) : M (option ExportJob) :=
  prisma.exportJob_findUnique jobId.

End exportRepository.

(* ################################################################# *)
(** * exportProcessor.ts *)

Module exportProcessor.

Section WithRuntime.
Context `{RT : Runtime}.

(** What the cursors yield: a row with the relations the query includes. *)
Inductive CursorRecord : Type :=
| UserRecord (user : UserRow)
| ArticleRecord (article : ArticleRow) (author : option UserRow)
| CommentRecord (comment : CommentRow) (article : option ArticleRow)
    (author : option UserRow).

Definition opt_str (o : option string) : value :=
  match o with Some s => VStr s | None => VNull end.

Definition opt_bool (o : option bool) : value :=
  match o with Some b => VBool b | None => VNull end.

(** [date?.toISOString()] *)
Definition iso (o : option Z) : value :=
  match o with Some t => VStr (toISOString t) | None => VUndefined end.

Definition int (z : Z) : value := VNum (NInt z).

(** The [if (fields) { ... }] block of the three formatters. *)
Definition select_fields (formatted : obj) (fields : option (list string)) : obj :=
  match fields with
  | Some fields =>
      foldl (fun filtered field =>
               if is_undefined (get formatted field) then filtered
               else <[field := get formatted field]> filtered)
            ∅ fields
  | None => formatted
  end.

Definition formatUserRecord (user : UserRow) (fields : option (list string)) : obj :=
  let formatted := Js.literal
    [ ("id", Js.or (opt_str (u_externalId user)) (int (u_id user)));
      ("email", VStr (u_email user));
      ("name", VStr (u_username user));
      ("role", Js.or (opt_str (u_role user)) (VStr "user"));
      ("active", nullish (opt_bool (u_active user)) (VBool true));
      ("created_at", iso (u_createdAt user));
      ("updated_at", iso (u_updatedAt user)) ] in
  select_fields formatted fields.

Definition formatArticleRecord (article : ArticleRow) (author : option UserRow)
    (fields : option (list string)) : obj :=
  let formatted := Js.literal
    [ ("id", Js.or (opt_str (a_externalId article)) (int (a_id article)));
      ("slug", VStr (a_slug article));
      ("title", VStr (a_title article));
      ("body", VStr (a_body article));
      ("author_id",
        Js.or (if author is Some u then opt_str (u_externalId u) else VUndefined)
              (int (a_authorId article)));
      ("tags", Js.or (VArr (map VStr (a_tagList article))) (VArr []));
      ("status", Js.or (opt_str (a_status article)) (VStr "published"));
      ("published_at",
        Js.or (Js.or (iso (a_publishedAt article)) (iso (a_createdAt article)))
              VNull) ] in
  select_fields formatted fields.

Definition formatCommentRecord (comment : CommentRow) (article : option ArticleRow)
    (author : option UserRow) (fields : option (list string)) : obj :=
  let formatted := Js.literal
    [ ("id", Js.or (opt_str (c_externalId comment)) (int (c_id comment)));
      ("article_id",
        Js.or (if article is Some a then opt_str (a_externalId a) else VUndefined)
              (int (c_articleId comment)));
      ("user_id",
        Js.or (if author is Some u then opt_str (u_externalId u) else VUndefined)
              (int (c_authorId comment)));
      ("body", VStr (c_body comment));
      ("created_at", iso (c_createdAt comment)) ] in
  select_fields formatted fields.

Definition formatRecord (record : CursorRecord) (fields : option (list string))
  : obj :=
  match record with
  | UserRecord user => formatUserRecord user fields
  | ArticleRecord article author => formatArticleRecord article author fields
  | CommentRecord comment article author =>
      formatCommentRecord comment article author fields
  end.

Definition BATCH_SIZE : nat := 1000.

(** [typeof x === 'number' ? x : parseInt(String(x))]; the store refuses
    what is not an integer. *)
Definition filter_id (x : value) : M Z :=
  match x with
  | VNum (NInt z) => ret z
  | _ =>
      match Str.parseInt (importRepository.toStr x) with
      | Some z => ret z
      | None => throw InvalidArgument
      end
  end.

(** The [where] clause of a query: the conditions a row has to meet. *)
Definition user_where (filters : obj) : M (UserRow -> bool) :=
  let active :=
    if is_undefined (get filters "active") then None
    else Some (match get filters "active" with
               | VStr "true" | VBool true => true
               | _ => false
               end) in
  let* role :=
    if truthy (get filters "role")
    then let* r := importRepository.as_string (get filters "role") in ret (Some r)
    else ret None in
  ret (fun u =>
         (if active is Some a then bool_decide (u_active u = Some a) else true)
         && (if role is Some r then bool_decide (u_role u = Some r) else true)).

Definition article_where (filters : obj) : M (ArticleRow -> bool) :=
  let* status :=
    if truthy (get filters "status")
    then let* r := importRepository.as_string (get filters "status") in ret (Some r)
    else ret None in
  let* authorId :=
    if truthy (get filters "authorId")
    then let* z := filter_id (get filters "authorId") in ret (Some z)
    else ret None in
  ret (fun a =>
         (if status is Some st then bool_decide (a_status a = Some st) else true)
         && (if authorId is Some z then (a_authorId a =? z)%Z else true)).

Definition comment_where (filters : obj) : M (CommentRow -> bool) :=
  let* articleId :=
    if truthy (get filters "articleId")
    then let* z := filter_id (get filters "articleId") in ret (Some z)
    else ret None in
  let* authorId :=
    if truthy (get filters "authorId")
    then let* z := filter_id (get filters "authorId") in ret (Some z)
    else ret None in
  ret (fun c =>
         (if articleId is Some z then (c_articleId c =? z)%Z else true)
         && (if authorId is Some z then (c_authorId c =? z)%Z else true)).

(** [findMany({ where, orderBy: { id: 'asc' }, take, skip })] on a table. *)
Definition page {R} (id_of : R -> Z) (cond : R -> bool) (skip : nat)
    (table : list R) : list R :=
  take BATCH_SIZE
    (drop skip (merge_sort (ascending id_of) (filter (fun r => cond r = true) table))).

Definition find_user (id : Z) (s : Store) : option UserRow :=
  List.find (fun u => (u_id u =? id)%Z) (userTable s).

Definition find_article (id : Z) (s : Store) : option ArticleRow :=
  List.find (fun a => (a_id a =? id)%Z) (articleTable s).

(** One [findMany] call of the cursor of a resource. *)
Definition fetch_page (resource : ResourceType) (filters : obj) (skip : nat)
  : M (list CursorRecord) :=
  match resource with
  | users =>
      let* cond := user_where filters in
      store_call ;;
      gets (fun s => UserRecord <$> page u_id cond skip (userTable s))
  | articles =>
      let* cond := article_where filters in
      store_call ;;
      gets (fun s =>
              (fun a => ArticleRecord a (find_user (a_authorId a) s))
                <$> page a_id cond skip (articleTable s))
  | comments =>
      let* cond := comment_where filters in
      store_call ;;
      gets (fun s =>
              (fun c => CommentRecord c (find_article (c_articleId c) s)
                          (find_user (c_authorId c) s))
                <$> page c_id cond skip (commentTable s))
  end.

(** [for await (const record of cursor) body]: the cursor fetches a page,
    yields its records, and goes on while the page was full. [rounds]
    bounds the number of pages. *)
Fixpoint for_each_record {S} (rounds : nat) (resource : ResourceType)
    (filters : obj) (skip : nat) (body : S -> CursorRecord -> M S) (st : S)
  : M S :=
  match rounds with
  | O => ret st
  | Datatypes.S rounds' =>
      let* records := fetch_page resource filters skip in
      let* st := foldM body records st in
      if (length records =? BATCH_SIZE)%nat
      then for_each_record rounds' resource filters (skip + BATCH_SIZE) body st
      else ret st
  end.

(** More pages than any table has. *)
Definition enough_rounds (s : Store) : nat :=
  Datatypes.S (length (userTable s) + length (articleTable s) + length (commentTable s)).

Definition append (path chunk : string) : M unit :=
  modify (upd_files (fun fsys =>
    <[path := default EmptyString (fsys !! path) +:+ chunk]> fsys)).

Definition newline : string := String "010" EmptyString.

(** The locals of the writing loops: [recordCount] and [first]. *)
Definition write_record (jobId : Z) (format : FormatType) (path : string)
    (fields : option (list string)) (st : Z * bool) (record : CursorRecord)
  : M (Z * bool) :=
  let '(recordCount, first) := st in
  let text := JSON_stringify (VObj (formatRecord record fields)) in
  (match format with
   | ndjson => append path (text +:+ newline)
   | json =>
       (if first then ret tt else append path ("," +:+ newline)) ;;
       append path text
   end) ;;
  let recordCount := (recordCount + 1)%Z in
  (if (recordCount mod 5000 =? 0)%Z
   then metricsTracker.updateProgress jobId recordCount 0
   else ret tt) ;;
  ret (recordCount, false).

(** The [try] block of [processExportJob]. *)
Definition export_to_file (jobId : Z) (job : ExportJob) : M unit :=
  let* t := now in
  let ext : string := match ej_format job with ndjson => "ndjson" | json => "json" end in
  let filePath := "exports/export-" +:+ pretty jobId +:+ "-" +:+ pretty t +:+ "." +:+ ext in
  fs.writeFile filePath EmptyString ;;
  let filters := default ∅ (ej_filters job) in
  let* rounds := gets enough_rounds in
  let* st :=
    match ej_format job with
    | ndjson =>
        for_each_record rounds (ej_resource job) filters 0
          (write_record jobId ndjson filePath (ej_fields job)) (0%Z, true)
    | json =>
        append filePath ("[" +:+ newline) ;;
        let* st := for_each_record rounds (ej_resource job) filters 0
                     (write_record jobId json filePath (ej_fields job)) (0%Z, true) in
        append filePath (newline +:+ "]") ;;
        ret st
    end in
  let downloadUrl := "/api/v1/exports/" +:+ pretty jobId +:+ "/download" in
  let* t := now in
  exportRepository.updateJobStatus jobId completed
    (exportRepository.mkStatusData None (Some t) (Some filePath) (Some downloadUrl)
       (Some st.1)) ;;
  metricsTracker.finishTracking jobId.

Definition processExportJob (jobId : Z) : M unit :=
  metricsTracker.startTracking jobId ;;
  let* t := now in
  let* job := exportRepository.updateJobStatus jobId processing
                (exportRepository.mkStatusData (Some t) None None None None) in
  try_catch (export_to_file jobId job)
    (fun error =>
       let* t := now in
       exportRepository.updateJobStatus jobId failed
         (exportRepository.mkStatusData None (Some t) None None None) ;;
       metricsTracker.finishTracking jobId ;;
       throw error).

End WithRuntime.
End exportProcessor.

(* ################################################################# *)
(** * importWorker.ts *)

Module importWorker.

Definition POLL_INTERVAL : Z := 5000.
Definition MAX_CONCURRENT_JOBS : nat := 3.

(** [findMany({ where: { status: 'pending', id: { notIn } }, take,
    orderBy: { createdAt: 'asc' } })] on a table of jobs; the ids of the
    rows found. *)
Definition findPending {J} (status_of : J -> Status) (createdAt : J -> Z)
    (jobs : gmap Z J) (notIn : list Z) (n : nat) : list Z :=
  (take n
     (merge_sort (ascending (fun kj => createdAt kj.2))
        (filter (fun kj => status_of kj.2 = pending /\ kj.1 ∉ notIn)
                (map_to_list jobs)))).*1.

(** Where [pollAndProcessJobs] stands: not running, or suspended at one of
    its two queries with the values it computed so far. *)
Inductive PollState : Type :=
| Idle
| AwaitImports (availableSlots : nat) (notIn : list Z)
| AwaitExports (availableSlots : nat) (pendingImports : list Z) (notIn : list Z).

(** A dispatched job whose promise has not settled. *)
Definition Task : Type := JobKind * Z.

Record Worker : Type := mkWorker {
  store : Store;
  isRunning : bool;
  activeJobs : gset Z;
  poll : PollState;
  tasks : list Task;
}.

(** [processImportJobAsync] / [processExportJobAsync], up to the call of
    the pipeline: the id joins the active set. *)
Definition dispatch (kind : JobKind) (w : Worker) (jobId : Z) : Worker :=
  mkWorker (store w) (isRunning w) ({[jobId]} ∪ activeJobs w) (poll w)
    (tasks w ++ [(kind, jobId)]).

(** The [finally] callback: the id leaves the active set. *)
Definition settle (t : Task) (w : Worker) : Worker :=
  mkWorker (store w) (isRunning w) (activeJobs w ∖ {[t.2]}) (poll w)
    (tasks w).

Fixpoint remove_task (t : Task) (l : list Task) : list Task :=
  match l with
  | [] => []
  | t' :: l' => if decide (t = t') then l' else t' :: remove_task t l'
  end.

Section WithRuntime.
Context `{RT : Runtime}.

(** The pipeline of a task, on the store. *)
Definition run_pipeline (t : Task) (s : Store) : Store :=
  match t.1 with
  | ImportKind => (importProcessor.processImportJob t.2 s).1
  | ExportKind => (exportProcessor.processExportJob t.2 s).1
  end.

(** The steps of the worker process. *)
Inductive step : Worker -> Worker -> Prop :=
(** [if (activeJobs.size >= MAX_CONCURRENT_JOBS) return] *)
| step_poll_full w :
    isRunning w = true -> poll w = Idle ->
    MAX_CONCURRENT_JOBS <= size (activeJobs w) ->
    step w w
(** the first query is sent *)
| step_poll_begin w :
    isRunning w = true -> poll w = Idle ->
    size (activeJobs w) < MAX_CONCURRENT_JOBS ->
    step w
      (mkWorker (store w) (isRunning w) (activeJobs w)
         (AwaitImports (MAX_CONCURRENT_JOBS - size (activeJobs w))
            (elements (activeJobs w)))
         (tasks w))
(** the first query answers, the second is sent *)
| step_imports w availableSlots notIn :
    poll w = AwaitImports availableSlots notIn ->
    step w
      (mkWorker (store w) (isRunning w) (activeJobs w)
         (AwaitExports availableSlots
            (findPending ij_status ij_createdAt (importJobs (store w)) notIn
               availableSlots)
            (elements (activeJobs w)))
         (tasks w))
(** the second query answers, the jobs found are dispatched *)
| step_exports w availableSlots pendingImports notIn :
    poll w = AwaitExports availableSlots pendingImports notIn ->
    let pendingExports :=
      findPending ej_status ej_createdAt (exportJobs (store w)) notIn
        (availableSlots - length pendingImports) in
    let w0 := mkWorker (store w) (isRunning w) (activeJobs w) Idle (tasks w) in
    step w
      (foldl (dispatch ExportKind) (foldl (dispatch ImportKind) w0 pendingImports)
         pendingExports)
(** a query fails: the poll cycle ends, the loop logs the error *)
| step_poll_error w :
    poll w <> Idle ->
    step w (mkWorker (store w) (isRunning w) (activeJobs w) Idle (tasks w))
(** a dispatched job runs and its promise settles *)
| step_run w t :
    t ∈ tasks w ->
    step w
      (settle t
         (mkWorker (run_pipeline t (store w)) (isRunning w) (activeJobs w)
            (poll w) (remove_task t (tasks w))))
(** [stopWorker] *)
| step_stop w :
    step w (mkWorker (store w) false (activeJobs w) (poll w) (tasks w))
(** anything else that happens to the store, the files or the network *)
| step_environment w store' :
    step w (mkWorker store' (isRunning w) (activeJobs w) (poll w) (tasks w)).

(** [startWorker]: nothing is active and no poll is under way. *)
Definition startWorker (s : Store) : Worker := mkWorker s true ∅ Idle [].

Inductive reachable : Worker -> Prop :=
| reachable_start s : reachable (startWorker s)
| reachable_step w w' : reachable w -> step w w' -> reachable w'.

End WithRuntime.
End importWorker.

(* ################################################################# *)
(** * Notions the statements use *)

Module Spec.

(** Kebab case, in the words of the specification: groups of characters
    separated by single hyphens. [ok] tells which characters a group may
    hold. *)
Definition group (ok : ascii -> bool) (g : list ascii) : Prop :=
  g <> [] /\ Forall (fun c => ok c = true) g.

Inductive kebab (ok : ascii -> bool) : list ascii -> Prop :=
| kebab_one g : group ok g -> kebab ok g
| kebab_more g l : group ok g -> kebab ok l -> kebab ok (g ++ "-"%char :: l).

(** Lower-case letters and digits only. *)
Definition lowercase_kebab (s : string) : Prop :=
  kebab (fun c => Str.is_lower c || Str.is_digit c) (Str.chars s).

(** Letters of either case and digits. *)
Definition anycase_kebab (s : string) : Prop :=
  kebab Str.is_alnum (Str.chars s).

Definition has_space (s : string) : Prop := " "%char ∈ Str.chars s.
Definition has_upper (s : string) : Prop :=
  Exists (fun c => Str.is_upper c = true) (Str.chars s).

Section WithRuntime.
Context `{RT : Runtime}.

(** A schema accepts a value. *)
Definition accepts (sc : Schemas.schema) (v : value) : bool :=
  match Schemas.schema_parse sc v with inr _ => true | inl _ => false end.

(** An article record that is in order but for its slug, which is [s]. *)
Definition article_with_slug (s : string) : value :=
  VObj (Js.literal [ ("slug", VStr s); ("title", VStr "Title");
                     ("body", VStr "Body"); ("author_id", VNum (NInt 1)) ]).

End WithRuntime.
(** The slug expression after its first group: hyphen-led groups. *)
Definition tail_regex : Regex.regex :=
  Regex.Star
    (Regex.Cat (Regex.Class (Regex.class_cs [("-", "-")]%char))
       (Regex.Plus (Regex.Class Schemas.slug_class))).

End Spec.

(** The columns the upserts of the import repository write, and the rows
    they leave. *)
Module Columns.

(** The columns a user upsert writes. *)
Record UserColumns : Type := mkUserColumns {
  uc_email : string; uc_username : string; uc_password : string;
  uc_role : string; uc_active : bool; uc_externalId : option string;
}.

Definition user_upsert_of (c : UserColumns) : M UserRow :=
  prisma.user_upsert (uc_email c) (uc_username c) (uc_password c) (uc_role c)
    (uc_active c) (uc_externalId c).

Definition written_user (c : UserColumns) (u : UserRow) : UserRow :=
  mkUser (u_id u) (u_email u) (uc_username c) (uc_password c) (Some (uc_role c))
    (Some (uc_active c)) (uc_externalId c) (u_createdAt u) (u_updatedAt u).

Record ArticleColumns : Type := mkArticleColumns {
  ac_slug : string; ac_title : string; ac_description : string;
  ac_body : string; ac_externalId : option string;
}.

Definition article_upsert_of (c : ArticleColumns) (authorId : Z) : M ArticleRow :=
  prisma.article_upsert (ac_slug c) (ac_title c) (ac_description c) (ac_body c)
    (ac_externalId c) authorId.

Definition written_article (c : ArticleColumns) (authorId : Z) (a : ArticleRow)
  : ArticleRow :=
  mkArticle (a_id a) (a_slug a) (ac_title c) (ac_description c) (ac_body c)
    (ac_externalId c) authorId (a_tagList a) (a_status a) (a_publishedAt a)
    (a_createdAt a).

(** [s'] is [s] but for the failure schedule. *)
Definition only_faults (s s' : Store) : Prop :=
  exists fs, s' = upd_faults (fun _ => fs) s.

End Columns.

(** Relations between the store before and after a computation. *)
Module Relations.

(** Every run of [m] takes a store to one that [R] relates to it. *)
Definition frame (R : relation Store) {A} (m : M A) : Prop :=
  forall s, R s (m s).1.

(** The bookkeeping of the import jobs is as it was; store calls that did
    not fail leave the schedule exhausted. *)
Definition same_jobs (s s' : Store) : Prop :=
  importJobs s' = importJobs s /\ importErrors s' = importErrors s /\
  statusLog s' = statusLog s /\ (faults s = [] -> faults s' = []).


(** The import errors are as they were. *)
Definition same_errors (s s' : Store) : Prop :=
  importErrors s' = importErrors s.

(** Import errors were added, each of them meeting [Q]; none was changed
    or removed. *)
Definition added_errors (Q : ImportError -> Prop) (s s' : Store) : Prop :=
  exists new, importErrors s' = importErrors s ++ new /\ Forall Q new.

(** Every run of [m] takes a store to one that [R] relates to it and,
    when it returns, returns a value that meets [post]. *)
Definition outcome (R : relation Store) {A} (post : A -> Prop) (m : M A) : Prop :=
  forall s, R s (m s).1 /\ forall a, (m s).2 = inr a -> post a.

End Relations.

(** Batches of the import processor. *)
Module Batches.
Import importProcessor.

(** No store failure and the job on record: what the loops of a batch
    keep true. *)
Definition ready (jobId : Z) (s : Store) : Prop :=
  faults s = [] /\ is_Some (importJobs s !! jobId).

(** The error row of a batch item. *)
Definition row_of_item (jobId : Z) (item : BatchItem) (e : ImportError) : Prop :=
  importJobId e = jobId /\ recordIndex e = item_recordIndex item /\
  recordData e = VObj (item_record item).


End Batches.

(** The records of a source and the import errors that report them. *)
Module Sources.
Import importProcessor.

Section WithRuntime.
Context `{RT : Runtime}.

Definition nonblank (line : string) : Prop := is_blank line = false.

#[global] Instance nonblank_dec line : Decision (nonblank line).
Proof. unfold nonblank. apply _. Defined.

(** The lines of a file that are not blank. *)
Definition nonblank_lines (content : string) : list string :=
  filter nonblank (fs.lines content).

(** The records of an NDJSON file: its lines that are not blank. *)
Definition ndjson_records (content : string) : list string :=
  nonblank_lines content.

(** The header cells of a CSV file, from its first line that is not
    blank, and its records: the lines after it that are not blank. *)
Definition csv_headers (content : string) : list string :=
  match nonblank_lines content with
  | header :: _ => csv_cells header
  | [] => []
  end.

Definition csv_records (content : string) : list string :=
  tail (nonblank_lines content).

(** What the CSV loop validates for a line. *)
Definition parse_csv_line (resource : ResourceType) (headers : list string)
    (line : string) : exn + obj :=
  validateRecord resource (VObj (csv_record headers (csv_cells line))).

(** The import error [e] of job [jobId] reports one of [records]: it
    carries the record's position plus [offset] as its index, and as its
    data the record as read ([raw]) or as validated ([parse]). *)
Definition reports {A} (raw : A -> value) (parse : A -> exn + obj)
    (records : list A) (offset : Z) (jobId : Z) (e : ImportError) : Prop :=
  exists (k : nat) (record : A),
    records !! k = Some record /\
    importJobId e = jobId /\
    recordIndex e = (Z.of_nat k + offset)%Z /\
    (recordData e = raw record \/
     exists v, parse record = inr v /\ recordData e = VObj v).

(** A batch item that holds one of [records], validated, with the
    record's position plus [offset] as its index. *)
Definition item_of {A} (parse : A -> exn + obj) (records : list A) (offset : Z)
    (item : BatchItem) : Prop :=
  exists (k : nat) (record : A),
    records !! k = Some record /\
    item_recordIndex item = (Z.of_nat k + offset)%Z /\
    parse record = inr (item_record item).

(** What the loops over a source keep true after [k] of its lines (or
    of its array elements): the index counts the lines read that are not
    blank, and the batch holds records of the source. *)
Definition ndjson_inv (resource : ResourceType) (content : string) (k : nat)
    (st : Locals) : Prop :=
  l_recordIndex st
  = Z.of_nat (length (filter nonblank (take k (fs.lines content)))) /\
  Forall (item_of (parse_line resource) (ndjson_records content) 0) (l_batch st).

Definition csv_inv (resource : ResourceType) (content : string) (k : nat)
    (st : Locals) : Prop :=
  let m := length (filter nonblank (take k (fs.lines content))) in
  l_recordIndex st = Z.of_nat m /\
  (m <> 0 -> l_headers st = csv_headers content) /\
  Forall (item_of (parse_csv_line resource (csv_headers content))
            (csv_records content) 1) (l_batch st).

Definition json_inv (resource : ResourceType) (records : list value) (k : nat)
    (st : Locals) : Prop :=
  l_recordIndex st = Z.of_nat k /\
  Forall (item_of (validateRecord resource) records 0) (l_batch st).

End WithRuntime.
End Sources.

(** The counters of an import job against the records of its source. *)
Module Tally.
Import importProcessor Batches.

(** The record fails [parse]: it is structurally invalid. *)
Definition invalid {A} (parse : A -> exn + obj) (record : A) : Prop :=
  match parse record with inl _ => True | inr _ => False end.

#[global] Instance invalid_dec {A} (parse : A -> exn + obj) record :
  Decision (invalid parse record).
Proof. unfold invalid. destruct (parse record); apply _. Defined.

(** The import error [e] holds, as read, a record that is invalid. *)
Definition invalid_row {A} (raw : A -> value) (parse : A -> exn + obj)
    (records : list A) (jobId : Z) (e : ImportError) : Prop :=
  importJobId e = jobId /\
  exists record, record ∈ records /\ invalid parse record /\ recordData e = raw record.

(** The batch item holds one of [records], validated. *)
Definition valid_item {A} (parse : A -> exn + obj) (records : list A)
    (item : BatchItem) : Prop :=
  exists record, record ∈ records /\ parse record = inr (item_record item).

(** The import error [e] holds, as validated, a record that is valid: its
    upsert failed. *)
Definition upsert_row {A} (parse : A -> exn + obj) (records : list A)
    (jobId : Z) (e : ImportError) : Prop :=
  exists item, valid_item parse records item /\ row_of_item jobId item e.

(** The import errors added to those of [s0] are [rejected], which hold
    invalid records, and [failed], which hold valid ones, in some
    order. *)
Definition errors_split {A} (raw : A -> value) (parse : A -> exn + obj)
    (records : list A) (jobId : Z) (s0 s : Store)
    (rejected failed : list ImportError) : Prop :=
  (exists new, importErrors s = importErrors s0 ++ new /\ new ≡ₚ rejected ++ failed) /\
  Forall (invalid_row raw parse records jobId) rejected /\
  Forall (upsert_row parse records jobId) failed.

(** What the file loops keep true with no store failure, after [n]
    records of which [e] were invalid: every record is a success, an error
    or in the batch; every error has its row. *)
Definition counted {A} (raw : A -> value) (parse : A -> exn + obj)
    (records : list A) (jobId : Z) (total : Z) (s0 : Store) (n e : nat)
    (st : Locals) (s : Store) : Prop :=
  faults s = [] /\
  (exists job, importJobs s !! jobId = Some job /\ ij_totalRecords job = total) /\
  (l_successCount st + l_errorCount st + Z.of_nat (length (l_batch st))
   = Z.of_nat n)%Z /\
  (0 <= l_successCount st)%Z /\
  (length (l_batch st) < BATCH_SIZE)%nat /\
  Forall (valid_item parse records) (l_batch st) /\
  exists rejected failed,
    errors_split raw parse records jobId s0 s rejected failed /\
    length rejected = e /\
    l_errorCount st = Z.of_nat (length rejected + length failed).

(** The run [run] of a file loop from [s] returned, and the job's counters
    are those of [records]: [total] records in all, each one a success or
    an error, the errors being the invalid records and the valid records
    whose upsert failed, each with its import error. *)
Definition tallied {A} (raw : A -> value) (parse : A -> exn + obj)
    (records : list A) (jobId : Z) (total : Z) (s : Store)
    (run : Store * (exn + unit)) : Prop :=
  run.2 = inr tt /\ faults run.1 = [] /\
  exists job' rejected failed,
    importJobs run.1 !! jobId = Some job' /\
    ij_totalRecords job' = total /\
    (ij_successCount job' + ij_errorCount job' = Z.of_nat (length records))%Z /\
    (0 <= ij_successCount job')%Z /\
    ij_errorCount job' = Z.of_nat (length rejected + length failed) /\
    length rejected = length (filter (invalid parse) records) /\
    errors_split raw parse records jobId s run.1 rejected failed.

End Tally.

(** The errors of the source of an import job. *)
Module SourceErrors.
Import importProcessor.

Section WithRuntime.
Context `{RT : Runtime}.

(** The path names a file to download. *)
Definition remote (filePath : string) : bool :=
  Str.startsWith filePath "http://" || Str.startsWith filePath "https://".

(** What is wrong with the content of the file at [path], if anything: a
    file that is neither NDJSON nor CSV has to hold a JSON array. *)
Definition content_error (path content : string) : option exn :=
  if Str.endsWith path ".ndjson" then None
  else if Str.endsWith path ".csv" then None
  else match JSON_parse content with
       | inl msg => Some (Error "SyntaxError" msg)
       | inr (VArr _) => None
       | inr _ => Some (Error "Error" "JSON must be an array")
       end.

(** The error of the source of [job] in the store [s], if it has one: no
    path, a download that fails, no file, or a content that is no JSON
    array. *)
Definition source_error (job : ImportJob) (s : Store) : option exn :=
  match ij_filePath job with
  | None => Some (Error "Error" "No file path")
  | Some filePath =>
      if String.eqb filePath EmptyString then Some (Error "Error" "No file path")
      else if remote filePath then
        match web s !! filePath with
        | Some (Response statusCode body) =>
            if (statusCode =? 200)%Z
            then content_error (download_path filePath (clock s)) body
            else Some (Error "Error"
                         ("Failed to download: HTTP " +:+ pretty statusCode))
        | Some (NetworkError err) => Some err
        | None => Some (Error "Error" "getaddrinfo ENOTFOUND")
        end
      else
        match files s !! filePath with
        | None => Some (Error "Error" "File not found")
        | Some content => content_error filePath content
        end
  end.

(** The job ended with [status] and a completion time. *)
Definition ended (jobId : Z) (status : Status) (s : Store) : Prop :=
  exists job t,
    importJobs s !! jobId = Some job /\ ij_status job = status /\
    ij_completedAt job = Some t.

(** No record was processed between [s] and [s']: the tables, the import
    errors and the job's counters are as they were. *)
Definition unprocessed (jobId : Z) (s s' : Store) : Prop :=
  userTable s' = userTable s /\ articleTable s' = articleTable s /\
  commentTable s' = commentTable s /\ importErrors s' = importErrors s /\
  (fun j => (ij_totalRecords j, ij_successCount j, ij_errorCount j))
    <$> importJobs s' !! jobId
  = (fun j => (ij_totalRecords j, ij_successCount j, ij_errorCount j))
      <$> importJobs s !! jobId.

End WithRuntime.
End SourceErrors.

(** The queries of the worker's poll cycle. *)
Module Polling.
Import importWorker.

(** A job the query may return: on record under [id], pending, and not
    excluded. *)
Definition eligible {J} (status_of : J -> Status) (jobs : gmap Z J)
    (notIn : list Z) (id : Z) (j : J) : Prop :=
  jobs !! id = Some j /\ status_of j = pending /\ id ∉ notIn.

(** [found] are the ids of at most [n] eligible jobs, in ascending order
    of creation, and no eligible job is left out while there is room or
    for a job created later. *)
Definition earliest {J} (status_of : J -> Status) (createdAt : J -> Z)
    (jobs : gmap Z J) (notIn : list Z) (n : nat) (found : list Z) : Prop :=
  length found <= n /\
  exists rows : list (Z * J),
    found = rows.*1 /\
    Forall (fun kj => eligible status_of jobs notIn kj.1 kj.2) rows /\
    StronglySorted (ascending (fun kj => createdAt kj.2)) rows /\
    forall id j,
      eligible status_of jobs notIn id j -> id ∉ found ->
      length found = n /\
      Forall (fun kj => (createdAt kj.2 <= createdAt j)%Z) rows.

(** What holds of the worker between the steps of a poll cycle: the slots
    computed at its start are still free, the first query returned no more
    jobs than that, and the ids excluded cover the active set. *)
Definition cycle_inv (w : Worker) : Prop :=
  size (activeJobs w) <= MAX_CONCURRENT_JOBS /\
  match poll w with
  | Idle => True
  | AwaitImports availableSlots notIn =>
      availableSlots + size (activeJobs w) <= MAX_CONCURRENT_JOBS /\
      (forall id, id ∈ activeJobs w -> id ∈ notIn)
  | AwaitExports availableSlots pendingImports notIn =>
      availableSlots + size (activeJobs w) <= MAX_CONCURRENT_JOBS /\
      length pendingImports <= availableSlots /\
      (forall id, id ∈ activeJobs w -> id ∈ notIn)
  end.

End Polling.

(** The history of a job's status. *)
Module Transitions.

(** The transitions of the state machine of a job. *)
Definition allowed (before after : Status) : bool :=
  match before, after with
  | pending, processing | processing, completed | processing, failed => true
  | _, _ => false
  end.

(** The status writes of a job that goes through the statuses of [path],
    one after the other. *)
Fixpoint writes (kind : JobKind) (jobId : Z) (path : list Status)
  : list StatusWrite :=
  match path with
  | before :: (after :: _) as rest =>
      mkWrite kind jobId before after :: writes kind jobId rest
  | _ => []
  end.

(** Every step of [path] is a transition of the state machine. *)
Fixpoint monotone (path : list Status) : bool :=
  match path with
  | before :: (after :: _) as rest => allowed before after && monotone rest
  | _ => true
  end.

(** The paths of a job through [processImportJob], from [processing] on
    and from [pending] on, and through [processExportJob]. *)
Definition import_tails : list (list Status) :=
  [ [processing]; [processing; completed]; [processing; failed];
    [processing; completed; failed] ].

Definition import_paths : list (list Status) :=
  [ [pending]; [pending; processing]; [pending; processing; completed];
    [pending; processing; failed]; [pending; processing; completed; failed] ].

Definition export_paths : list (list Status) :=
  [ [pending]; [pending; processing]; [pending; processing; completed];
    [pending; processing; failed] ].

(** Between [s] and [s'] the status of the job was written along
    [path], and no other status was written. *)
Definition logged (kind : JobKind) (jobId : Z) (s s' : Store)
    (path : list Status) : Prop :=
  statusLog s' = statusLog s ++ writes kind jobId path.

(** No status was written between [s] and [s'], and the import jobs have
    the statuses they had. *)
Definition import_quiet (s s' : Store) : Prop :=
  statusLog s' = statusLog s /\
  forall id, ij_status <$> importJobs s' !! id = ij_status <$> importJobs s !! id.

(** The same for the export jobs. *)
Definition export_quiet (s s' : Store) : Prop :=
  statusLog s' = statusLog s /\
  forall id, ej_status <$> exportJobs s' !! id = ej_status <$> exportJobs s !! id.

End Transitions.

(* ################################################################# *)
(** * A runtime for the examples *)

Module Sample.

Definition all_digits (s : string) : bool :=
  negb (String.eqb s EmptyString) && forallb Str.is_digit (Str.chars s).

(** [JSON.parse] on the texts the examples use, as a table. *)
Definition json_texts : list (string * value) :=
  [ ("[]"%string, VArr []);
    ("{}"%string, VObj ∅);
    ("null"%string, VNull);
    ("[null]"%string, VArr [VNull]) ].

Definition runtime : Runtime := {|
  JSON_parse s :=
    match List.find (fun kv => String.eqb kv.1 s) json_texts with
    | Some kv => inr kv.2
    | None => inl "Unexpected token in JSON"%string
    end;
  JSON_stringify v := "{}"%string;
  Number s := if all_digits s then NInt <$> Str.parseInt s else None;
  toISOString t := pretty t;
  isEmail s := Str.includes s "@";
  zodMessage code := "Invalid input"%string;
|}.

(** An empty store with nothing scheduled to fail. *)
Definition empty_store : Store :=
  mkStore [] [] [] 1 1 1 ∅ ∅ [] ∅ ∅ 0 [] ∅ [].

(** A user with the external identifier [u-7]. *)
Definition ann : obj :=
  Js.literal [ ("id", VStr "u-7"); ("email", VStr "ann@example.org");
               ("name", VStr "Ann Lee") ].

(** A store that holds Ann as user 1. *)
Definition store_with_ann : Store :=
  (importRepository.upsertUser ann empty_store).1.

(** An article of Ann, with the external identifier [a-3]. *)
Definition essay : obj :=
  Js.literal [ ("id", VStr "a-3"); ("slug", VStr "on-tests");
               ("title", VStr "On tests"); ("body", VStr "Body");
               ("author_id", VStr "u-7") ].

(** A store that holds Ann and her article. *)
Definition store_with_essay : Store :=
  (importRepository.upsertArticle essay store_with_ann).1.

(** A comment of Ann on her article. *)
Definition remark : obj :=
  Js.literal [ ("article_id", VStr "a-3"); ("user_id", VStr "u-7");
               ("body", VStr "Well said") ].

(** An import job of comments, at work, with 5 successes and 2 errors
    counted so far. *)
Definition comments_job : ImportJob :=
  mkImportJob "key-1" comments processing 0 5 2 0 (Some "uploads/c.ndjson")
    (Some 0%Z) None 0.

(** The store with Ann, her article and import job 1. *)
Definition store_with_job : Store :=
  upd_importJobs (fun _ => {[ 1%Z := comments_job ]}) store_with_essay.

(** A comment on the article [a-3], or on the unknown article [a-404]. *)
Definition comment_on (article : string) (body : string) : obj :=
  Js.literal [ ("article_id", VStr article); ("user_id", VStr "u-7");
               ("body", VStr body) ].

Definition nl : string := String "010" EmptyString.

(** An NDJSON file of two records with a blank line between them; neither
    record is a user. *)
Definition ndjson_file : string := "{}" +:+ nl +:+ nl +:+ "null" +:+ nl.

(** A CSV file: the header, a blank line, and one record whose email is
    none. *)
Definition csv_file : string :=
  "email,name" +:+ nl +:+ nl +:+ "bad,Bob" +:+ nl.

(** A JSON file: an array of one record, [null]. *)
Definition json_file : string := "[null]".

(** An import job of users, not yet picked up. *)
Definition users_job (path : string) : ImportJob :=
  mkImportJob "key-2" users pending 0 0 0 0 (Some path) None None 0.

(** A store with one of the files above and import job 1 for it. *)
Definition store_with_file (path content : string) : Store :=
  upd_files (fun _ => {[ path := content ]})
    (upd_importJobs (fun _ => {[ 1%Z := users_job path ]}) empty_store).

(** A CSV file of one comment, on an article that does not exist. *)
Definition orphan_csv : string :=
  "article_id,user_id,body" +:+ nl +:+ "a-404,1,hello" +:+ nl.

(** A store with a file of comments and import job 1 for it. *)
Definition store_with_comments_file (path content : string) : Store :=
  upd_files (fun _ => {[ path := content ]})
    (upd_importJobs
       (fun _ => {[ 1%Z := mkImportJob "key-3" comments pending 0 0 0 0
                              (Some path) None None 0 ]})
       store_with_essay).

(** Ten comments; the one at index 4 refers to an article that does not
    exist. *)
Definition ten_comments : list importProcessor.BatchItem :=
  [ importProcessor.mkItem 0 (comment_on "a-3" "c0");
    importProcessor.mkItem 1 (comment_on "a-3" "c1");
    importProcessor.mkItem 2 (comment_on "a-3" "c2");
    importProcessor.mkItem 3 (comment_on "a-3" "c3");
    importProcessor.mkItem 4 (comment_on "a-404" "c4");
    importProcessor.mkItem 5 (comment_on "a-3" "c5");
    importProcessor.mkItem 6 (comment_on "a-3" "c6");
    importProcessor.mkItem 7 (comment_on "a-3" "c7");
    importProcessor.mkItem 8 (comment_on "a-3" "c8");
    importProcessor.mkItem 9 (comment_on "a-3" "c9") ].

(** The store of the NDJSON file and its job, where the sixth call of
    the store fails: the read of the job after its last status write. *)
Definition failing_at_last_read : Store :=
  upd_faults (fun _ => [false; false; false; false; false; true])
    (store_with_file "u.ndjson" ndjson_file).

(** Five import jobs, all pending, created one after the other. *)
Definition five_pending : Store :=
  upd_importJobs
    (fun _ => list_to_map
       [ (1%Z, mkImportJob "k1" users pending 0 0 0 0 (Some "a.json") None None 10);
         (2%Z, mkImportJob "k2" users pending 0 0 0 0 (Some "b.json") None None 20);
         (3%Z, mkImportJob "k3" users pending 0 0 0 0 (Some "c.json") None None 30);
         (4%Z, mkImportJob "k4" users pending 0 0 0 0 (Some "d.json") None None 40);
         (5%Z, mkImportJob "k5" users pending 0 0 0 0 (Some "e.json") None None 50) ])
    empty_store.

(** The worker after its first poll cycle over the five jobs. *)
Definition after_first_poll : importWorker.Worker :=
  let w0 := importWorker.startWorker five_pending in
  let pendingImports :=
    importWorker.findPending ij_status ij_createdAt (importJobs five_pending) [] 3 in
  let pendingExports :=
    importWorker.findPending ej_status ej_createdAt (exportJobs five_pending) []
      (3 - length pendingImports) in
  foldl (importWorker.dispatch ExportKind)
    (foldl (importWorker.dispatch ImportKind) w0 pendingImports) pendingExports.

End Sample.

(* ################################################################# *)
(** * What an export holds *)

Module Cursors.
Import exportProcessor.

(** The rows of a table that meet [cond], in ascending order of id: what
    the pages of a cursor hold together. *)
Definition rows {R} (id_of : R -> Z) (cond : R -> bool) (table : list R)
  : list R :=
  merge_sort (ascending id_of) (filter (fun r => cond r = true) table).

(** The records the cursor of a resource yields in the store [s], with
    the relations the query includes, or the error of its [where]
    clause. *)
Definition selected (resource : ResourceType) (filters : obj) (s : Store)
  : exn + list CursorRecord :=
  match resource with
  | users =>
      match (user_where filters s).2 with
      | inl e => inl e
      | inr cond => inr (UserRecord <$> rows u_id cond (userTable s))
      end
  | articles =>
      match (article_where filters s).2 with
      | inl e => inl e
      | inr cond =>
          inr ((fun a => ArticleRecord a (find_user (a_authorId a) s))
                 <$> rows a_id cond (articleTable s))
      end
  | comments =>
      match (comment_where filters s).2 with
      | inl e => inl e
      | inr cond =>
          inr ((fun c => CommentRecord c (find_article (c_articleId c) s)
                           (find_user (c_authorId c) s))
                 <$> rows c_id cond (commentTable s))
      end
  end.

(** The data tables are as they were, and a store that did not fail
    still does not. *)
Definition same_tables (s s' : Store) : Prop :=
  userTable s' = userTable s /\ articleTable s' = articleTable s /\
  commentTable s' = commentTable s /\ (faults s = [] -> faults s' = []).

(** Nothing but the files and the metrics changed. *)
Definition kept (s s' : Store) : Prop :=
  userTable s' = userTable s /\ articleTable s' = articleTable s /\
  commentTable s' = commentTable s /\ exportJobs s' = exportJobs s /\
  importJobs s' = importJobs s /\ importErrors s' = importErrors s /\
  faults s' = faults s /\ clock s' = clock s /\ statusLog s' = statusLog s.

Section WithRuntime.
Context `{RT : Runtime}.

(** The text of a record in an export. *)
Definition record_text (fields : option (list string)) (record : CursorRecord)
  : string :=
  JSON_stringify (VObj (formatRecord record fields)).

Fixpoint join (sep : string) (texts : list string) : string :=
  match texts with
  | [] => EmptyString
  | [t] => t
  | t :: rest => t +:+ sep +:+ join sep rest
  end.

(** An NDJSON export: every record on a line of its own. *)
Definition ndjson_text (fields : option (list string))
    (records : list CursorRecord) : string :=
  foldr (fun record text => record_text fields record +:+ newline +:+ text)
    EmptyString records.

(** A JSON export: the records between brackets, separated by a comma at
    a line end. *)
Definition json_text (fields : option (list string))
    (records : list CursorRecord) : string :=
  "[" +:+ newline +:+ join ("," +:+ newline) (map (record_text fields) records)
  +:+ newline +:+ "]".

Definition export_text (format : FormatType) (fields : option (list string))
    (records : list CursorRecord) : string :=
  match format with
  | ndjson => ndjson_text fields records
  | json => json_text fields records
  end.

(** The records of a JSON export after its opening bracket, as the loop
    writes them: a comma at a line end before every record but the
    first. *)
Fixpoint json_items (fields : option (list string)) (first : bool)
    (records : list CursorRecord) : string :=
  match records with
  | [] => EmptyString
  | record :: rest =>
      (if first then EmptyString else "," +:+ newline)
      +:+ record_text fields record +:+ json_items fields false rest
  end.

(** What the loop over the records appends to the file. *)
Definition written (format : FormatType) (fields : option (list string))
    (first : bool) (records : list CursorRecord) : string :=
  match format with
  | ndjson => ndjson_text fields records
  | json => json_items fields first records
  end.

(** [path.join('exports', `export-${jobId}-${Date.now()}.${job.format}`)] *)
Definition export_path (jobId : Z) (t : Z) (format : FormatType) : string :=
  "exports/export-" +:+ pretty jobId +:+ "-" +:+ pretty t +:+ "."
  +:+ match format with ndjson => "ndjson" | json => "json" end.

(** The state an export that went through leaves: the file holds the
    records, the job row is completed and points at the file, the data
    tables are as they were and the metrics of the job are gone. *)
Definition exported (jobId : Z) (job : ExportJob) (records : list CursorRecord)
    (s s' : Store) : Prop :=
  let path := export_path jobId (clock s) (ej_format job) in
  files s'
  = <[path := export_text (ej_format job) (ej_fields job) records]> (files s) /\
  (exists job',
      exportJobs s' = <[jobId := job']> (exportJobs s) /\
      ej_status job' = completed /\
      ej_totalRecords job' = Z.of_nat (length records) /\
      ej_filePath job' = Some path /\
      ej_downloadUrl job'
      = Some ("/api/v1/exports/" +:+ pretty jobId +:+ "/download") /\
      ej_startedAt job' = Some (clock s) /\
      ej_completedAt job' = Some (clock s) /\
      ej_resource job' = ej_resource job /\ ej_format job' = ej_format job /\
      ej_filters job' = ej_filters job /\ ej_fields job' = ej_fields job) /\
  same_tables s s' /\ metrics s' !! jobId = None.

(** The state an export leaves when the query of its cursor is refused:
    the file holds what was written before the first page, the job row
    is failed and names no file, the data tables are as they were and the
    metrics of the job are gone. *)
Definition export_failed (jobId : Z) (job : ExportJob) (s s' : Store) : Prop :=
  let path := export_path jobId (clock s) (ej_format job) in
  files s'
  = <[path := match ej_format job with
              | ndjson => EmptyString
              | json => "[" +:+ newline
              end]> (files s) /\
  (exists job',
      exportJobs s' = <[jobId := job']> (exportJobs s) /\
      ej_status job' = failed /\
      ej_startedAt job' = Some (clock s) /\
      ej_completedAt job' = Some (clock s) /\
      ej_filePath job' = ej_filePath job /\
      ej_downloadUrl job' = ej_downloadUrl job /\
      ej_totalRecords job' = ej_totalRecords job) /\
  same_tables s s' /\ metrics s' !! jobId = None.

End WithRuntime.

(** All that an export of the job [jobId] may not touch: the data
    tables, the import jobs and their errors, and the other export
    jobs. *)
Definition elsewhere (jobId : Z) (s s' : Store) : Prop :=
  userTable s' = userTable s /\ articleTable s' = articleTable s /\
  commentTable s' = commentTable s /\ importJobs s' = importJobs s /\
  importErrors s' = importErrors s /\
  forall id, id <> jobId -> exportJobs s' !! id = exportJobs s !! id.

End Cursors.

(* ################################################################# *)
(** * Stores for the examples of the exports *)

Module Examples.

(** An export job of the users, as a JSON array, not yet picked up. *)
Definition users_export (format : FormatType) (filters : option obj) : ExportJob :=
  mkExportJob "key-9" users format pending 0 None None filters None None None 0.

(** The store with Ann and her article, and export job 1. *)
Definition store_with_export (format : FormatType) (filters : option obj) : Store :=
  upd_exportJobs (fun _ => {[ 1%Z := users_export format filters ]})
    Sample.store_with_essay.

(** Ann's row, as the import wrote it. *)
Definition ann_row : UserRow :=
  mkUser 1 "ann@example.org" "annlee" "imported-user-change-me" (Some "reader")
    (Some true) (Some "u-7") None None.

End Examples.

(* ################################################################# *)
(** * Properties *)

(** ** The matcher decides the language of an expression *)

Module RegexFacts.
Import Regex.

Lemma lang_cat_inv r1 r2 l :
  lang (Cat r1 r2) l -> exists l1 l2, l = l1 ++ l2 /\ lang r1 l1 /\ lang r2 l2.
Proof. inversion 1; subst; eauto. Qed.

Lemma lang_alt_inv r1 r2 l : lang (Alt r1 r2) l -> lang r1 l \/ lang r2 l.
Proof. inversion 1; subst; eauto. Qed.

Lemma lang_class_inv p l : lang (Class p) l -> exists c, l = [c] /\ p c = true.
Proof. inversion 1; subst; eauto. Qed.

Lemma lang_eps_inv l : lang Eps l -> l = [].
Proof. by inversion 1. Qed.

Lemma lang_void_inv l : ~ lang Void l.
Proof. inversion 1. Qed.

Lemma nullable_lang r : nullable r = true <-> lang r [].
Proof.
  induction r as [| |p|r1 IH1 r2 IH2|r1 IH1 r2 IH2|r IH]; simpl.
  - split; [done | by intros ?%lang_void_inv].
  - split; [constructor | done].
  - split; [done | by intros (c & ? & _)%lang_class_inv].
  - rewrite andb_true_iff, IH1, IH2. split.
    + intros [H1 H2]. by apply (lang_cat _ _ [] []).
    + intros (l1 & l2 & Heq & H1 & H2)%lang_cat_inv.
      symmetry in Heq. apply app_eq_nil in Heq as [-> ->]. done.
  - rewrite orb_true_iff, IH1, IH2. split.
    + intros [H | H]; [by apply lang_alt_l | by apply lang_alt_r].
    + apply lang_alt_inv.
  - split; [constructor | done].
Qed.

(** A non-empty word of an iteration starts with a non-empty word of its
    body. *)
Lemma lang_star_cons_inv r c l :
  lang (Star r) (c :: l) ->
  exists l1 l2, l = l1 ++ l2 /\ lang r (c :: l1) /\ lang (Star r) l2.
Proof.
  intros H. remember (Star r) as r' eqn:Hr. remember (c :: l) as w eqn:Hw.
  revert c l Hw. induction H as [| | | | | |r0 l1 l2 H1 _ H2 IH2]; try done.
  injection Hr as ->. intros c l Hw.
  destruct l1 as [|c1 l1]; simpl in Hw.
  - by apply IH2.
  - injection Hw as -> <-. by exists l1, l2.
Qed.

Lemma deriv_cat_lang c r1 r2 l :
  (forall l, lang (deriv c r1) l <-> lang r1 (c :: l)) ->
  lang (Cat (deriv c r1) r2) l <->
  exists l1 l2, l = l1 ++ l2 /\ lang r1 (c :: l1) /\ lang r2 l2.
Proof.
  intros IH. split.
  - intros (l1 & l2 & -> & H1 & H2)%lang_cat_inv. exists l1, l2. by rewrite <-IH.
  - intros (l1 & l2 & -> & H1 & H2). constructor; [by apply IH | done].
Qed.

Lemma deriv_lang c r l : lang (deriv c r) l <-> lang r (c :: l).
Proof.
  revert l.
  induction r as [| |p|r1 IH1 r2 IH2|r1 IH1 r2 IH2|r IH]; intros l; simpl.
  - split; by intros ?%lang_void_inv.
  - split; [by intros ?%lang_void_inv | by intros ?%lang_eps_inv].
  - destruct (p c) eqn:Hp.
    + split.
      * intros ->%lang_eps_inv. by constructor.
      * intros (c' & [= ? ?] & _)%lang_class_inv. subst. constructor.
    + split; [by intros ?%lang_void_inv |].
      intros (c' & [= ? ?] & ?)%lang_class_inv. subst. congruence.
  - pose proof (deriv_cat_lang c r1 r2 l IH1) as Hcat.
    destruct (nullable r1) eqn:Hn.
    + split.
      * intros [HL | HR]%lang_alt_inv.
        -- apply Hcat in HL as (l1 & l2 & -> & H1 & H2).
           by apply (lang_cat _ _ (c :: l1) l2).
        -- apply IH2 in HR. apply nullable_lang in Hn.
           by apply (lang_cat _ _ [] (c :: l)).
      * intros (l1 & l2 & Heq & H1 & H2)%lang_cat_inv.
        destruct l1 as [|c1 l1]; simpl in Heq; subst.
        -- apply lang_alt_r. by apply IH2.
        -- injection Heq as <- ->. apply lang_alt_l, Hcat. by exists l1, l2.
    + rewrite Hcat. split.
      * intros (l1 & l2 & -> & H1 & H2). by apply (lang_cat _ _ (c :: l1) l2).
      * intros (l1 & l2 & Heq & H1 & H2)%lang_cat_inv.
        destruct l1 as [|c1 l1]; simpl in Heq; subst.
        -- apply nullable_lang in H1. congruence.
        -- injection Heq as <- ->. by exists l1, l2.
  - split.
    + intros [H | H]%lang_alt_inv; [apply lang_alt_l, IH1 | apply lang_alt_r, IH2]; done.
    + intros [H | H]%lang_alt_inv; [apply lang_alt_l, IH1 | apply lang_alt_r, IH2]; done.
  - split.
    + intros (l1 & l2 & -> & H1 & H2)%lang_cat_inv.
      apply IH in H1. by apply (lang_star_cons _ (c :: l1) l2).
    + intros H. apply lang_star_cons_inv in H as (l1 & l2 & -> & H1 & H2).
      constructor; [by apply IH | done].
Qed.

Lemma matches_lang r l : matches r l = true <-> lang r l.
Proof.
  revert r. induction l as [|c l IH]; intros r; simpl.
  - apply nullable_lang.
  - by rewrite IH, deriv_lang.
Qed.

End RegexFacts.

(** ** C4: the slug rule of the article schema *)

Module SlugFacts.
Import Regex RegexFacts Spec Schemas.

Lemma slug_class_alnum c : slug_class c = Str.is_alnum c.
Proof. destruct c as [[] [] [] [] [] [] [] []]; vm_compute; reflexivity. Qed.

Lemma hyphen_class c : class_cs [("-", "-")]%char c = true <-> c = "-"%char.
Proof.
  destruct c as [[] [] [] [] [] [] [] []]; vm_compute; split; congruence.
Qed.

Lemma hyphen_not_alnum : Str.is_alnum "-" = false.
Proof. reflexivity. Qed.

Lemma lang_star_class p l :
  lang (Star (Class p)) l <-> Forall (fun c => p c = true) l.
Proof.
  split.
  - intros H. remember (Star (Class p)) as r eqn:Hr.
    induction H as [| | | | | |r0 l1 l2 H1 _ _ IH2]; try done.
    injection Hr as ->. apply lang_class_inv in H1 as (c & -> & Hc).
    constructor; [done | by apply IH2].
  - induction 1 as [|c l Hc _ IH]; [constructor |].
    apply (lang_star_cons _ [c] l); [by constructor | done].
Qed.

Lemma lang_plus_class p g : lang (Plus (Class p)) g <-> group p g.
Proof.
  unfold Plus, group. split.
  - intros (l1 & l2 & -> & (c & -> & Hc)%lang_class_inv & H2%lang_star_class)%lang_cat_inv.
    split; [done | by constructor].
  - intros [Hne Hall]. destruct g as [|c g]; [done |].
    apply Forall_cons in Hall as [Hc Hall].
    apply (lang_cat _ _ [c] g); [by constructor | by apply lang_star_class].
Qed.

Lemma group_ext p q g : (forall c, p c = q c) -> group p g -> group q g.
Proof.
  intros Hpq [Hne Hall]. split; [done |].
  eapply Forall_impl; [done |]. intros c Hc. simpl in *. by rewrite <-Hpq.
Qed.

(** A group followed by hyphen-led groups is kebab case, and conversely. *)
Lemma kebab_of_tail g rest :
  group Str.is_alnum g -> lang tail_regex rest -> kebab Str.is_alnum (g ++ rest).
Proof.
  intros Hg H. remember tail_regex as r eqn:Hr. revert g Hg.
  induction H as [| | | | | |r0 l1 l2 H1 _ _ IH2]; try done; intros g Hg.
  - rewrite app_nil_r. by constructor.
  - injection Hr as ->.
    apply lang_cat_inv in H1 as (h & g' & -> & Hh & Hg').
    apply lang_class_inv in Hh as (c & -> & ->%hyphen_class).
    apply lang_plus_class in Hg'.
    apply (group_ext _ Str.is_alnum) in Hg'; [| apply slug_class_alnum].
    simpl. apply kebab_more; [done |]. by apply IH2.
Qed.

Lemma tail_of_kebab l :
  kebab Str.is_alnum l ->
  exists g rest, l = g ++ rest /\ group Str.is_alnum g /\ lang tail_regex rest.
Proof.
  induction 1 as [g Hg|g l Hg _ (g' & rest & -> & Hg' & Hrest)].
  - exists g, []. rewrite app_nil_r. split_and!; [done.. | constructor].
  - exists g, (("-"%char :: g') ++ rest). split_and!; [done.. |].
    constructor; [| done].
    apply (lang_cat _ _ ["-"%char] g').
    + constructor. by apply hyphen_class.
    + apply lang_plus_class. eapply group_ext; [| done].
      intros c. by rewrite slug_class_alnum.
Qed.

(** The expression of the schema accepts the kebab-case words over
    letters of either case and digits. *)
Lemma slug_regex_kebab s : Regex.test slug_regex s = true <-> anycase_kebab s.
Proof.
  unfold Regex.test, anycase_kebab. rewrite matches_lang. split.
  - intros (g & rest & -> & Hg & Hrest)%lang_cat_inv.
    apply kebab_of_tail; [| done].
    apply lang_plus_class in Hg. eapply group_ext; [| done]. apply slug_class_alnum.
  - intros (g & rest & -> & Hg & Hrest)%tail_of_kebab.
    constructor; [| done].
    apply lang_plus_class. eapply group_ext; [| done].
    intros c. by rewrite slug_class_alnum.
Qed.

(** Every character of a kebab-case word is a group character or a
    hyphen. *)
Lemma kebab_chars ok l :
  kebab ok l -> Forall (fun c => ok c = true \/ c = "-"%char) l.
Proof.
  induction 1 as [g [_ Hg]|g l [_ Hg] _ IH].
  - eapply Forall_impl; [done |]. auto.
  - apply Forall_app. split; [eapply Forall_impl; [done |]; auto |].
    constructor; auto.
Qed.

End SlugFacts.

Module C4.
Import Regex RegexFacts Spec Schemas SlugFacts.

Section WithRuntime.
Context `{RT : Runtime}.

(** When an object passes the shape, every field passed its own type. *)
Lemma parse_shape_fields sh m o k t :
  parse_shape sh m = ([], o) -> (k, t) ∈ sh ->
  (exists v, parse t [k] (get m k) = inr v) \/ parse t [k] (get m k) = inl [].
Proof.
  revert o. induction sh as [|[k' t'] sh IH]; intros o Hsh Hin.
  - by apply elem_of_nil in Hin.
  - simpl in Hsh. destruct (parse_shape sh m) as [errs o'] eqn:Hrest.
    assert (Hhead : errs = [] /\
              ((exists v, parse t' [k'] (get m k') = inr v) \/
               parse t' [k'] (get m k') = inl [])).
    { destruct (parse t' [k'] (get m k')) as [errs'|v] eqn:Hp.
      - injection Hsh as Happ _. apply app_eq_nil in Happ as [-> ->]. auto.
      - split; [| eauto]. destruct v; by injection Hsh. }
    destruct Hhead as [-> Hhead].
    apply elem_of_cons in Hin as [[= -> ->] | Hin]; [done |]. by eapply IH.
Qed.

Lemma parse_slug_field k v :
  ((exists v', parse (ZString [Re slug_regex "Must be kebab-case"]) [k] v = inr v') \/
   parse (ZString [Re slug_regex "Must be kebab-case"]) [k] v = inl []) ->
  exists s, v = VStr s /\ Regex.test slug_regex s = true.
Proof.
  simpl. destruct v as [| | | |s| |]; try by intros [[? [=]] | [=]].
  destruct (Regex.test slug_regex s) eqn:Ht; [eauto |].
  simpl. by intros [[? [=]] | [=]].
Qed.

Lemma schema_parse_field sc (record out : obj) k t :
  schema_parse sc (VObj record) = inr out -> (k, t) ∈ shape sc ->
  (exists v, parse t [k] (get record k) = inr v) \/
  parse t [k] (get record k) = inl [].
Proof.
  unfold schema_parse. intros H Hin.
  destruct (parse_shape (shape sc) record) as [errs o] eqn:Hsh.
  destruct errs as [|e errs]; [| done].
  by eapply parse_shape_fields.
Qed.

(** No record passes the article schema unless its slug is a string the
    expression accepts. *)
Lemma article_slug_necessary (record out : obj) :
  schema_parse articleRecordSchema (VObj record) = inr out ->
  exists s, get record "slug" = VStr s /\ anycase_kebab s.
Proof.
  intros H.
  apply (schema_parse_field _ _ _ "slug"
           (ZString [Re slug_regex "Must be kebab-case"])) in H.
  - apply parse_slug_field in H as (s & Hs & Ht).
    exists s. split; [done |]. by apply slug_regex_kebab.
  - apply list_elem_of_further, list_elem_of_here.
Qed.

Lemma parse_string_re r msg p s :
  parse (ZString [Re r msg]) p (VStr s) =
  if Regex.test r s then inr (VStr s) else inl [Zod.Issue p msg].
Proof. simpl. by destruct (Regex.test r s). Qed.

(** A record in order but for its slug passes exactly when the expression
    accepts the slug. *)
Lemma article_with_slug_accepts s :
  accepts articleRecordSchema (article_with_slug s) = Regex.test slug_regex s.
Proof.
  unfold accepts, article_with_slug, schema_parse, articleRecordSchema, shape,
    refinements, parse_shape.
  cbn [foldr].
  replace (get (literal [("slug"%string, VStr s); ("title"%string, VStr "Title");
                         ("body"%string, VStr "Body");
                         ("author_id"%string, VNum (NInt 1))]) "slug")
    with (VStr s) by (vm_compute; reflexivity).
  rewrite parse_string_re.
  destruct (Regex.test slug_regex s); vm_compute; reflexivity.
Qed.

Lemma space_not_kebab s : has_space s -> ~ anycase_kebab s.
Proof.
  unfold has_space, anycase_kebab. intros Hsp Hk.
  apply kebab_chars in Hk. rewrite Forall_forall in Hk.
  destruct (Hk _ Hsp) as [H | H]; discriminate H.
Qed.

(** C4, as amended: the article schema accepts a slug exactly when it is
    kebab case over ASCII letters of either case and digits (non-empty
    groups separated by single hyphens); no record passes the schema with
    another slug; a slug with a space is refused, so is [My Slug], and
    [my-slug-2] is accepted. *)
Theorem C4_slug_rule :
  (forall s, accepts articleRecordSchema (article_with_slug s) = true
             <-> anycase_kebab s) /\
  (forall (record out : obj),
      schema_parse articleRecordSchema (VObj record) = inr out ->
      exists s, get record "slug" = VStr s /\ anycase_kebab s) /\
  (forall s, has_space s ->
             accepts articleRecordSchema (article_with_slug s) = false) /\
  accepts articleRecordSchema (article_with_slug "My Slug") = false /\
  accepts articleRecordSchema (article_with_slug "my-slug-2") = true.
Proof.
  split_and!.
  - intros s. by rewrite article_with_slug_accepts, slug_regex_kebab.
  - apply article_slug_necessary.
  - intros s Hsp. apply not_true_is_false.
    rewrite article_with_slug_accepts, slug_regex_kebab. by apply space_not_kebab.
  - rewrite article_with_slug_accepts. vm_compute. reflexivity.
  - rewrite article_with_slug_accepts. vm_compute. reflexivity.
Qed.

End WithRuntime.
End C4.

(** C4, as stated, fails: the slug [My-Slug] holds upper-case letters, is
    not lower-case kebab case, and the article schema accepts it. *)
Lemma C4_uppercase_slug_accepted :
  Spec.has_upper "My-Slug" /\
  ~ Spec.lowercase_kebab "My-Slug" /\
  Spec.accepts (RT := Sample.runtime) Schemas.articleRecordSchema
    (Spec.article_with_slug "My-Slug") = true.
Proof.
  split_and!.
  - unfold Spec.has_upper. apply Exists_cons_hd. reflexivity.
  - unfold Spec.lowercase_kebab. intros Hk.
    apply SlugFacts.kebab_chars in Hk.
    apply Forall_inv in Hk. destruct Hk as [H | H]; discriminate H.
  - rewrite C4.article_with_slug_accepts. vm_compute. reflexivity.
Qed.

(** ** The store calls of the repositories *)

Module StoreFacts.
Import Js importRepository Columns.

Lemma store_call_ok s : faults s = [] -> store_call s = (s, inr tt).
Proof. unfold store_call. by intros ->. Qed.

(** A store call touches the failure schedule only. *)
Lemma store_call_frame s s0 r :
  store_call s = (s0, r) ->
  exists fs, s0 = upd_faults (fun _ => fs) s.
Proof.
  unfold store_call. destruct s as [? ? ? ? ? ? ? ? ? ? ? ? fs ? ?]; simpl.
  destruct fs as [|[] fs]; intros [= <- <-]; by eexists.
Qed.

Lemma as_string_eq v s :
  as_string v s = (s, match v with VStr x => inr x | _ => inl InvalidArgument end).
Proof. by destruct v. Qed.

Lemma find_app_none {A} (p : A -> bool) l x :
  List.find p l = None -> List.find p (l ++ [x]) = if p x then Some x else None.
Proof.
  induction l as [|y l IH]; simpl; [done |].
  destruct (p y); [done | auto].
Qed.

Lemma find_replace_user email f us :
  (forall u, u_email (f u) = u_email u) ->
  List.find (fun u => String.eqb (u_email u) email) (prisma.replace_user email f us)
  = f <$> List.find (fun u => String.eqb (u_email u) email) us.
Proof.
  intros Hf. induction us as [|u us IH]; [done |]. simpl.
  destruct (String.eqb (u_email u) email) eqn:He.
  - by rewrite Hf, He.
  - by rewrite He.
Qed.

Lemma taken_replace_user ext email f us :
  (forall u, u_email (f u) = u_email u) ->
  prisma.user_externalId_taken ext email (prisma.replace_user email f us)
  = prisma.user_externalId_taken ext email us.
Proof.
  intros Hf. destruct ext as [e|]; [| done]. simpl.
  induction us as [|u us IH]; [done |]. simpl. rewrite IH. f_equal.
  destruct (String.eqb (u_email u) email) eqn:He.
  - by rewrite Hf, He, !andb_false_r.
  - by rewrite He.
Qed.

Lemma taken_app_user ext email us u :
  u_email u = email ->
  prisma.user_externalId_taken ext email (us ++ [u])
  = prisma.user_externalId_taken ext email us.
Proof.
  intros He. destruct ext as [e|]; [| done]. simpl.
  rewrite existsb_app. simpl.
  by rewrite He, String.eqb_refl, andb_false_r, !orb_false_r.
Qed.


(** What a successful user upsert read and wrote. *)
Lemma user_upsert_inv c s s1 row :
  user_upsert_of c s = (s1, inr row) ->
  prisma.user_externalId_taken (uc_externalId c) (uc_email c) (userTable s) = false /\
  match List.find (fun u => String.eqb (u_email u) (uc_email c)) (userTable s) with
  | Some u =>
      row = written_user c u /\
      userTable s1 = prisma.replace_user (uc_email c) (written_user c) (userTable s)
  | None =>
      row = mkUser (nextUserId s) (uc_email c) (uc_username c) (uc_password c)
              (Some (uc_role c)) (Some (uc_active c)) (uc_externalId c) None None /\
      userTable s1 = userTable s ++ [row]
  end.
Proof.
  unfold user_upsert_of, prisma.user_upsert, bind, gets, modify, ret, throw.
  destruct (store_call s) as [s0 [e|[]]] eqn:Hcall; [done |].
  apply store_call_frame in Hcall as [fs ->]. simpl.
  destruct (prisma.user_externalId_taken _ _ _); [done |].
  destruct (List.find _ _); intros [= <- <-]; done.
Qed.

(** Two successful upserts of the same columns in a row: the second finds
    the row of the first, rewrites it to itself, and adds no row. *)
Lemma user_upsert_twice c s s1 t s2 row1 row2 :
  user_upsert_of c s = (s1, inr row1) ->
  userTable t = userTable s1 ->
  user_upsert_of c t = (s2, inr row2) ->
  row2 = row1 /\ length (userTable s2) = length (userTable s1) /\
  u_email row1 = uc_email c /\ u_externalId row1 = uc_externalId c /\
  row2 ∈ userTable s2.
Proof.
  intros [Htaken H1]%user_upsert_inv Ht [_ H2]%user_upsert_inv.
  rewrite Ht in H2.
  destruct (List.find _ (userTable s)) as [u|] eqn:Hfind.
  - destruct H1 as [-> Htab]. rewrite Htab in H2.
    pose proof (find_some _ _ Hfind) as [_ Hu%String.eqb_eq].
    rewrite find_replace_user, Hfind in H2 by done. simpl in H2.
    destruct H2 as [-> Htab2]. rewrite Htab2, Htab.
    split_and!; [reflexivity | | done | reflexivity |].
    + unfold prisma.replace_user. by rewrite !length_map.
    + apply list_elem_of_In, (find_some (fun u => String.eqb (u_email u) (uc_email c))).
      by rewrite !find_replace_user, Hfind.
  - destruct H1 as [-> Htab]. rewrite Htab in H2.
    rewrite (find_app_none _ _ _ Hfind) in H2. simpl in H2.
    rewrite String.eqb_refl in H2. destruct H2 as [-> Htab2]. rewrite Htab2, Htab.
    split_and!; [reflexivity | | reflexivity | reflexivity |].
    + unfold prisma.replace_user. by rewrite !length_map.
    + apply list_elem_of_In, (find_some (fun u => String.eqb (u_email u) (uc_email c))).
      rewrite find_replace_user by done.
      rewrite (find_app_none _ _ _ Hfind). simpl. by rewrite String.eqb_refl.
Qed.

Ltac rewrite_cases :=
  repeat match goal with
         | H : ?x = _ |- context [?x] => rewrite H
         end.

(** A successful [upsertUser] is a user upsert of columns the record
    alone determines. *)
Lemma upsertUser_inv record s s1 row :
  upsertUser record s = (s1, inr row) ->
  exists c,
    get record "email" = VStr (uc_email c) /\
    uc_externalId c = externalId_of (get record "id") /\
    forall s', upsertUser record s' = user_upsert_of c s'.
Proof.
  intros H.
  unfold upsertUser, bind, name_as_username, email_local_part, as_string, as_bool,
    ret, throw in H.
  simpl in H.
  repeat (case_match; simplify_eq; try done);
    (eexists (mkUserColumns _ _ _ _ _ _); split; [done |]; split; [done |];
     intros s';
     unfold upsertUser, user_upsert_of, bind, name_as_username, email_local_part,
       as_string, as_bool, ret, throw; simpl; rewrite_cases; simpl; rewrite_cases;
     reflexivity).
Qed.


(** *** References *)


Lemma only_faults_refl s : only_faults s s.
Proof. exists (faults s). by destruct s. Qed.

Lemma only_faults_trans s1 s2 s3 :
  only_faults s1 s2 -> only_faults s2 s3 -> only_faults s1 s3.
Proof. intros [f1 ->] [f2 ->]. by exists f2. Qed.

Lemma store_call_only_faults s s0 r : store_call s = (s0, r) -> only_faults s s0.
Proof. apply store_call_frame. Qed.

Lemma to_int_pure what x : exists r, forall s', to_int what x s' = (s', r).
Proof.
  unfold to_int. destruct x as [| | |[]| | |]; try destruct (Str.parseInt _);
    by eexists.
Qed.

(** Resolving a reference reads the user table and nothing else. *)
Lemma resolve_user_frame field x s s' r :
  resolve_user field x s = (s', r) -> only_faults s s'.
Proof.
  unfold resolve_user, prisma.user_findUnique_externalId, bind, gets, ret, throw.
  destruct (is_external_ref x) as [ext|].
  - destruct (store_call s) as [s0 [e|[]]] eqn:Hcall;
      apply store_call_only_faults in Hcall.
    + by intros [= <- <-].
    + destruct (List.find _ _); by intros [= <- <-].
  - destruct (to_int_pure field x) as [r' ->]. intros [= <- <-].
    apply only_faults_refl.
Qed.

Lemma resolve_user_det field x s s' a t t' a' :
  resolve_user field x s = (s', inr a) ->
  resolve_user field x t = (t', inr a') ->
  userTable t = userTable s -> a' = a.
Proof.
  unfold resolve_user, prisma.user_findUnique_externalId, bind, gets, ret, throw.
  intros Hs Ht Htab. destruct (is_external_ref x) as [ext|].
  - destruct (store_call s) as [s0 [e|[]]] eqn:Hcs; [done |].
    destruct (store_call t) as [t0 [e|[]]] eqn:Hct; [done |].
    apply store_call_frame in Hcs as [? ->]. apply store_call_frame in Hct as [? ->].
    simpl in *. rewrite Htab in Ht.
    destruct (List.find _ _); by simplify_eq.
  - destruct (to_int_pure field x) as [r' Hr]. rewrite Hr in Hs, Ht. by simplify_eq.
Qed.

Lemma resolve_article_frame field x s s' r :
  resolve_article field x s = (s', r) -> only_faults s s'.
Proof.
  unfold resolve_article, prisma.article_findUnique_externalId, bind, gets, ret, throw.
  destruct (is_external_ref x) as [ext|].
  - destruct (store_call s) as [s0 [e|[]]] eqn:Hcall;
      apply store_call_only_faults in Hcall.
    + by intros [= <- <-].
    + destruct (List.find _ _); by intros [= <- <-].
  - destruct (to_int_pure field x) as [r' ->]. intros [= <- <-].
    apply only_faults_refl.
Qed.

(** *** Comments *)

Lemma comment_create_inv body articleId authorId s s1 c :
  prisma.comment_create body articleId authorId s = (s1, inr c) ->
  c_id c = nextCommentId s /\
  commentTable s1 = commentTable s ++ [c] /\
  nextCommentId s1 = (nextCommentId s + 1)%Z.
Proof.
  unfold prisma.comment_create, bind, gets, modify, ret, throw, now.
  destruct (store_call s) as [s0 [e|[]]] eqn:Hcall; [done |].
  apply store_call_frame in Hcall as [fs ->]. simpl.
  destruct (negb _); [done |]. by intros [= <- <-].
Qed.

Lemma upsertComment_inv record s s1 c :
  upsertComment record s = (s1, inr c) ->
  c_id c = nextCommentId s /\
  commentTable s1 = commentTable s ++ [c] /\
  nextCommentId s1 = (nextCommentId s + 1)%Z.
Proof.
  unfold upsertComment, bind. intros H.
  destruct (resolve_article _ _ s) as [sa [e|a]] eqn:Ha; [done |].
  destruct (resolve_user _ _ sa) as [su [e|u]] eqn:Hu; [done |].
  apply resolve_article_frame in Ha as [? ->].
  apply resolve_user_frame in Hu as [? ->].
  rewrite as_string_eq in H. destruct (get record "body"); try done.
  by apply comment_create_inv in H.
Qed.


(** *** Articles *)

Lemma find_replace_article slug f arts :
  (forall a, a_slug (f a) = a_slug a) ->
  List.find (fun a => String.eqb (a_slug a) slug) (prisma.replace_article slug f arts)
  = f <$> List.find (fun a => String.eqb (a_slug a) slug) arts.
Proof.
  intros Hf. induction arts as [|a arts IH]; [done |]. simpl.
  destruct (String.eqb (a_slug a) slug) eqn:He.
  - by rewrite Hf, He.
  - by rewrite He.
Qed.


Lemma article_upsert_inv c authorId s s1 row :
  article_upsert_of c authorId s = (s1, inr row) ->
  userTable s1 = userTable s /\
  match List.find (fun a => String.eqb (a_slug a) (ac_slug c)) (articleTable s) with
  | Some a =>
      row = written_article c authorId a /\
      articleTable s1
      = prisma.replace_article (ac_slug c) (written_article c authorId) (articleTable s)
  | None =>
      a_slug row = ac_slug c /\
      row = written_article c authorId row /\
      articleTable s1 = articleTable s ++ [row]
  end.
Proof.
  unfold article_upsert_of, prisma.article_upsert, bind, gets, modify, ret, throw, now.
  destruct (store_call s) as [s0 [e|[]]] eqn:Hcall; [done |].
  apply store_call_frame in Hcall as [fs ->]. simpl.
  destruct (negb _); [done |].
  destruct (prisma.article_externalId_taken _ _ _); [done |].
  destruct (List.find _ _); intros [= <- <-]; done.
Qed.

Lemma article_upsert_twice c authorId s s1 t s2 row1 row2 :
  article_upsert_of c authorId s = (s1, inr row1) ->
  articleTable t = articleTable s1 ->
  article_upsert_of c authorId t = (s2, inr row2) ->
  row2 = row1 /\ length (articleTable s2) = length (articleTable s1) /\
  row2 ∈ articleTable s2.
Proof.
  intros [_ H1]%article_upsert_inv Ht [_ H2]%article_upsert_inv.
  rewrite Ht in H2.
  destruct (List.find _ (articleTable s)) as [a|] eqn:Hfind.
  - destruct H1 as [-> Htab]. rewrite Htab in H2.
    rewrite find_replace_article, Hfind in H2 by done. simpl in H2.
    destruct H2 as [-> Htab2]. rewrite Htab2, Htab.
    split_and!; [reflexivity | |].
    + unfold prisma.replace_article. by rewrite !length_map.
    + apply list_elem_of_In,
        (find_some (fun a => String.eqb (a_slug a) (ac_slug c))).
      by rewrite !find_replace_article, Hfind.
  - destruct H1 as (Hslug & Hrow & Htab). rewrite Htab in H2.
    rewrite (find_app_none _ _ _ Hfind) in H2. simpl in H2.
    rewrite Hslug, String.eqb_refl in H2. destruct H2 as [-> Htab2].
    rewrite Htab2, Htab. split_and!; [by rewrite <-Hrow | |].
    + unfold prisma.replace_article. by rewrite !length_map.
    + apply list_elem_of_In,
        (find_some (fun a => String.eqb (a_slug a) (ac_slug c))).
      rewrite find_replace_article by done.
      rewrite (find_app_none _ _ _ Hfind). simpl. by rewrite Hslug, String.eqb_refl.
Qed.

(** A successful [upsertArticle] resolves the author and upserts columns
    the record alone determines. *)
Lemma upsertArticle_inv record s s1 row :
  upsertArticle record s = (s1, inr row) ->
  exists c,
    forall s',
      upsertArticle record s' =
      bind (resolve_user "author_id"
              (Js.or (get record "author_id") (get record "authorId")))
           (article_upsert_of c) s'.
Proof.
  intros H. unfold upsertArticle, bind in H.
  destruct (resolve_user _ _ s) as [sa [e|a]]; [done |].
  cbv beta in H. rewrite as_string_eq in H.
  destruct (get record "slug") as [| | | |slug| |] eqn:Hslug; try done.
  rewrite as_string_eq in H.
  destruct (get record "title") as [| | | |title| |] eqn:Htitle; try done.
  rewrite as_string_eq in H.
  destruct (Js.or (get record "description") (VStr title))
    as [| | | |description| |] eqn:Hdesc; try done.
  rewrite as_string_eq in H.
  destruct (get record "body") as [| | | |body| |] eqn:Hbody; try done.
  exists (mkArticleColumns slug title description body
            (externalId_of (get record "id"))).
  intros s'. unfold upsertArticle, bind.
  destruct (resolve_user _ _ s') as [sa' [e|a']]; [done |].
  cbv beta. rewrite Hslug, Htitle, Hdesc, Hbody. by rewrite !as_string_eq.
Qed.

Lemma upsertArticle_twice record s s1 s2 row1 row2 :
  upsertArticle record s = (s1, inr row1) ->
  upsertArticle record s1 = (s2, inr row2) ->
  row2 = row1 /\ length (articleTable s2) = length (articleTable s1) /\
  row2 ∈ articleTable s2.
Proof.
  intros H1 H2. destruct (upsertArticle_inv _ _ _ _ H1) as [c Hc].
  rewrite Hc in H1, H2. unfold bind in H1, H2.
  destruct (resolve_user _ _ s) as [sa [e|a]] eqn:Ha; [done |].
  destruct (resolve_user _ _ s1) as [sb [e|b]] eqn:Hb; [done |].
  pose proof (article_upsert_inv _ _ _ _ _ H1) as [Hus _].
  assert (b = a) as ->.
  { eapply resolve_user_det; [done.. |].
    apply resolve_user_frame in Ha as [? ->]. by rewrite Hus. }
  apply resolve_user_frame in Ha as [? ->].
  apply resolve_user_frame in Hb as [? ->].
  eapply (article_upsert_twice _ _ _ _ _ _ _ _ H1); [| exact H2]. reflexivity.
Qed.

(** After a successful user upsert the row is the one its email finds,
    and no other user holds its external identifier. *)
Lemma user_upsert_post c s s1 row :
  user_upsert_of c s = (s1, inr row) ->
  prisma.user_externalId_taken (uc_externalId c) (uc_email c) (userTable s1) = false /\
  List.find (fun u => String.eqb (u_email u) (uc_email c)) (userTable s1) = Some row /\
  u_email row = uc_email c /\ u_externalId row = uc_externalId c.
Proof.
  intros [Htaken H1]%user_upsert_inv.
  destruct (List.find _ (userTable s)) as [u|] eqn:Hfind.
  - destruct H1 as [-> ->].
    pose proof (find_some _ _ Hfind) as [_ Hu%String.eqb_eq].
    rewrite taken_replace_user, find_replace_user, Hfind by done. done.
  - destruct H1 as [-> ->].
    rewrite taken_app_user by done. rewrite (find_app_none _ _ _ Hfind).
    simpl. by rewrite String.eqb_refl.
Qed.

Lemma store_call_error s s0 e : store_call s = (s0, inl e) -> e = StoreFailure.
Proof. unfold store_call. destruct (faults s) as [|[] ?]; by intros [= <- <-]. Qed.

(** A user upsert that finds its row rewrites it, unless the store fails. *)
Lemma user_upsert_found c t s2 r row :
  List.find (fun u => String.eqb (u_email u) (uc_email c)) (userTable t) = Some row ->
  prisma.user_externalId_taken (uc_externalId c) (uc_email c) (userTable t) = false ->
  user_upsert_of c t = (s2, r) ->
  (r = inr (written_user c row) /\
   userTable s2 = prisma.replace_user (uc_email c) (written_user c) (userTable t)) \/
  (r = inl StoreFailure /\ userTable s2 = userTable t).
Proof.
  intros Hfind Htaken.
  unfold user_upsert_of, prisma.user_upsert, bind, gets, modify, ret, throw.
  destruct (store_call t) as [t0 [e|[]]] eqn:Hcall.
  - apply store_call_error in Hcall as He. subst e.
    apply store_call_frame in Hcall as [fs ->]. intros [= <- <-]. by right.
  - apply store_call_frame in Hcall as [fs ->]. simpl.
    rewrite Htaken, Hfind. intros [= <- <-]. by left.
Qed.

End StoreFacts.

(** ** C10: upserts by natural key, comments by plain insert *)

Module C10.
Import Js importRepository Columns StoreFacts.

Lemma upsertUser_twice record s s1 s2 row1 row2 :
  upsertUser record s = (s1, inr row1) ->
  upsertUser record s1 = (s2, inr row2) ->
  row2 = row1 /\ length (userTable s2) = length (userTable s1) /\
  row2 ∈ userTable s2.
Proof.
  intros H1 H2. destruct (upsertUser_inv _ _ _ _ H1) as (c & _ & _ & Hc).
  rewrite Hc in H1, H2.
  destruct (user_upsert_twice c s s1 s1 s2 row1 row2) as (? & ? & _ & _ & ?); done.
Qed.

Lemma upsertComment_twice record s s1 s2 c1 c2 :
  upsertComment record s = (s1, inr c1) ->
  upsertComment record s1 = (s2, inr c2) ->
  c_id c1 <> c_id c2 /\ commentTable s2 = commentTable s ++ [c1; c2].
Proof.
  intros (Hid1 & Htab1 & Hnext1)%upsertComment_inv
         (Hid2 & Htab2 & _)%upsertComment_inv.
  split; [lia |]. by rewrite Htab2, Htab1, <-app_assoc.
Qed.


End C10.


(** ** C5: external identifiers survive an export and a new import *)

Module C5.
Import Js importRepository Columns StoreFacts exportProcessor.

Section WithRuntime.
Context `{RT : Runtime}.

Lemma includes_nonempty s p : Str.includes s p = true -> p <> EmptyString -> s <> EmptyString.
Proof. intros H Hp ->. destruct p; [done | discriminate H]. Qed.

(** The fields of an exported user that an import reads. *)
Lemma exported_user_fields row :
  let e := formatUserRecord row None in
  get e "email" = VStr (u_email row) /\
  get e "name" = VStr (u_username row) /\
  get e "username" = VUndefined /\
  get e "password" = VUndefined /\
  get e "id" = Js.or (opt_str (u_externalId row)) (int (u_id row)) /\
  get e "role" = Js.or (opt_str (u_role row)) (VStr "user") /\
  get e "active" = nullish (opt_bool (u_active row)) (VBool true).
Proof.
  unfold formatUserRecord, select_fields, Js.literal, get. simpl.
  split_and!; by simplify_map_eq.
Qed.

(** An exported user is imported as a user upsert with the row's email and
    the identifier the export gave. *)
Lemma upsertUser_exported row :
  exists c,
    uc_email c = u_email row /\
    uc_externalId c = externalId_of (get (formatUserRecord row None) "id") /\
    forall s, upsertUser (formatUserRecord row None) s = user_upsert_of c s.
Proof.
  destruct (exported_user_fields row) as (He & Hn & Hu & Hp & Hi & Hr & Ha).
  cbv zeta in *.
  assert (exists role, Js.or (get (formatUserRecord row None) "role") (VStr "reader") = VStr role) as [role Hrole].
  { rewrite Hr. destruct (u_role row) as [r|]; simpl; [| by eexists].
    destruct r; simpl; by eexists. }
  assert (exists active, (if is_undefined (get (formatUserRecord row None) "active") then VBool true else get (formatUserRecord row None) "active") = VBool active) as [active Hactive].
  { rewrite Ha. destruct (u_active row) as [b|]; simpl; by eexists. }
  set (n := Str.remove_spaces (Str.toLowerCase (u_username row))).
  exists (mkUserColumns (u_email row)
            (if truthy (VStr n) then n else hd EmptyString (Str.split "@" (u_email row)))
            "imported-user-change-me" role active
            (externalId_of (get (formatUserRecord row None) "id"))).
  split; [done |]. split; [done |]. intros s.
  unfold upsertUser, user_upsert_of, bind, name_as_username, email_local_part, ret.
  rewrite Hu, Hn, He, Hp, Hrole, Hactive. cbn [truthy Js.or]. fold n.
  destruct (negb (String.eqb n EmptyString)); reflexivity.
Qed.


End WithRuntime.
End C5.



(** ** C6: field selection of the export formatters *)

Module C6.
Import exportProcessor.

Section WithRuntime.
Context `{RT : Runtime}.

Lemma select_loop_lookup (formatted acc : obj) fields k :
  foldl (fun filtered field =>
           if is_undefined (get formatted field) then filtered
           else <[field := get formatted field]> filtered) acc fields !! k =
  if decide (k ∈ fields /\ is_undefined (get formatted k) = false)
  then Some (get formatted k) else acc !! k.
Proof.
  revert acc. induction fields as [|f fields IH]; intros acc; cbn [foldl].
  - case_decide as H; [| done]. destruct H as [H _]. by apply elem_of_nil in H.
  - rewrite IH.
    destruct (is_undefined (get formatted k)) eqn:Hk.
    + rewrite !decide_False by (by intros [_ ?]).
      destruct (decide (k = f)) as [->|Hne]; [by rewrite Hk |].
      destruct (is_undefined (get formatted f)); [done | by rewrite lookup_insert_ne].
    + destruct (decide (k ∈ fields)) as [Hin|Hnin].
      * rewrite !decide_True; [done | split; [set_solver | done] | done].
      * rewrite (decide_False (P := k ∈ fields /\ _)) by (by intros [? _]).
        destruct (decide (k = f)) as [->|Hne].
        -- rewrite Hk, lookup_insert_eq, decide_True; [done |]. split; [set_solver | done].
        -- rewrite decide_False by (intros [? _]; set_solver).
           destruct (is_undefined (get formatted f)); [done | by rewrite lookup_insert_ne].
Qed.

(** The selected record holds a field exactly when the list names it and
    the formatted record defines it, with the formatted value. *)
Lemma select_fields_lookup (formatted : obj) fields k :
  select_fields formatted (Some fields) !! k =
  if decide (k ∈ fields /\ is_undefined (get formatted k) = false)
  then Some (get formatted k) else None.
Proof.
  unfold select_fields. rewrite (select_loop_lookup formatted ∅).
  by rewrite lookup_empty.
Qed.

Lemma formatRecord_select record fields :
  formatRecord record (Some fields)
  = select_fields (formatRecord record None) (Some fields).
Proof. by destruct record. Qed.

Lemma is_undefined_false v : is_undefined v = false <-> v <> VUndefined.
Proof. destruct v; simpl; split; intros H; try done; by destruct H. Qed.

Lemma article_id_slug_defined article author :
  let formatted := formatArticleRecord article author None in
  is_undefined (get formatted "id") = false /\
  is_undefined (get formatted "slug") = false.
Proof.
  unfold formatArticleRecord, select_fields, Js.literal, get. simpl.
  split; simplify_map_eq; [| done]. simpl.
  destruct (a_externalId article) as [[|]|]; done.
Qed.


End WithRuntime.
End C6.


(** ** What a computation may change *)

Module Frames.
Import importRepository StoreFacts Relations.


Section Rules.
Context (R : relation Store) `{!PreOrder R}.

Lemma frame_ret {A} (a : A) : frame R (ret a).
Proof. intros s. simpl. reflexivity. Qed.

Lemma frame_throw {A} e : frame R (@throw A e).
Proof. intros s. simpl. reflexivity. Qed.

Lemma frame_gets {A} (f : Store -> A) : frame R (gets f).
Proof. intros s. simpl. reflexivity. Qed.

Lemma frame_lift {A} (r : exn + A) : frame R (lift r).
Proof. intros s. simpl. reflexivity. Qed.

Lemma frame_bind {A B} (m : M A) (k : A -> M B) :
  frame R m -> (forall a, frame R (k a)) -> frame R (bind m k).
Proof.
  intros Hm Hk s. unfold bind. specialize (Hm s).
  destruct (m s) as [s' [e|a]]; simpl in *; [done |].
  etrans; [done | apply Hk].
Qed.

Lemma frame_try_catch {A} (m : M A) h :
  frame R m -> (forall e, frame R (h e)) -> frame R (try_catch m h).
Proof.
  intros Hm Hh s. unfold try_catch. specialize (Hm s).
  destruct (m s) as [s' [e|a]]; simpl in *; [| done].
  etrans; [done | apply Hh].
Qed.

Lemma frame_finally {A} (m : M A) f :
  frame R m -> frame R f -> frame R (finally m f).
Proof.
  intros Hm Hf s. unfold finally. specialize (Hm s).
  destruct (m s) as [s' r]. specialize (Hf s').
  destruct (f s') as [s'' [e|[]]]; simpl in *; by etrans.
Qed.

Lemma frame_foldM {A S} (body : S -> A -> M S) l st :
  (forall st x, frame R (body st x)) -> frame R (foldM body l st).
Proof.
  intros Hb. revert st. induction l as [|x l IH]; intros st; simpl.
  - apply frame_ret.
  - apply frame_bind; [apply Hb | apply IH].
Qed.

Lemma frame_modify f : (forall s, R s (f s)) -> frame R (modify f).
Proof. intros Hf s. apply Hf. Qed.

End Rules.

(** [frame], read on one run. *)
Lemma frame_run R {A} (m : M A) s s' r : frame R m -> m s = (s', r) -> R s s'.
Proof. intros H Hrun. specialize (H s). by rewrite Hrun in H. Qed.

#[global] Instance same_jobs_preorder : PreOrder same_jobs.
Proof.
  split.
  - by intros s.
  - intros s1 s2 s3 (? & ? & ? & ?) (? & ? & ? & ?).
    split_and!; [congruence.. | auto].
Qed.

Lemma same_jobs_store_call : frame same_jobs store_call.
Proof.
  intros s. unfold store_call, same_jobs.
  destruct (faults s) as [|[] fs] eqn:Hf; simpl; split_and!; try done;
    rewrite Hf; done.
Qed.

Create HintDb frames discriminated.

Ltac frame_step :=
  lazymatch goal with
  | |- frame _ (bind _ _) => apply frame_bind; try tc_solve; [| intros ?]
  | |- frame _ (ret _) => apply frame_ret
  | |- frame _ (throw _) => apply frame_throw
  | |- frame _ (gets _) => apply frame_gets
  | |- frame _ now => apply frame_gets
  | |- frame _ (try_catch _ _) => apply frame_try_catch; try tc_solve; [| intros ?]
  | |- frame _ (finally _ _) => apply frame_finally; try tc_solve
  | |- frame _ (foldM _ _ _) => apply frame_foldM; try tc_solve; intros ? ?
  | |- frame _ (modify _) =>
      apply frame_modify; intros ?;
      first [ by (unfold same_jobs; simpl)
            | by (exists []; simpl; rewrite app_nil_r) ]
  | |- frame _ (match ?x with _ => _ end) => destruct x
  | |- frame _ (let '(_, _) := ?x in _) => destruct x
  | |- frame _ _ => solve [eauto with frames]
  | |- PreOrder _ => tc_solve
  end.

Ltac frames := repeat (frame_step; try assumption).

(** Apply a rule and find the order of its relation. *)
Ltac rule l := apply l; try tc_solve.

#[global] Hint Resolve same_jobs_store_call : frames.

Lemma same_jobs_as_string v : frame same_jobs (as_string v).
Proof. unfold as_string. frames. Qed.

Lemma same_jobs_as_bool v : frame same_jobs (as_bool v).
Proof. unfold as_bool. frames. Qed.

Lemma same_jobs_to_int what x : frame same_jobs (to_int what x).
Proof. unfold to_int. frames. Qed.

#[global] Hint Resolve same_jobs_as_string same_jobs_as_bool same_jobs_to_int : frames.

Lemma same_jobs_resolve_user field x : frame same_jobs (resolve_user field x).
Proof. unfold resolve_user, prisma.user_findUnique_externalId. frames. Qed.

Lemma same_jobs_resolve_article field x : frame same_jobs (resolve_article field x).
Proof. unfold resolve_article, prisma.article_findUnique_externalId. frames. Qed.

#[global] Hint Resolve same_jobs_resolve_user same_jobs_resolve_article : frames.

Lemma same_jobs_upsertUser record : frame same_jobs (upsertUser record).
Proof.
  unfold upsertUser, prisma.user_upsert, name_as_username, email_local_part.
  frames.
Qed.

Lemma same_jobs_upsertArticle record : frame same_jobs (upsertArticle record).
Proof. unfold upsertArticle, prisma.article_upsert. frames. Qed.

Lemma same_jobs_upsertComment record : frame same_jobs (upsertComment record).
Proof. unfold upsertComment, prisma.comment_create. frames. Qed.

#[global] Hint Resolve same_jobs_upsertUser same_jobs_upsertArticle
  same_jobs_upsertComment : frames.

End Frames.

(** ** C2: one record's failure does not abort its batch *)

Module BatchFacts.
Import importRepository importProcessor StoreFacts Relations Frames Batches.

Lemma importJob_update_ok id f s job :
  faults s = [] -> importJobs s !! id = Some job ->
  prisma.importJob_update id f s
  = (upd_importJobs (fun _ => <[id := f job]> (importJobs s)) s, inr (f job)).
Proof.
  intros Hf Hjob. unfold prisma.importJob_update, bind, gets, modify, ret.
  rewrite store_call_ok by done. simpl. by rewrite Hjob.
Qed.

Lemma updateJobCounts_ok jobId counts s job :
  faults s = [] -> importJobs s !! jobId = Some job ->
  updateJobCounts jobId counts s
  = (upd_importJobs (fun _ => <[jobId := with_counts counts job]> (importJobs s)) s,
     inr (with_counts counts job)).
Proof. apply importJob_update_ok. Qed.

(** The row [recordError] writes for an exception. *)
Lemma recordError_ok jobId index data e s job :
  faults s = [] -> importJobs s !! jobId = Some job ->
  exists message type,
    recordError jobId index data e s
    = (upd_importErrors
         (fun l => l ++ [mkImportError jobId index data message type]) s,
       inr tt).
Proof.
  intros Hf Hjob.
  unfold recordError, createImportError, prisma.importError_create, bind, gets,
    modify, ret.
  destruct e as [issues|name message]; eexists _, _;
    rewrite store_call_ok by done; simpl; rewrite Hjob; reflexivity.
Qed.

Lemma same_jobs_upsert resource record : frame same_jobs (upsert resource record).
Proof. unfold upsert. frames. Qed.

(** One turn of the batch loop: the record is stored and counted as a
    success, or its failure is recorded as one import error and counted
    as an error; either way the loop goes on. *)
Lemma processItem_ok jobId resource acc item s :
  ready jobId s ->
  exists s' acc',
    processItem jobId resource acc item s = (s', inr acc') /\
    ready jobId s' /\ importJobs s' = importJobs s /\
    ((acc' = mkResult (success acc + 1) (error acc) /\
      importErrors s' = importErrors s /\
      (upsert resource (item_record item) s).2 = inr tt) \/
     (acc' = mkResult (success acc) (error acc + 1) /\
      (exists e, importErrors s' = importErrors s ++ [e] /\ row_of_item jobId item e) /\
      exists x, (upsert resource (item_record item) s).2 = inl x)).
Proof.
  intros [Hf [job Hjob]]. unfold processItem, try_catch, bind, ret.
  pose proof (same_jobs_upsert resource (item_record item) s) as Hframe.
  destruct (upsert resource (item_record item) s) as [s1 [x|[]]] eqn:Hup;
    destruct Hframe as (Hjobs & Herrs & _ & Hfaults); simpl in *.
  - destruct (recordError_ok jobId (item_recordIndex item)
                (VObj (item_record item)) x s1 job) as (msg & ty & ->);
      [auto | by rewrite Hjobs |].
    eexists _, _. split; [done |]. simpl. split_and!.
    + split; simpl; [auto | rewrite Hjobs; by eexists].
    + done.
    + right. split_and!; [done | | by eexists].
      eexists. split; [by rewrite Herrs | done].
  - eexists _, _. split; [done |]. split_and!.
    + split; [auto | rewrite Hjobs; by eexists].
    + done.
    + left. done.
Qed.

Lemma processBatch_loop jobId resource batch acc s :
  ready jobId s ->
  exists s' acc',
    foldM (processItem jobId resource) batch acc s = (s', inr acc') /\
    ready jobId s' /\ importJobs s' = importJobs s /\
    (success acc <= success acc')%Z /\ (error acc <= error acc')%Z /\
    (success acc' + error acc' = success acc + error acc + Z.of_nat (length batch))%Z /\
    exists new,
      importErrors s' = importErrors s ++ new /\
      Z.of_nat (length new) = (error acc' - error acc)%Z /\
      Forall (fun e => exists item, item ∈ batch /\ row_of_item jobId item e) new.
Proof.
  revert acc s. induction batch as [|item batch IH]; intros acc s Hready.
  - exists s, acc. simpl. split_and!; try done; try lia.
    exists []. rewrite app_nil_r. split_and!; [done | simpl; lia | done].
  - simpl. unfold bind.
    destruct (processItem_ok jobId resource acc item s Hready)
      as (s1 & acc1 & -> & Hready1 & Hjobs1 & Hcase).
    destruct (IH acc1 s1 Hready1)
      as (s' & acc' & -> & Hready' & Hjobs' & Hs & He & Hsum & new & Herrs & Hlen & Hnew).
    exists s', acc'. split; [done |].
    assert (Hnew' : Forall (fun e => exists item0, item0 ∈ item :: batch /\
                                      row_of_item jobId item0 e) new).
    { eapply Forall_impl; [done |]. intros e (i & Hi & ?). exists i.
      split; [by apply list_elem_of_further | done]. }
    destruct Hcase as [(-> & Herrs1 & _) | (-> & (e & Herrs1 & Hrow) & _)];
      simpl in *.
    + split_and!; [done | congruence | lia | lia | lia |].
      exists new. split_and!; [congruence | lia | done].
    + split_and!; [done | congruence | lia | lia | lia |].
      exists (e :: new). split_and!.
      * rewrite Herrs, Herrs1, <-app_assoc. done.
      * simpl length. lia.
      * constructor; [| done]. exists item. split; [apply list_elem_of_here | done].
Qed.


(** A batch runs to its end, and its counts go to the job by increment. *)
Lemma processBatch_ok jobId resource batch s job :
  faults s = [] -> importJobs s !! jobId = Some job ->
  exists s' r,
    processBatch jobId resource batch s = (s', inr r) /\
    faults s' = [] /\
    (0 <= success r)%Z /\ (0 <= error r)%Z /\
    (success r + error r = Z.of_nat (length batch))%Z /\
    importJobs s' =
      <[jobId := with_counts (mkCounts None (Some (Increment (success r)))
                                (Some (Increment (error r)))) job]> (importJobs s) /\
    exists new,
      importErrors s' = importErrors s ++ new /\
      Z.of_nat (length new) = error r /\
      Forall (fun e => exists item, item ∈ batch /\ row_of_item jobId item e) new.
Proof.
  intros Hf Hjob. unfold processBatch, bind.
  destruct (processBatch_loop jobId resource batch (mkResult 0 0) s)
    as (s1 & r & -> & [Hf1 _] & Hjobs & Hs & He & Hsum & new & Herrs & Hlen & Hnew).
  { split; [done | by eexists]. }
  simpl in *.
  rewrite (updateJobCounts_ok _ _ _ job) by (by rewrite ?Hjobs).
  eexists _, _. split; [done |]. simpl.
  split_and!; [done | lia | lia | lia | by rewrite Hjobs |].
  exists new. split_and!; [done | lia | done].
Qed.

End BatchFacts.

Module C2.
Import importRepository importProcessor Batches BatchFacts.


End C2.


(** ** Outcomes of loops *)

Module Outcomes.
Import importRepository importProcessor StoreFacts Relations Frames Batches.

Section Rules.
Context (R : relation Store) `{!PreOrder R}.

Lemma outcome_ret {A} (post : A -> Prop) a : post a -> outcome R post (ret a).
Proof. intros Ha s. simpl. split; [reflexivity | by intros ? [= <-]]. Qed.

Lemma outcome_throw {A} (post : A -> Prop) e : outcome R post (throw e).
Proof. intros s. simpl. split; [reflexivity | done]. Qed.

Lemma outcome_frame {A} (m : M A) : frame R m -> outcome R (fun _ => True) m.
Proof. intros Hm s. split; [apply Hm | done]. Qed.

Lemma outcome_bind {A B} (mid : A -> Prop) (post : B -> Prop) m k :
  outcome R mid m -> (forall a, mid a -> outcome R post (k a)) ->
  outcome R post (bind m k).
Proof.
  intros Hm Hk s. unfold bind. destruct (Hm s) as [HR Hmid].
  destruct (m s) as [s' [e|a]]; simpl in *; [done |].
  destruct (Hk a (Hmid a eq_refl) s') as [HR' Hpost].
  split; [by etrans | done].
Qed.

Lemma outcome_try_catch {A} (post : A -> Prop) m h :
  outcome R post m -> (forall e, outcome R post (h e)) ->
  outcome R post (try_catch m h).
Proof.
  intros Hm Hh s. unfold try_catch. destruct (Hm s) as [HR Hpost].
  destruct (m s) as [s' [e|a]]; simpl in *; [| done].
  destruct (Hh e s') as [HR' Hpost']. split; [by etrans | done].
Qed.

Lemma outcome_weaken {A} (post post' : A -> Prop) m :
  (forall a, post a -> post' a) -> outcome R post m -> outcome R post' m.
Proof. intros Himp Hm s. destruct (Hm s). split; auto. Qed.

(** A loop whose body takes the invariant from one position of the list
    to the next. *)
Lemma outcome_foldM {A L} (inv : nat -> L -> Prop) (body : L -> A -> M L) l n st :
  (forall k x st, l !! k = Some x -> inv (n + k) st ->
                  outcome R (inv (S (n + k))) (body st x)) ->
  inv n st ->
  outcome R (inv (n + length l)) (foldM body l st).
Proof.
  revert n st. induction l as [|x l IH]; intros n st Hbody Hinv; simpl.
  - rewrite Nat.add_0_r. by apply outcome_ret.
  - eapply outcome_bind.
    + specialize (Hbody 0 x st eq_refl). rewrite Nat.add_0_r in Hbody. by apply Hbody.
    + intros st' Hst'. rewrite <-Nat.add_succ_comm. apply IH; [| done].
      intros k y st'' Hy. rewrite Nat.add_succ_comm. by apply Hbody.
Qed.

Lemma frame_foldM_in {A L} (body : L -> A -> M L) l st :
  (forall st x, x ∈ l -> frame R (body st x)) -> frame R (foldM body l st).
Proof.
  revert st. induction l as [|x l IH]; intros st Hb; simpl.
  - by apply frame_ret.
  - apply frame_bind; [done | apply Hb, list_elem_of_here |].
    intros st'. apply IH. intros st'' y Hy. by apply Hb, list_elem_of_further.
Qed.

End Rules.

#[global] Instance added_errors_preorder Q : PreOrder (added_errors Q).
Proof.
  split.
  - intros s. exists []. by rewrite app_nil_r.
  - intros s1 s2 s3 (n1 & H1 & HQ1) (n2 & H2 & HQ2). exists (n1 ++ n2).
    split; [by rewrite H2, H1, <-app_assoc | by apply Forall_app].
Qed.

Lemma frame_weaken (R R' : relation Store) {A} (m : M A) :
  (forall s s', R s s' -> R' s s') -> frame R m -> frame R' m.
Proof. intros Himp Hm s. apply Himp, Hm. Qed.

Lemma added_of_same_jobs Q {A} (m : M A) :
  frame same_jobs m -> frame (added_errors Q) m.
Proof.
  apply frame_weaken. intros s s' (_ & Herrs & _). exists [].
  by rewrite app_nil_r.
Qed.

Lemma same_jobs_metrics jobId processed errors :
  frame same_jobs (metricsTracker.updateProgress jobId processed errors).
Proof. unfold metricsTracker.updateProgress. frames. Qed.

Lemma same_jobs_readFile path : frame same_jobs (fs.readFile path).
Proof. unfold fs.readFile. frames. Qed.

(** A job update leaves the import errors alone. *)
Lemma added_importJob_update Q id f : frame (added_errors Q) (prisma.importJob_update id f).
Proof.
  unfold prisma.importJob_update.
  rule frame_bind; [by apply added_of_same_jobs, same_jobs_store_call |].
  intros _. frames.
Qed.

Lemma added_updateJobCounts Q jobId counts :
  frame (added_errors Q) (updateJobCounts jobId counts).
Proof. apply added_importJob_update. Qed.

(** [recordError] adds the row of its arguments, or nothing. *)
Lemma added_recordError (Q : ImportError -> Prop) jobId index data e :
  (forall message type, Q (mkImportError jobId index data message type)) ->
  frame (added_errors Q) (recordError jobId index data e).
Proof.
  intros HQ. unfold recordError, createImportError, prisma.importError_create.
  destruct (match e with
            | ZodError issues => _
            | Error name message => _
            end) as [message type].
  rule frame_bind; [| intros; by rule frame_ret].
  rule frame_bind; [by apply added_of_same_jobs, same_jobs_store_call |].
  intros _. rule frame_bind; [by rule frame_gets |]. intros jobs.
  destruct (jobs !! _); [| by rule frame_throw].
  rule frame_bind; [| intros; by rule frame_ret].
  apply frame_modify. intros s. eexists [_]. simpl. split; [done |].
  constructor; [apply HQ | done].
Qed.

(** A batch adds rows of its items only. *)
Lemma added_processBatch (Q : ImportError -> Prop) jobId resource batch :
  (forall item message type,
      item ∈ batch ->
      Q (mkImportError jobId (item_recordIndex item) (VObj (item_record item))
           message type)) ->
  frame (added_errors Q) (processBatch jobId resource batch).
Proof.
  intros HQ. unfold processBatch.
  rule frame_bind; [| intros r].
  - rule frame_foldM_in. intros acc item Hitem. unfold processItem.
    rule frame_try_catch.
    + apply added_of_same_jobs. rule frame_bind; [| intros; by rule frame_ret].
      apply BatchFacts.same_jobs_upsert.
    + intros err. rule frame_bind; [| intros; by rule frame_ret].
      apply added_recordError. intros. by apply HQ.
  - rule frame_bind; [apply added_updateJobCounts | intros; by rule frame_ret].
Qed.

End Outcomes.

(** ** C3: the index an import error carries *)

Module IndexFacts.
Import importRepository importProcessor StoreFacts Relations Frames Batches
  Outcomes Sources.

Lemma filter_position {A} (P : A -> Prop) `{!forall x, Decision (P x)} l k x :
  l !! k = Some x -> P x ->
  filter P l !! length (filter P (take k l)) = Some x.
Proof.
  intros Hk Hx. pose proof (take_drop_middle l k x Hk) as Hl.
  remember (take k l) as pre eqn:Hpre. remember (drop (S k) l) as post eqn:Hpost.
  clear Hpre Hpost Hk. subst l.
  rewrite filter_app, filter_cons_True by done. by apply list_lookup_middle.
Qed.

Lemma filter_take_S {A} (P : A -> Prop) `{!forall x, Decision (P x)} l k x :
  l !! k = Some x ->
  filter P (take (S k) l) = filter P (take k l) ++ (if decide (P x) then [x] else []).
Proof.
  intros Hk. rewrite (take_S_r l k x Hk), filter_app.
  destruct (decide (P x)); [by rewrite filter_cons_True | by rewrite filter_cons_False].
Qed.

Section WithRuntime.
Context `{RT : Runtime}.

Lemma item_of_reports {A} (raw : A -> value) parse (records : list A) offset jobId
    item message type :
  item_of parse records offset item ->
  reports raw parse records offset jobId
    (mkImportError jobId (item_recordIndex item) (VObj (item_record item))
       message type).
Proof.
  intros (k & record & Hk & Hidx & Hparse). exists k, record.
  split_and!; [done | done | done |]. right. eauto.
Qed.

Lemma raw_reports {A} (raw : A -> value) parse (records : list A) offset jobId
    (k : nat) record message type :
  records !! k = Some record ->
  reports raw parse records offset jobId
    (mkImportError jobId (Z.of_nat k + offset) (raw record) message type).
Proof. intros Hk. exists k, record. split_and!; [done.. |]. by left. Qed.

(** Flushing adds rows of the batch only and leaves the index alone. *)
Lemma flush_when_full_outcome {A} (raw : A -> value) parse (records : list A)
    offset jobId resource processed st :
  Forall (item_of parse records offset) (l_batch st) ->
  outcome (added_errors (reports raw parse records offset jobId))
    (fun st' => l_recordIndex st' = l_recordIndex st /\
                l_headers st' = l_headers st /\
                Forall (item_of parse records offset) (l_batch st'))
    (flush_when_full jobId resource processed st).
Proof.
  intros Hbatch. unfold flush_when_full. destruct (batch_full st).
  - eapply outcome_bind; [tc_solve | |].
    + rule outcome_frame. apply added_processBatch.
      intros item message type Hitem. apply item_of_reports.
      rewrite Forall_forall in Hbatch. by apply Hbatch.
    + intros result _. eapply outcome_bind; [tc_solve | |].
      * rule outcome_frame. apply added_of_same_jobs, same_jobs_metrics.
      * intros _ _. by rule outcome_ret.
  - by rule outcome_ret.
Qed.

Lemma flush_rest_frame {A} (raw : A -> value) parse (records : list A)
    offset jobId resource st :
  Forall (item_of parse records offset) (l_batch st) ->
  frame (added_errors (reports raw parse records offset jobId))
    (flush_rest jobId resource st).
Proof.
  intros Hbatch. unfold flush_rest. destruct (_ <? _)%nat; [| by rule frame_ret].
  rule frame_bind; [| intros; by rule frame_ret].
  apply added_processBatch. intros item message type Hitem.
  apply item_of_reports. rewrite Forall_forall in Hbatch. by apply Hbatch.
Qed.

(** The [catch] clause of the line loops. *)
Lemma catch_outcome {A} (raw : A -> value) parse (records : list A) offset jobId
    (k : nat) record st error (post : Locals -> Prop) :
  records !! k = Some record ->
  post (count_error st) ->
  outcome (added_errors (reports raw parse records offset jobId)) post
    (recordError jobId (Z.of_nat k + offset) (raw record) error ;;
     ret (count_error st)).
Proof.
  intros Hk Hpost. eapply outcome_bind; [tc_solve | |].
  - rule outcome_frame. apply added_recordError. intros. by apply raw_reports.
  - intros _ _. by rule outcome_ret.
Qed.

(** *** NDJSON *)

Lemma ndjson_line_outcome jobId resource content k line st :
  fs.lines content !! k = Some line ->
  ndjson_inv resource content k st ->
  outcome
    (added_errors (reports VStr (parse_line resource) (ndjson_records content) 0 jobId))
    (ndjson_inv resource content (S k))
    (ndjson_line jobId resource st line).
Proof.
  intros Hk [Hidx Hbatch]. unfold ndjson_line, ndjson_inv.
  rewrite (filter_take_S _ _ _ _ Hk).
  destruct (is_blank line) eqn:Hblank.
  - rule outcome_ret. rewrite decide_False by (unfold nonblank; congruence).
    by rewrite app_nil_r.
  - assert (Hline : nonblank line) by done.
    rewrite decide_True by done. rewrite length_app. simpl length.
    set (j := length (filter nonblank (take k (fs.lines content)))) in *.
    assert (Hrecord : ndjson_records content !! j = Some line).
    { by apply filter_position. }
    cbv zeta. replace (l_recordIndex st) with (Z.of_nat j + 0)%Z by lia.
    destruct (parse_line resource line) as [error|validated] eqn:Hparse.
    + apply (catch_outcome VStr); [done |]. simpl. split; [lia | done].
    + assert (Hpushed : Forall (item_of (parse_line resource) (ndjson_records content) 0)
                          (l_batch (push (mkItem (Z.of_nat j + 0) validated)
                                      (next_index st)))).
      { simpl. apply Forall_app. split; [done |]. constructor; [| done].
        by exists j, line. }
      rule outcome_try_catch.
      * eapply outcome_weaken;
          [| by apply (flush_when_full_outcome VStr (parse_line resource))].
        simpl. intros st' (-> & _ & ?). split; [lia | done].
      * intros error. apply (catch_outcome VStr); [done |]. simpl.
        split; [lia | done].
Qed.

Lemma readFile_found path s content :
  files s !! path = Some content -> fs.readFile path s = (s, inr content).
Proof. intros H. unfold fs.readFile, bind, gets. simpl. by rewrite H. Qed.

(** The last statements of the line loops add no error. *)
Lemma report_counts_frame Q jobId processed errors counts :
  frame (added_errors Q)
    (metricsTracker.updateProgress jobId processed errors ;;
     updateJobCounts jobId counts ;; ret tt).
Proof.
  rule frame_bind; [apply added_of_same_jobs, same_jobs_metrics |]. intros _.
  rule frame_bind; [apply added_updateJobCounts |]. intros _. by rule frame_ret.
Qed.

Lemma processNdjsonFile_errors jobId resource path s content :
  files s !! path = Some content ->
  added_errors (reports VStr (parse_line resource) (ndjson_records content) 0 jobId)
    s (processNdjsonFile jobId resource path s).1.
Proof.
  intros Hfile. unfold processNdjsonFile. unfold bind at 1.
  rewrite (readFile_found _ _ _ Hfile). cbv beta iota.
  match goal with |- added_errors ?Q s (?m s).1 =>
    enough (outcome (added_errors Q) (fun _ => True) m) as H
      by exact (proj1 (H s)) end.
  eapply outcome_bind; [tc_solve | |].
  - apply outcome_foldM with (inv := ndjson_inv resource content) (n := 0); try tc_solve.
    + intros k line st Hk Hinv. by apply ndjson_line_outcome.
    + split; [done | constructor].
  - intros st [_ Hbatch]. rule outcome_frame.
    rule frame_bind; [by apply (flush_rest_frame VStr) |]. intros st'.
    apply report_counts_frame.
Qed.

(** *** CSV *)

Lemma csv_line_outcome jobId resource content k line st :
  fs.lines content !! k = Some line ->
  csv_inv resource content k st ->
  outcome
    (added_errors (reports VStr (parse_csv_line resource (csv_headers content))
                     (csv_records content) 1 jobId))
    (csv_inv resource content (S k))
    (csv_line jobId resource st line).
Proof.
  intros Hk (Hidx & Hheaders & Hbatch). unfold csv_line, csv_inv in *. cbv zeta in *.
  rewrite (filter_take_S _ _ _ _ Hk).
  destruct (is_blank line) eqn:Hblank.
  - rule outcome_ret. rewrite decide_False by (unfold nonblank; congruence).
    by rewrite app_nil_r.
  - assert (Hline : nonblank line) by done.
    rewrite decide_True by done. rewrite length_app. simpl length.
    set (m := length (filter nonblank (take k (fs.lines content)))) in *.
    assert (Hnth : nonblank_lines content !! m = Some line).
    { by apply filter_position. }
    destruct (l_recordIndex st =? 0)%Z eqn:Hzero.
    + assert (m = 0) as Hm by lia. rewrite Hm in *.
      rule outcome_ret. simpl. split_and!; [lia | | done].
      intros _. unfold csv_headers.
      destruct (nonblank_lines content) as [|header rest]; [done |].
      by injection Hnth as ->.
    + assert (m <> 0) as Hm by lia.
      destruct m as [|j]; [done |].
      assert (Hrecord : csv_records content !! j = Some line).
      { unfold csv_records. by rewrite lookup_tail. }
      replace (l_recordIndex st) with (Z.of_nat j + 1)%Z by lia.
      simpl l_headers. rewrite (Hheaders Hm).
      fold (parse_csv_line resource (csv_headers content) line).
      destruct (parse_csv_line resource (csv_headers content) line)
        as [error|validated] eqn:Hparse.
      * apply (catch_outcome VStr); [done |]. simpl.
        split_and!; [lia | by rewrite Hheaders | done].
      * assert (Hpushed :
          Forall (item_of (parse_csv_line resource (csv_headers content))
                    (csv_records content) 1)
            (l_batch (push (mkItem (Z.of_nat j + 1) validated) (next_index st)))).
        { simpl. apply Forall_app. split; [done |]. constructor; [| done].
          by exists j, line. }
        rule outcome_try_catch.
        -- eapply outcome_weaken;
             [| by apply (flush_when_full_outcome VStr
                            (parse_csv_line resource (csv_headers content)))].
           simpl. intros st' (-> & -> & ?). split_and!; [lia | by rewrite Hheaders | done].
        -- intros error. apply (catch_outcome VStr); [done |]. simpl.
           split_and!; [lia | by rewrite Hheaders | done].
Qed.

Lemma processCsvFile_errors jobId resource path s content :
  files s !! path = Some content ->
  added_errors (reports VStr (parse_csv_line resource (csv_headers content))
                  (csv_records content) 1 jobId)
    s (processCsvFile jobId resource path s).1.
Proof.
  intros Hfile. unfold processCsvFile. unfold bind at 1.
  rewrite (readFile_found _ _ _ Hfile). cbv beta iota.
  match goal with |- added_errors ?Q s (?m s).1 =>
    enough (outcome (added_errors Q) (fun _ => True) m) as H
      by exact (proj1 (H s)) end.
  eapply outcome_bind; [tc_solve | |].
  - apply outcome_foldM with (inv := csv_inv resource content) (n := 0); try tc_solve.
    + intros k line st Hk Hinv. by apply csv_line_outcome.
    + unfold csv_inv. simpl. split_and!; [done | done | constructor].
  - intros st (_ & _ & Hbatch). rule outcome_frame.
    rule frame_bind; [by apply (flush_rest_frame VStr) |]. intros st'.
    cbv zeta. apply report_counts_frame.
Qed.

(** *** JSON arrays *)

Lemma json_record_outcome jobId resource records k record st :
  records !! k = Some record ->
  json_inv resource records k st ->
  outcome
    (added_errors (reports (fun v => v) (validateRecord resource) records 0 jobId))
    (json_inv resource records (S k))
    (json_record jobId resource st record).
Proof.
  intros Hk [Hidx Hbatch]. unfold json_record, json_inv. cbv zeta.
  replace (l_recordIndex st) with (Z.of_nat k + 0)%Z by lia.
  apply outcome_bind with
    (mid := fun st' => l_recordIndex st' = Z.of_nat k /\
            Forall (item_of (validateRecord resource) records 0) (l_batch st'));
    try tc_solve.
  - destruct (validateRecord resource record) as [error|validated] eqn:Hparse.
    + apply (catch_outcome (fun v => v)); [done |]. simpl. split; [lia | done].
    + assert (Hpushed : Forall (item_of (validateRecord resource) records 0)
                          (l_batch (push (mkItem (Z.of_nat k + 0) validated) st))).
      { simpl. apply Forall_app. split; [done |]. constructor; [| done].
        by exists k, record. }
      rule outcome_try_catch.
      * eapply outcome_weaken;
          [| by apply (flush_when_full_outcome (fun v => v) (validateRecord resource))].
        simpl. intros st' (-> & _ & ?). split; [lia | done].
      * intros error. apply (catch_outcome (fun v => v)); [done |]. simpl.
        split; [lia | done].
  - intros st' [Hidx' Hbatch']. rule outcome_ret. simpl. split; [lia | done].
Qed.

Lemma processJsonFile_errors jobId resource path s content records :
  files s !! path = Some content ->
  JSON_parse content = inr (VArr records) ->
  added_errors (reports (fun v => v) (validateRecord resource) records 0 jobId)
    s (processJsonFile jobId resource path s).1.
Proof.
  intros Hfile Hparse. unfold processJsonFile. unfold bind at 1.
  rewrite (readFile_found _ _ _ Hfile). cbv beta iota. rewrite Hparse.
  match goal with |- added_errors ?Q s (?m s).1 =>
    enough (outcome (added_errors Q) (fun _ => True) m) as H
      by exact (proj1 (H s)) end.
  eapply outcome_bind; [tc_solve | |].
  { rule outcome_frame. apply added_updateJobCounts. }
  intros _ _. eapply outcome_bind; [tc_solve | |].
  - apply outcome_foldM with (inv := json_inv resource records) (n := 0); try tc_solve.
    + intros k record st Hk Hinv. by apply json_record_outcome.
    + split; [done | constructor].
  - intros st [_ Hbatch]. rule outcome_frame.
    rule frame_bind; [by apply (flush_rest_frame (fun v => v)) |]. intros st'.
    apply report_counts_frame.
Qed.

End WithRuntime.
End IndexFacts.

Module C3.
Import importProcessor Relations Sources IndexFacts.

Section WithRuntime.
Context `{RT : Runtime}.


End WithRuntime.
End C3.

#[local] Existing Instance Sample.runtime.



(** ** C1: the counters of a job against the records of its source *)

Module TallyFacts.
Import importRepository importProcessor StoreFacts Relations Frames Batches
  BatchFacts Sources IndexFacts Tally.

(** A loop whose body neither fails nor breaks the invariant runs to its
    end. *)
Lemma foldM_total {A B} (f : B -> A -> M B) (I : nat -> B -> Store -> Prop) l :
  (forall k x b s, l !! k = Some x -> I k b s ->
     exists s' b', f b x s = (s', inr b') /\ I (S k) b' s') ->
  forall b s, I 0%nat b s ->
  exists s' b', foldM f l b s = (s', inr b') /\ I (length l) b' s'.
Proof.
  intros Hstep.
  enough (forall rest pre b s, l = pre ++ rest -> I (length pre) b s ->
            exists s' b', foldM f rest b s = (s', inr b') /\ I (length l) b' s') as H.
  { intros b s H0. by apply (H l [] b s). }
  induction rest as [|x rest IH]; intros pre b s Hl HI.
  - exists s, b. rewrite Hl, app_nil_r. done.
  - simpl. unfold bind.
    destruct (Hstep (length pre) x b s) as (s1 & b1 & -> & HI1);
      [rewrite Hl; by apply list_lookup_middle | done |].
    apply (IH (pre ++ [x])); [by rewrite <-app_assoc |].
    rewrite length_app. simpl. by rewrite Nat.add_1_r.
Qed.

Section Counting.
Context {A : Type} (raw : A -> value) (parse : A -> exn + obj)
  (records : list A) (jobId : Z) (total : Z) (s0 : Store).

#[local] Abbreviation counted := (counted raw parse records jobId total s0).

(** The loops read the counters and the batch only. *)
Lemma counted_same n e st st' s :
  l_successCount st' = l_successCount st ->
  l_errorCount st' = l_errorCount st ->
  l_batch st' = l_batch st ->
  counted n e st s -> counted n e st' s.
Proof. unfold Tally.counted. intros -> -> ->. done. Qed.

(** An invalid record: one error more, and its row. *)
Lemma counted_reject n e st s record index err :
  counted n e st s -> record ∈ records -> invalid parse record ->
  exists s',
    recordError jobId index (raw record) err s = (s', inr tt) /\
    counted (S n) (S e) (count_error st) s'.
Proof.
  intros (Hf & (job & Hjob & Htotal) & Hsum & Hpos & Hlen & Hbatch
          & rejected & failed & ((new & Herrs & Hperm) & Hrej & Hfail) & He & Hcount)
         Hin Hinv.
  destruct (recordError_ok jobId index (raw record) err s job Hf Hjob)
    as (msg & ty & ->).
  eexists. split; [done |]. unfold Tally.counted. simpl.
  split_and!; [done | by eexists | lia | done | done | done |].
  exists (rejected ++ [mkImportError jobId index (raw record) msg ty]), failed.
  split_and!.
  - split_and!; [| | done].
    + exists (new ++ [mkImportError jobId index (raw record) msg ty]). simpl.
      split; [by rewrite Herrs, <-app_assoc |].
      rewrite Hperm, <-!app_assoc. f_equiv. apply Permutation_app_comm.
    + apply Forall_app. split; [done |]. constructor; [| done].
      split; [done |]. by exists record.
  - rewrite length_app. simpl. lia.
  - rewrite length_app. simpl. lia.
Qed.

(** A batch that ran: its successes and errors are counted, its errors
    have their rows. *)
Lemma counted_batch resource n e st s :
  faults s = [] ->
  (exists job, importJobs s !! jobId = Some job /\ ij_totalRecords job = total) ->
  (l_successCount st + l_errorCount st + Z.of_nat (length (l_batch st))
   = Z.of_nat n)%Z ->
  (0 <= l_successCount st)%Z ->
  Forall (valid_item parse records) (l_batch st) ->
  (exists rejected failed,
      errors_split raw parse records jobId s0 s rejected failed /\
      length rejected = e /\
      l_errorCount st = Z.of_nat (length rejected + length failed)) ->
  exists s' r,
    processBatch jobId resource (l_batch st) s = (s', inr r) /\
    counted n e (clear_batch (add_result r st)) s'.
Proof.
  intros Hf (job & Hjob & Htotal) Hsum Hpos Hbatch
    (rejected & failed & ((new & Herrs & Hperm) & Hrej & Hfail) & He & Hcount).
  destruct (processBatch_ok jobId resource (l_batch st) s job Hf Hjob)
    as (s' & r & Hrun & Hf' & Hs & Her & Hr & Hjobs & rows & Herrs' & Hrows & Hitems).
  exists s', r. split; [done |]. unfold Tally.counted. simpl.
  split_and!; [done | | lia | lia | unfold BATCH_SIZE; lia | done |].
  - eexists. rewrite Hjobs, lookup_insert_eq. split; [done |]. done.
  - exists rejected, (failed ++ rows). split_and!.
    + split_and!; [| done |].
      * exists (new ++ rows). split; [by rewrite Herrs', Herrs, <-app_assoc |].
        by rewrite Hperm, <-app_assoc.
      * apply Forall_app. split; [done |].
        eapply Forall_impl; [done |]. intros row (item & Hitem & Hrow).
        exists item. split; [| done].
        by eapply (proj1 (Forall_forall _ _) Hbatch).
    + done.
    + rewrite length_app. lia.
Qed.

(** A valid record: it joins the batch, and a full batch runs. *)
Lemma counted_push resource n e st s item processed catch :
  counted n e st s -> valid_item parse records item ->
  exists s' st',
    try_catch (flush_when_full jobId resource processed (push item st)) catch s
    = (s', inr st') /\
    counted (S n) e st' s' /\
    l_recordIndex st' = l_recordIndex st /\ l_headers st' = l_headers st.
Proof.
  intros (Hf & Hjob & Hsum & Hpos & Hlen & Hbatch & Hrows) Hitem.
  unfold flush_when_full, try_catch.
  assert (Hpushed : Forall (valid_item parse records) (l_batch (push item st))).
  { simpl. apply Forall_app. split; [done | by constructor]. }
  destruct (batch_full (push item st)) eqn:Hfull.
  - unfold bind.
    destruct (counted_batch resource (S n) e (push item st) s)
      as (s' & r & -> & Hcounted); try done.
    { simpl. rewrite length_app. simpl. lia. }
    unfold metricsTracker.updateProgress, modify, ret. simpl.
    eexists _, _. split; [done |]. split_and!; [| done | done].
    destruct Hcounted as (? & ? & ? & ? & ? & ? & ?).
    unfold Tally.counted. simpl. split_and!; done.
  - unfold ret. eexists _, _. split; [done |]. split_and!; [| done | done].
    unfold Tally.counted. split_and!; try done.
    + simpl. rewrite length_app. simpl. lia.
    + unfold batch_full in Hfull. apply Nat.leb_gt in Hfull. done.
Qed.

(** After the loop, what is left of the batch runs. *)
Lemma counted_flush_rest resource n e st s :
  counted n e st s ->
  exists s' st',
    flush_rest jobId resource st s = (s', inr st') /\
    counted n e (clear_batch st') s' /\
    (l_successCount st' + l_errorCount st' = Z.of_nat n)%Z /\
    l_recordIndex st' = l_recordIndex st.
Proof.
  intros Hc. pose proof Hc as (Hf & Hjob & Hsum & Hpos & Hlen & Hbatch & Hrows).
  unfold flush_rest. destruct (0 <? length (l_batch st))%nat eqn:Hrest.
  - unfold bind.
    destruct (counted_batch resource n e st s) as (s' & r & -> & Hcounted);
      try done.
    unfold ret. eexists _, _. split; [done |].
    split_and!; [done | | done].
    destruct Hcounted as (_ & _ & Hsum' & _). simpl in Hsum'. simpl. lia.
  - apply Nat.ltb_ge in Hrest. assert (l_batch st = []) as Hnil.
    { destruct (l_batch st); [done | simpl in Hrest; lia]. }
    unfold ret. eexists _, _. split; [done |].
    rewrite Hnil in Hsum. simpl in Hsum. split_and!; [| lia | done].
    revert Hc. unfold Tally.counted. simpl. rewrite Hnil. simpl.
    intros (? & ? & ? & ? & ? & ? & ?). split_and!; try done.
Qed.

(** The last statements of a file loop: the local counters go to the
    job. *)
Lemma counted_finish n e st s processed (tot : option Z) :
  counted n e (clear_batch st) s ->
  (l_successCount st + l_errorCount st = Z.of_nat n)%Z ->
  n = length records -> e = length (filter (invalid parse) records) ->
  exists s',
    (metricsTracker.updateProgress jobId processed (l_errorCount st) ;;
     updateJobCounts jobId
       (mkCounts tot (Some (SetTo (l_successCount st)))
          (Some (SetTo (l_errorCount st)))) ;;
     ret tt) s = (s', inr tt) /\
    tallied raw parse records jobId (default total tot) s0 (s', inr tt).
Proof.
  intros (Hf & (job & Hjob & Htotal) & _ & Hpos & _ & _
          & rejected & failed & (Hnew & Hrej & Hfail) & He & Hcount) Hsum Hn Hinv.
  simpl in *. unfold bind, metricsTracker.updateProgress, modify, ret.
  rewrite (updateJobCounts_ok _ _ _ job) by done.
  eexists. split; [done |]. split; [done |]. split; [done |]. simpl.
  eexists _, rejected, failed. rewrite lookup_insert_eq.
  split_and!; [done | | | done | done | congruence | done].
  - simpl. by rewrite Htotal.
  - simpl. lia.
Qed.

End Counting.

Section WithRuntime.
Context `{RT : Runtime}.

Lemma counted_initial {A} (raw : A -> value) parse records jobId s0 s job :
  faults s = [] -> importJobs s !! jobId = Some job ->
  importErrors s = importErrors s0 ->
  counted raw parse records jobId (ij_totalRecords job) s0 0 0 initial_locals s.
Proof.
  intros Hf Hjob Herrs. unfold counted. simpl.
  split_and!; [done | by eexists | done | done | unfold BATCH_SIZE; lia | done |].
  exists [], []. split_and!; [| done | done].
  split_and!; [| done | done]. exists []. by rewrite app_nil_r.
Qed.

Lemma invalid_snoc {A} (parse : A -> exn + obj) l x :
  length (filter (invalid parse) (l ++ [x]))
  = (length (filter (invalid parse) l)
     + (if decide (invalid parse x) then 1 else 0))%nat.
Proof.
  rewrite filter_app, length_app. f_equal.
  destruct (decide (invalid parse x));
    [by rewrite filter_cons_True | by rewrite filter_cons_False].
Qed.

Lemma nonblank_line_in content k line :
  fs.lines content !! k = Some line -> nonblank line ->
  line ∈ nonblank_lines content.
Proof.
  intros Hk Hline. apply list_elem_of_filter. split; [done |].
  by eapply list_elem_of_lookup_2.
Qed.

(** The body of the NDJSON loop counts its line. *)
Lemma ndjson_line_counted jobId resource content total s0 k line st s :
  let m := length (filter nonblank (take k (fs.lines content))) in
  let seen := filter nonblank (take k (fs.lines content)) in
  let seen' := filter nonblank (take (S k) (fs.lines content)) in
  fs.lines content !! k = Some line ->
  l_recordIndex st = Z.of_nat (length seen) ->
  counted VStr (parse_line resource) (ndjson_records content) jobId total s0
    (length seen) (length (filter (invalid (parse_line resource)) seen)) st s ->
  exists s' st',
    ndjson_line jobId resource st line s = (s', inr st') /\
    l_recordIndex st' = Z.of_nat (length seen') /\
    counted VStr (parse_line resource) (ndjson_records content) jobId total s0
      (length seen') (length (filter (invalid (parse_line resource)) seen')) st' s'.
Proof.
  intros m seen seen' Hk Hindex Hc. subst seen'.
  rewrite (filter_take_S _ _ _ _ Hk). fold seen. unfold ndjson_line.
  destruct (is_blank line) eqn:Hblank.
  - rewrite decide_False by (unfold nonblank; congruence). rewrite app_nil_r.
    by exists s, st.
  - assert (Hline : nonblank line) by done.
    rewrite decide_True by done. rewrite invalid_snoc, length_app. simpl length.
    rewrite !Nat.add_1_r.
    pose proof (nonblank_line_in _ _ _ Hk Hline) as Hin. cbv zeta.
    destruct (parse_line resource line) as [error|validated] eqn:Hparse.
    + assert (Hinv : invalid (parse_line resource) line)
        by (unfold invalid; by rewrite Hparse).
      rewrite decide_True by done. rewrite Nat.add_1_r.
      destruct (counted_reject VStr (parse_line resource) (ndjson_records content)
                  jobId total s0 (length seen)
                  (length (filter (invalid (parse_line resource)) seen))
                  (next_index st) s line (l_recordIndex st) error)
        as (s' & Hrun & Hc'); [by eapply counted_same | done | done |].
      unfold bind. rewrite Hrun. eexists _, _. split; [done |].
      split; [simpl; lia | exact Hc'].
    + assert (Hval : ~ invalid (parse_line resource) line).
      { unfold invalid. rewrite Hparse. tauto. }
      rewrite decide_False by done. rewrite Nat.add_0_r.
      edestruct (counted_push VStr (parse_line resource) (ndjson_records content)
                  jobId total s0 resource (length seen)
                  (length (filter (invalid (parse_line resource)) seen))
                  (next_index st) s (mkItem (l_recordIndex st) validated))
        as (s' & st' & Hrun & Hc' & Hi & _);
        [by eapply counted_same | | ].
      { exists line. split; [done |]. simpl. exact Hparse. }
      rewrite Hrun. eexists _, _. split; [done |].
      split; [rewrite Hi; simpl; lia | exact Hc'].
Qed.

Lemma bind_ok {A B} (m : M A) (k : A -> M B) s s' a :
  m s = (s', inr a) -> (let* x := m in k x) s = k a s'.
Proof. unfold bind. by intros ->. Qed.

Lemma processNdjsonFile_tallied jobId resource path s content job :
  faults s = [] -> importJobs s !! jobId = Some job ->
  files s !! path = Some content ->
  tallied VStr (parse_line resource) (ndjson_records content) jobId
    (Z.of_nat (length (ndjson_records content))) s
    (processNdjsonFile jobId resource path s).
Proof.
  intros Hf Hjob Hfile. unfold processNdjsonFile.
  rewrite (bind_ok _ _ _ _ _ (readFile_found _ _ _ Hfile)).
  destruct (foldM_total (ndjson_line jobId resource)
              (fun k st s' =>
                 let seen := filter nonblank (take k (fs.lines content)) in
                 l_recordIndex st = Z.of_nat (length seen) /\
                 counted VStr (parse_line resource) (ndjson_records content) jobId
                   (ij_totalRecords job) s (length seen)
                   (length (filter (invalid (parse_line resource)) seen)) st s')
              (fs.lines content)) with (b := initial_locals) (s := s)
    as (s1 & st1 & Hloop & Hindex & Hc).
  { intros k line st s' Hk [Hi Hc].
    destruct (ndjson_line_counted jobId resource content (ij_totalRecords job) s
                k line st s' Hk Hi Hc) as (s'' & st' & ? & ? & ?).
    by exists s'', st'. }
  { simpl. split; [done |]. by apply counted_initial. }
  rewrite take_ge in Hindex, Hc by done. cbv zeta in Hindex, Hc.
  rewrite (bind_ok _ _ _ _ _ Hloop).
  destruct (counted_flush_rest _ _ _ _ _ _ resource _ _ _ _ Hc)
    as (s2 & st2 & Hrest & Hc2 & Hsum & Hi2).
  rewrite (bind_ok _ _ _ _ _ Hrest).
  destruct (counted_finish _ _ _ _ _ _ _ _ st2 s2 (l_recordIndex st2)
              (Some (l_recordIndex st2)) Hc2 Hsum eq_refl eq_refl)
    as (s3 & -> & Hdone).
  simpl in Hdone. by rewrite Hi2, Hindex in Hdone.
Qed.

Lemma lookup_tail_elem {A} (l : list A) m x :
  m <> 0%nat -> l !! m = Some x -> x ∈ tail l.
Proof.
  intros Hm Hx. destruct m as [|m]; [done |]. destruct l as [|y l]; [done |].
  simpl in *. by eapply list_elem_of_lookup_2.
Qed.

Lemma tail_snoc {A} (l : list A) x :
  l <> [] -> tail (l ++ [x]) = tail l ++ [x].
Proof. by destruct l. Qed.

(** The body of the CSV loop counts its line, the header apart. *)
Lemma csv_line_counted jobId resource content total s0 k line st s :
  let seen := filter nonblank (take k (fs.lines content)) in
  let seen' := filter nonblank (take (S k) (fs.lines content)) in
  let parse := parse_csv_line resource (csv_headers content) in
  fs.lines content !! k = Some line ->
  l_recordIndex st = Z.of_nat (length seen) ->
  (seen <> [] -> l_headers st = csv_headers content) ->
  counted VStr parse (csv_records content) jobId total s0
    (length (tail seen)) (length (filter (invalid parse) (tail seen))) st s ->
  exists s' st',
    csv_line jobId resource st line s = (s', inr st') /\
    l_recordIndex st' = Z.of_nat (length seen') /\
    (seen' <> [] -> l_headers st' = csv_headers content) /\
    counted VStr parse (csv_records content) jobId total s0
      (length (tail seen')) (length (filter (invalid parse) (tail seen'))) st' s'.
Proof.
  intros seen seen' parse Hk Hindex Hheaders Hc. subst seen'.
  rewrite (filter_take_S _ _ _ _ Hk). fold seen. unfold csv_line.
  destruct (is_blank line) eqn:Hblank.
  - rewrite decide_False by (unfold nonblank; congruence). rewrite app_nil_r.
    by exists s, st.
  - assert (Hline : nonblank line) by done.
    rewrite decide_True by done.
    assert (Hnth : nonblank_lines content !! length seen = Some line).
    { by apply filter_position. }
    destruct (l_recordIndex st =? 0)%Z eqn:Hzero.
    + assert (seen = []) as Hnil.
      { destruct seen; [done | simpl in Hindex; lia]. }
      rewrite Hnil in *. simpl in *. unfold ret. eexists _, _. split; [done |].
      split_and!; [simpl; lia | | by eapply counted_same].
      intros _. simpl. unfold csv_headers.
      destruct (nonblank_lines content) as [|header rest]; [done |].
      simpl in Hnth. by injection Hnth as ->.
    + assert (seen <> []) as Hsome.
      { intros Hnil. rewrite Hnil in Hindex. simpl in Hindex. lia. }
      rewrite tail_snoc by done. rewrite invalid_snoc, !length_app. simpl length.
      rewrite !Nat.add_1_r.
      assert (Hin : line ∈ csv_records content).
      { apply (lookup_tail_elem _ (length seen)); [| done].
        by destruct seen. }
      cbv zeta. change (l_headers (next_index st)) with (l_headers st).
      rewrite (Hheaders Hsome).
      change (validateRecord resource
                (VObj (csv_record (csv_headers content) (csv_cells line))))
        with (parse line).
      destruct (parse line) as [error|validated] eqn:Hparse.
      * assert (Hinv : invalid parse line)
          by (unfold invalid; by rewrite Hparse).
        rewrite decide_True by done. rewrite Nat.add_1_r.
        destruct (counted_reject VStr parse (csv_records content)
                    jobId total s0 (length (tail seen))
                    (length (filter (invalid parse) (tail seen)))
                    (next_index st) s line (l_recordIndex st) error)
          as (s' & Hrun & Hc'); [by eapply counted_same | done | done |].
        unfold bind. rewrite Hrun. eexists _, _. split; [done |].
        split_and!; [simpl; lia | intros _; simpl; auto | exact Hc'].
      * assert (Hval : ~ invalid parse line).
        { unfold invalid. rewrite Hparse. tauto. }
        rewrite decide_False by done. rewrite Nat.add_0_r.
        edestruct (counted_push VStr parse (csv_records content)
                    jobId total s0 resource (length (tail seen))
                    (length (filter (invalid parse) (tail seen)))
                    (next_index st) s (mkItem (l_recordIndex st) validated))
          as (s' & st' & Hrun & Hc' & Hi & Hh);
          [by eapply counted_same | | ].
        { exists line. split; [done |]. simpl. exact Hparse. }
        rewrite Hrun. eexists _, _. split; [done |].
        split_and!; [rewrite Hi; simpl; lia | intros _; rewrite Hh; simpl; auto
                    | exact Hc'].
Qed.

Lemma processCsvFile_tallied jobId resource path s content job :
  faults s = [] -> importJobs s !! jobId = Some job ->
  files s !! path = Some content ->
  tallied VStr (parse_csv_line resource (csv_headers content))
    (csv_records content) jobId
    (Z.of_nat (length (nonblank_lines content)) - 1)%Z s
    (processCsvFile jobId resource path s).
Proof.
  intros Hf Hjob Hfile. unfold processCsvFile.
  rewrite (bind_ok _ _ _ _ _ (readFile_found _ _ _ Hfile)).
  set (parse := parse_csv_line resource (csv_headers content)).
  destruct (foldM_total (csv_line jobId resource)
              (fun k st s' =>
                 let seen := filter nonblank (take k (fs.lines content)) in
                 l_recordIndex st = Z.of_nat (length seen) /\
                 (seen <> [] -> l_headers st = csv_headers content) /\
                 counted VStr parse (csv_records content) jobId
                   (ij_totalRecords job) s (length (tail seen))
                   (length (filter (invalid parse) (tail seen))) st s')
              (fs.lines content)) with (b := initial_locals) (s := s)
    as (s1 & st1 & Hloop & Hindex & _ & Hc).
  { intros k line st s' Hk (Hi & Hh & Hc).
    destruct (csv_line_counted jobId resource content (ij_totalRecords job) s
                k line st s' Hk Hi Hh Hc) as (s'' & st' & ? & ? & ? & ?).
    by exists s'', st'. }
  { simpl. split_and!; [done | done |]. by apply counted_initial. }
  rewrite take_ge in Hindex, Hc by done. cbv zeta in Hindex, Hc.
  rewrite (bind_ok _ _ _ _ _ Hloop).
  destruct (counted_flush_rest _ _ _ _ _ _ resource _ _ _ _ Hc)
    as (s2 & st2 & Hrest & Hc2 & Hsum & Hi2).
  rewrite (bind_ok _ _ _ _ _ Hrest). cbv zeta.
  destruct (counted_finish _ _ _ _ _ _ _ _ st2 s2 (l_recordIndex st2 - 1)%Z
              (Some (l_recordIndex st2 - 1)%Z) Hc2 Hsum eq_refl eq_refl)
    as (s3 & -> & Hdone).
  simpl in Hdone. by rewrite Hi2, Hindex in Hdone.
Qed.

(** The body of the loop over a JSON array counts its record. *)
Lemma json_record_counted jobId resource records total s0 k record st s :
  let parse := validateRecord resource in
  records !! k = Some record ->
  l_recordIndex st = Z.of_nat k ->
  counted (fun v => v) parse records jobId total s0 k
    (length (filter (invalid parse) (take k records))) st s ->
  exists s' st',
    json_record jobId resource st record s = (s', inr st') /\
    l_recordIndex st' = Z.of_nat (S k) /\
    counted (fun v => v) parse records jobId total s0 (S k)
      (length (filter (invalid parse) (take (S k) records))) st' s'.
Proof.
  intros parse Hk Hindex Hc.
  rewrite (take_S_r _ _ _ Hk), invalid_snoc. unfold json_record. cbv zeta.
  pose proof (list_elem_of_lookup_2 _ _ _ Hk) as Hin.
  change (validateRecord resource record) with (parse record).
  destruct (parse record) as [error|validated] eqn:Hparse.
  - assert (Hinv : invalid parse record)
      by (unfold invalid; by rewrite Hparse).
    rewrite decide_True by done. rewrite Nat.add_1_r.
    destruct (counted_reject (fun v => v) parse records jobId total s0 k
                (length (filter (invalid parse) (take k records)))
                st s record (l_recordIndex st) error)
      as (s' & Hrun & Hc'); [done | done | done |].
    unfold bind. rewrite Hrun. eexists _, _. split; [done |].
    split; [simpl; lia | by eapply counted_same].
  - assert (Hval : ~ invalid parse record).
    { unfold invalid. rewrite Hparse. tauto. }
    rewrite decide_False by done. rewrite Nat.add_0_r.
    edestruct (counted_push (fun v => v) parse records jobId total s0 resource k
                (length (filter (invalid parse) (take k records)))
                st s (mkItem (l_recordIndex st) validated))
      as (s' & st' & Hrun & Hc' & Hi & _); [done | | ].
    { exists record. split; [done |]. simpl. exact Hparse. }
    unfold bind at 1. rewrite Hrun. eexists _, _. split; [done |].
    split; [simpl; lia | by eapply counted_same].
Qed.

Lemma processJsonFile_tallied jobId resource path s content records job :
  faults s = [] -> importJobs s !! jobId = Some job ->
  files s !! path = Some content ->
  JSON_parse content = inr (VArr records) ->
  tallied (fun v => v) (validateRecord resource) records jobId
    (Z.of_nat (length records)) s
    (processJsonFile jobId resource path s).
Proof.
  intros Hf Hjob Hfile Hparse. unfold processJsonFile.
  rewrite (bind_ok _ _ _ _ _ (readFile_found _ _ _ Hfile)). rewrite Hparse.
  rewrite (bind_ok _ _ _ _ _ (updateJobCounts_ok _ _ _ job Hf Hjob)).
  set (job1 := with_counts
                 (mkCounts (Some (Z.of_nat (length records))) None None) job).
  set (s1 := upd_importJobs _ s).
  assert (Hjob1 : importJobs s1 !! jobId = Some job1) by apply lookup_insert_eq.
  destruct (foldM_total (json_record jobId resource)
              (fun k st s' =>
                 l_recordIndex st = Z.of_nat k /\
                 counted (fun v => v) (validateRecord resource) records jobId
                   (ij_totalRecords job1) s k
                   (length (filter (invalid (validateRecord resource))
                              (take k records))) st s')
              records) with (b := initial_locals) (s := s1)
    as (s2 & st2 & Hloop & Hindex & Hc).
  { intros k record st s' Hk [Hi Hc].
    destruct (json_record_counted jobId resource records (ij_totalRecords job1) s
                k record st s' Hk Hi Hc) as (s'' & st' & ? & ? & ?).
    by exists s'', st'. }
  { split; [done |]. by apply (counted_initial _ _ _ _ s s1 job1). }
  rewrite take_ge in Hc by done.
  rewrite (bind_ok _ _ _ _ _ Hloop).
  destruct (counted_flush_rest _ _ _ _ _ _ resource _ _ _ _ Hc)
    as (s3 & st3 & Hrest & Hc3 & Hsum & Hi3).
  rewrite (bind_ok _ _ _ _ _ Hrest).
  destruct (counted_finish _ _ _ _ _ _ _ _ st3 s3 (Z.of_nat (length records))
              None Hc3 Hsum eq_refl eq_refl)
    as (s4 & -> & Hdone).
  exact Hdone.
Qed.

End WithRuntime.
End TallyFacts.

Module C1.
Import importProcessor Sources Tally TallyFacts.

Section WithRuntime.
Context `{RT : Runtime}.


End WithRuntime.
End C1.



(** ** C7: the worker's cap on active jobs *)

Module WorkerFacts.
Import importWorker Polling.

#[local] Instance ascending_transitive {R} (key : R -> Z) :
  Transitive (ascending key).
Proof. unfold ascending. intros a b c. lia. Qed.

#[local] Instance ascending_total {R} (key : R -> Z) : Total (ascending key).
Proof. unfold ascending. intros a b. lia. Qed.

(** The query returns the earliest eligible jobs. *)
Lemma findPending_earliest {J} (status_of : J -> Status) (createdAt : J -> Z)
    (jobs : gmap Z J) notIn n :
  earliest status_of createdAt jobs notIn n
    (findPending status_of createdAt jobs notIn n).
Proof.
  unfold findPending.
  set (P := fun kj : Z * J => status_of kj.2 = pending /\ kj.1 ∉ notIn).
  set (R := ascending (fun kj : Z * J => createdAt kj.2)).
  set (sorted := merge_sort R (filter P (map_to_list jobs))).
  assert (Hsorted : StronglySorted R (take n sorted ++ drop n sorted)).
  { rewrite take_drop. apply StronglySorted_merge_sort; apply _. }
  assert (Hin : forall kj, kj ∈ sorted <-> jobs !! kj.1 = Some kj.2 /\ P kj).
  { intros kj. unfold sorted. rewrite merge_sort_Permutation.
    rewrite list_elem_of_filter, elem_of_map_to_list'. tauto. }
  split; [rewrite length_fmap, length_take; lia |].
  exists (take n sorted). split_and!; [done | | by eapply StronglySorted_app_1_l |].
  - apply Forall_forall. intros kj Hkj.
    apply (subseteq_take n) in Hkj. apply Hin in Hkj as (? & ? & ?). done.
  - intros id j (Hjob & Hstatus & Hnot) Hmissing.
    assert (Hrow : (id, j) ∈ sorted) by (apply Hin; done).
    rewrite <-(take_drop n sorted) in Hrow.
    apply elem_of_app in Hrow as [Hrow | Hrow].
    { destruct Hmissing. apply list_elem_of_fmap. by exists (id, j). }
    split.
    + rewrite length_fmap, length_take.
      assert (n < length sorted); [| lia].
      destruct (decide (n < length sorted)); [done |].
      rewrite drop_ge in Hrow by lia. by apply elem_of_nil in Hrow.
    + apply Forall_forall. intros kj Hkj.
      apply (StronglySorted_app_1_elem_of _ _ _ kj (id, j) Hsorted Hkj Hrow).
Qed.

Lemma findPending_length {J} (status_of : J -> Status) (createdAt : J -> Z)
    (jobs : gmap Z J) notIn n :
  length (findPending status_of createdAt jobs notIn n) <= n.
Proof. apply findPending_earliest. Qed.

(** Dispatching jobs adds at most their number to the active set, and
    starts no poll. *)
Lemma dispatch_all kind l w :
  size (activeJobs (foldl (dispatch kind) w l)) <= size (activeJobs w) + length l /\
  poll (foldl (dispatch kind) w l) = poll w.
Proof.
  revert w. induction l as [|id l IH]; intros w; simpl; [split; [lia | done] |].
  destruct (IH (dispatch kind w id)) as [Hsize Hpoll]. simpl in *.
  split; [| done].
  assert (size ({[id]} ∪ activeJobs w) <= 1 + size (activeJobs w)); [| lia].
  rewrite size_union_alt, size_singleton.
  assert (size (activeJobs w ∖ {[id]}) <= size (activeJobs w)); [| lia].
  apply subseteq_size. set_solver.
Qed.

Section WithRuntime.
Context `{RT : Runtime}.

Lemma cycle_inv_step w w' : step w w' -> cycle_inv w -> cycle_inv w'.
Proof.
  unfold cycle_inv.
  destruct 1 as [w ? ? ?|w ? ? ?|w a notIn Hp|w a pi notIn Hp|w ?|w t ?|w|w s'];
    simpl; intros [Hsize Hpoll].
  - done.
  - split; [done |]. split; [lia |]. intros id. by rewrite elem_of_elements.
  - rewrite Hp in Hpoll. destruct Hpoll as [Hslots _]. split; [done |].
    split_and!; [done | apply findPending_length |].
    intros id. by rewrite elem_of_elements.
  - rewrite Hp in Hpoll. destruct Hpoll as (Hslots & Hlen & _).
    match goal with |- context [foldl (dispatch ExportKind) ?w1 ?l] =>
      destruct (dispatch_all ExportKind l w1) as [Hs2 Hp2] end.
    match goal with H : context [foldl (dispatch ImportKind) ?w0 ?l] |- _ =>
      destruct (dispatch_all ImportKind l w0) as [Hs1 Hp1] end.
    rewrite Hp2, Hp1. simpl in *. split; [| done].
    assert (length pendingExports <= a - length pi)
      by apply findPending_length.
    lia.
  - done.
  - assert (size (activeJobs w ∖ {[t.2]}) <= size (activeJobs w)) as Hle
      by (apply subseteq_size; set_solver).
    split; [lia |].
    destruct (poll w); [done | |].
    + destruct Hpoll as [? Hnot]. split; [lia |]. intros id Hid. apply Hnot.
      set_solver.
    + destruct Hpoll as (? & ? & Hnot). split_and!; [lia | done |].
      intros id Hid. apply Hnot. set_solver.
  - done.
  - done.
Qed.

Lemma cycle_inv_reachable w : reachable w -> cycle_inv w.
Proof.
  induction 1 as [s|w w' _ IH Hstep].
  - unfold cycle_inv, startWorker. cbn [activeJobs poll]. rewrite size_empty.
    split; [lia | done].
  - by eapply cycle_inv_step.
Qed.

End WithRuntime.
End WorkerFacts.

Module C7.
Import importWorker Polling WorkerFacts.

Section WithRuntime.
Context `{RT : Runtime}.

(** C7: in every state the worker reaches, the active set holds at most
    MAX_CONCURRENT_JOBS = 3 ids. Within a poll cycle, the slots computed at
    its start stay within what is free; the query for import jobs returns
    the earliest pending ones, at most that many, in ascending order of
    creation and none of them active; the query for export jobs does the
    same with the slots the import jobs left; the jobs the cycle
    dispatches are no more than the free slots. A job that settles, with
    either outcome, leaves the active set. *)
Theorem C7_concurrency_cap w :
  reachable w ->
  size (activeJobs w) <= MAX_CONCURRENT_JOBS /\
  (forall availableSlots notIn,
      poll w = AwaitImports availableSlots notIn ->
      let found := findPending ij_status ij_createdAt (importJobs (store w)) notIn
                     availableSlots in
      availableSlots <= MAX_CONCURRENT_JOBS - size (activeJobs w) /\
      earliest ij_status ij_createdAt (importJobs (store w)) notIn availableSlots
        found /\
      (forall id, id ∈ found -> id ∉ activeJobs w)) /\
  (forall availableSlots pendingImports notIn,
      poll w = AwaitExports availableSlots pendingImports notIn ->
      let found := findPending ej_status ej_createdAt (exportJobs (store w)) notIn
                     (availableSlots - length pendingImports) in
      earliest ej_status ej_createdAt (exportJobs (store w)) notIn
        (availableSlots - length pendingImports) found /\
      (forall id, id ∈ found -> id ∉ activeJobs w) /\
      length pendingImports + length found
      <= MAX_CONCURRENT_JOBS - size (activeJobs w)) /\
  (forall t, t.2 ∉ activeJobs (settle t w)).
Proof.
  intros Hw. destruct (cycle_inv_reachable w Hw) as [Hsize Hpoll].
  assert (Hfresh : forall {J} (status_of : J -> Status) createdAt jobs notIn n id,
             (forall id, id ∈ activeJobs w -> id ∈ notIn) ->
             id ∈ findPending status_of createdAt jobs notIn n ->
             id ∉ activeJobs w).
  { intros J status_of createdAt jobs notIn n id Hnot Hid Hactive.
    destruct (findPending_earliest status_of createdAt jobs notIn n)
      as (_ & rows & Hrows & Helig & _).
    rewrite Hrows in Hid. apply list_elem_of_fmap in Hid as (kj & -> & Hkj).
    apply (proj1 (Forall_forall _ _) Helig) in Hkj as (_ & _ & Hout).
    apply Hout, Hnot, Hactive. }
  split_and!.
  - done.
  - intros a notIn Hp. rewrite Hp in Hpoll. destruct Hpoll as [Hslots Hnot].
    cbv zeta. split_and!; [lia | apply findPending_earliest |].
    intros id Hid. by eapply Hfresh.
  - intros a pi notIn Hp. rewrite Hp in Hpoll. destruct Hpoll as (Hslots & Hlen & Hnot).
    cbv zeta. split_and!; [apply findPending_earliest | |].
    + intros id Hid. by eapply Hfresh.
    + pose proof (findPending_length ej_status ej_createdAt (exportJobs (store w))
                    notIn (a - length pi)).
      lia.
  - intros t. simpl. set_solver.
Qed.

End WithRuntime.
End C7.

(** C7 at work: of five pending import jobs the first poll cycle
    dispatches the three created first, and the active set holds their
    ids. *)
Lemma C7_concurrency_cap_witness :
  importWorker.reachable Sample.after_first_poll /\
  importWorker.tasks Sample.after_first_poll
  = [(ImportKind, 1%Z); (ImportKind, 2%Z); (ImportKind, 3%Z)] /\
  size (importWorker.activeJobs Sample.after_first_poll) = 3 /\
  size (importWorker.activeJobs Sample.after_first_poll)
  <= importWorker.MAX_CONCURRENT_JOBS.
Proof.
  assert (Hreach : importWorker.reachable Sample.after_first_poll).
  { assert (size (importWorker.activeJobs
                    (importWorker.startWorker Sample.five_pending))
            < importWorker.MAX_CONCURRENT_JOBS) as Hfree by (vm_compute; lia).
    pose proof (importWorker.reachable_step _ _
                  (importWorker.reachable_start Sample.five_pending)
                  (importWorker.step_poll_begin
                     (importWorker.startWorker Sample.five_pending)
                     eq_refl eq_refl Hfree)) as H1.
    match type of H1 with importWorker.reachable ?w1 =>
      pose proof (importWorker.reachable_step _ _ H1
                    (importWorker.step_imports w1 _ _ eq_refl)) as H2
    end.
    match type of H2 with importWorker.reachable ?w2 =>
      pose proof (importWorker.reachable_step _ _ H2
                    (importWorker.step_exports w2 _ _ _ eq_refl)) as H3
    end.
    vm_compute in H3. vm_compute. exact H3. }
  split_and!; [exact Hreach | vm_compute; reflexivity | vm_compute; reflexivity |].
  exact (proj1 (C7.C7_concurrency_cap _ Hreach)).
Defined.

(** ** C8: the errors of the source fail the job *)

Module SourceFacts.
Import importRepository importProcessor StoreFacts BatchFacts Sources IndexFacts Tally
  TallyFacts SourceErrors.

Lemma updateJobStatus_ok jobId status data s job :
  faults s = [] -> importJobs s !! jobId = Some job ->
  updateJobStatus jobId status data s
  = (upd_statusLog
       (fun l => l ++ [mkWrite ImportKind jobId (ij_status job) status])
       (upd_importJobs
          (fun _ => <[jobId := with_status status data job]> (importJobs s)) s),
     inr (with_status status data job)).
Proof.
  intros Hf Hjob. unfold updateJobStatus, bind, gets. simpl.
  rewrite (importJob_update_ok _ _ _ job Hf Hjob). rewrite Hjob. reflexivity.
Qed.

Lemma startTracking_run jobId s :
  metricsTracker.startTracking jobId s
  = (upd_metrics (fun m => <[jobId := mkMetrics (clock s) 0 0]> m) s, inr tt).
Proof. reflexivity. Qed.

Lemma now_run s : now s = (s, inr (clock s)).
Proof. reflexivity. Qed.

Lemma getJob_ok jobId s :
  faults s = [] -> getJob jobId s = (s, inr (importJobs s !! jobId)).
Proof.
  intros Hf. unfold getJob, prisma.importJob_findUnique, bind, gets, ret.
  by rewrite store_call_ok.
Qed.

(** The [catch] clause marks the job and throws the error again. *)
Lemma fail_job_ok jobId e s job :
  faults s = [] -> importJobs s !! jobId = Some job ->
  exists s',
    fail_job jobId e s = (s', inl e) /\
    faults s' = [] /\
    importJobs s'
    = <[jobId := with_status failed (mkStatusData None (Some (clock s))) job]>
        (importJobs s) /\
    userTable s' = userTable s /\ articleTable s' = articleTable s /\
    commentTable s' = commentTable s /\ importErrors s' = importErrors s /\
    files s' = files s.
Proof.
  intros Hf Hjob. unfold fail_job, now, bind, gets, throw. simpl.
  rewrite (updateJobStatus_ok _ _ _ _ job Hf Hjob).
  eexists. split; [done |]. simpl. done.
Qed.

(** The [finally] clause touches neither the tables nor the jobs, and
    does not throw. *)
Lemma cleanup_ok jobId path downloaded s :
  exists s',
    cleanup jobId path downloaded s = (s', inr tt) /\
    importJobs s' = importJobs s /\
    userTable s' = userTable s /\ articleTable s' = articleTable s /\
    commentTable s' = commentTable s /\ importErrors s' = importErrors s.
Proof.
  unfold cleanup, metricsTracker.finishTracking, fs.existsSync, fs.unlink, bind,
    gets, modify, ret.
  destruct path as [p|]; simpl; [| by eexists].
  destruct (downloaded && _); simpl; by eexists.
Qed.

Lemma bind_err {A B} (m : M A) (k : A -> M B) s s' e :
  m s = (s', inl e) -> (let* x := m in k x) s = (s', inl e).
Proof. unfold bind. by intros ->. Qed.

Section WithRuntime.
Context `{RT : Runtime}.

(** The [try] block from the check of the file on, when the store does
    not fail: it throws the error of the content, before any record is
    read, or it runs to its end and the job is [completed]. *)
Lemma process_source_run jobId job path content s j :
  faults s = [] -> importJobs s !! jobId = Some j ->
  files s !! path = Some content ->
  match content_error path content with
  | Some e => process_source jobId job path s = (s, inl e)
  | None =>
      exists s', process_source jobId job path s = (s', inr tt) /\
                 ended jobId completed s'
  end.
Proof.
  intros Hf Hj Hfile. unfold process_source, content_error.
  assert (Hexists : fs.existsSync path s = (s, inr true)).
  { unfold fs.existsSync, gets. rewrite Hfile.
    by rewrite bool_decide_eq_true_2 by (by eexists). }
  rewrite (bind_ok _ _ _ _ _ Hexists). cbn [negb].
  assert (Hend : forall s1 (run : Store * (exn + unit)),
             run = (s1, inr tt) -> faults s1 = [] ->
             is_Some (importJobs s1 !! jobId) ->
             exists s',
               (let* t := now in
                updateJobStatus jobId completed (mkStatusData None (Some t)) ;;
                let* finalJob := getJob jobId in
                ret tt) s1 = (s', inr tt) /\
               ended jobId completed s').
  { intros s1 run _ Hf1 [j1 Hj1]. unfold now. unfold bind at 1. unfold gets.
    rewrite (bind_ok _ _ _ _ _ (updateJobStatus_ok _ _ _ _ j1 Hf1 Hj1)).
    erewrite bind_ok by (apply getJob_ok; exact Hf1).
    eexists. split; [done |]. eexists _, _. simpl.
    rewrite lookup_insert_eq. done. }
  assert (Htallied : forall {A} raw parse (records : list A) total run,
             tallied raw parse records jobId total s run ->
             exists s1, run = (s1, inr tt) /\ faults s1 = [] /\
                        is_Some (importJobs s1 !! jobId)).
  { intros A raw parse records total [s1 [e|[]]] (Hrun & Hf1 & j1 & ? & ? & Hj1 & _);
      simpl in *; [done |]. exists s1. split_and!; [done | done | by eexists]. }
  destruct (Str.endsWith path ".ndjson").
  { destruct (Htallied _ _ _ _ _ _ (processNdjsonFile_tallied jobId (ij_resource job)
                 path s content j Hf Hj Hfile)) as (s1 & Hrun & Hf1 & Hj1).
    rewrite (bind_ok _ _ _ _ _ Hrun). by eapply Hend. }
  destruct (Str.endsWith path ".csv").
  { destruct (Htallied _ _ _ _ _ _ (processCsvFile_tallied jobId (ij_resource job)
                 path s content j Hf Hj Hfile)) as (s1 & Hrun & Hf1 & Hj1).
    rewrite (bind_ok _ _ _ _ _ Hrun). by eapply Hend. }
  assert (Hjson : processJsonFile jobId (ij_resource job) path s
                  = match JSON_parse content with
                    | inl msg => (s, inl (Error "SyntaxError" msg))
                    | inr (VArr records) =>
                        processJsonFile jobId (ij_resource job) path s
                    | inr _ => (s, inl (Error "Error" "JSON must be an array"))
                    end).
  { destruct (JSON_parse content) as [msg|v] eqn:Hparse; [| destruct v];
      try reflexivity; unfold processJsonFile;
      rewrite (bind_ok _ _ _ _ _ (readFile_found _ _ _ Hfile)); rewrite Hparse;
      reflexivity. }
  destruct (JSON_parse content) as [msg|v] eqn:Hparse.
  { by rewrite (bind_err _ _ _ _ _ Hjson). }
  destruct v as [| | | | |records|];
    try (by rewrite (bind_err _ _ _ _ _ Hjson)).
  destruct (Htallied _ _ _ _ _ _ (processJsonFile_tallied jobId (ij_resource job)
               path s content records j Hf Hj Hfile Hparse)) as (s1 & Hrun & Hf1 & Hj1).
  rewrite (bind_ok _ _ _ _ _ Hrun). by eapply Hend.
Qed.

(** The [try], [catch] and [finally] of [processImportJob] around a file
    that is there. *)
Lemma guarded_run jobId job path downloaded content s j :
  faults s = [] -> importJobs s !! jobId = Some j ->
  files s !! path = Some content ->
  let run := finally (try_catch (process_source jobId job path) (fail_job jobId))
               (cleanup jobId (Some path) downloaded) s in
  match content_error path content with
  | Some e => run.2 = inl e /\ ended jobId failed run.1 /\ unprocessed jobId s run.1
  | None => run.2 = inr tt /\ ended jobId completed run.1
  end.
Proof.
  intros Hf Hj Hfile. cbv zeta.
  pose proof (process_source_run jobId job path content s j Hf Hj Hfile) as Hrun.
  unfold finally, try_catch.
  destruct (content_error path content) as [e|].
  - rewrite Hrun.
    destruct (fail_job_ok jobId e s j Hf Hj)
      as (s1 & -> & _ & Hjobs & Hu & Ha & Hc & He & _).
    destruct (cleanup_ok jobId (Some path) downloaded s1)
      as (s2 & -> & Hjobs2 & Hu2 & Ha2 & Hc2 & He2).
    simpl. split_and!; [done | |].
    + eexists _, _. rewrite Hjobs2, Hjobs, lookup_insert_eq. done.
    + unfold unprocessed. rewrite Hjobs2, Hjobs, lookup_insert_eq, Hj. simpl.
      split_and!; congruence.
  - destruct Hrun as (s1 & -> & job1 & t & Hj1 & Hstatus & Htime).
    destruct (cleanup_ok jobId (Some path) downloaded s1)
      as (s2 & -> & Hjobs2 & _).
    simpl. split; [done |]. exists job1, t. by rewrite Hjobs2.
Qed.

(** The same around a source that could not be resolved. *)
Lemma unresolved_run jobId e s j :
  faults s = [] -> importJobs s !! jobId = Some j ->
  let run := finally (fail_job jobId e) (cleanup jobId None false) s in
  run.2 = inl e /\ ended jobId failed run.1 /\ unprocessed jobId s run.1.
Proof.
  intros Hf Hj. cbv zeta. unfold finally.
  destruct (fail_job_ok jobId e s j Hf Hj)
    as (s1 & -> & _ & Hjobs & Hu & Ha & Hc & He & _).
  destruct (cleanup_ok jobId None false s1)
    as (s2 & -> & Hjobs2 & Hu2 & Ha2 & Hc2 & He2).
  simpl. split_and!; [done | |].
  - eexists _, _. rewrite Hjobs2, Hjobs, lookup_insert_eq. done.
  - unfold unprocessed. rewrite Hjobs2, Hjobs, lookup_insert_eq, Hj. simpl.
    split_and!; congruence.
Qed.

Lemma unprocessed_from jobId s s1 s' job status data :
  userTable s1 = userTable s -> articleTable s1 = articleTable s ->
  commentTable s1 = commentTable s -> importErrors s1 = importErrors s ->
  importJobs s !! jobId = Some job ->
  importJobs s1 !! jobId = Some (with_status status data job) ->
  unprocessed jobId s1 s' -> unprocessed jobId s s'.
Proof.
  unfold unprocessed. intros Hu Ha Hc He Hj Hj1 (? & ? & ? & ? & Hcounts).
  rewrite Hcounts, Hj1, Hj. simpl. split_and!; congruence.
Qed.

(** [processImportJob] when the store does not fail: a job whose source
    has an error fails with that error, and no record is processed; any
    other job completes. *)
Lemma processImportJob_run jobId s job :
  faults s = [] -> importJobs s !! jobId = Some job ->
  let run := processImportJob jobId s in
  match source_error job s with
  | Some e => run.2 = inl e /\ ended jobId failed run.1 /\ unprocessed jobId s run.1
  | None => run.2 = inr tt /\ ended jobId completed run.1
  end.
Proof.
  intros Hf Hjob. cbv zeta. unfold processImportJob.
  rewrite (bind_ok _ _ _ _ _ (startTracking_run jobId s)).
  set (s_a := upd_metrics _ s).
  rewrite (bind_ok _ _ _ _ _ (now_run s_a)).
  set (data := mkStatusData (Some (clock s_a)) None).
  rewrite (bind_ok _ _ _ _ _ (updateJobStatus_ok jobId processing data s_a job
                                  Hf Hjob)).
  set (job1 := with_status processing data job).
  set (s_b := upd_statusLog _ _).
  assert (Hf_b : faults s_b = []) by exact Hf.
  assert (Hjob_b : importJobs s_b !! jobId = Some job1) by apply lookup_insert_eq.
  assert (Hfrom : forall s', unprocessed jobId s_b s' -> unprocessed jobId s s').
  { intros s'. by apply (unprocessed_from jobId s s_b s' job processing data). }
  unfold bind, attempt, resolve_source, source_error.
  change (ij_filePath job1) with (ij_filePath job).
  destruct (ij_filePath job) as [p|]; cycle 1.
  { unfold throw.
    destruct (unresolved_run jobId (Error "Error" "No file path") s_b job1 Hf_b Hjob_b)
      as (? & ? & ?). auto. }
  destruct (String.eqb p EmptyString).
  { unfold throw.
    destruct (unresolved_run jobId (Error "Error" "No file path") s_b job1 Hf_b Hjob_b)
      as (? & ? & ?). auto. }
  fold (remote p). destruct (remote p).
  - unfold downloadFile, now, bind, gets, fs.writeFile, fs.unlink, modify, throw, ret.
    change (web (upd_files _ s_b)) with (web s).
    change (clock s_b) with (clock s).
    destruct (web s !! p) as [[code body|err]|].
    + destruct (code =? 200)%Z.
      * match goal with |- context [finally _ _ ?s0] => set (s_c := s0) end.
        pose proof (guarded_run jobId job1 (download_path p (clock s)) true body
                      s_c job1 Hf_b Hjob_b (lookup_insert_eq _ _ _)) as H.
        cbv zeta in H. destruct (content_error _ body); [| done].
        destruct H as (? & ? & Hun). split_and!; [done | done |].
        by apply (unprocessed_from jobId s s_c _ job processing data).
      * match goal with |- context [finally _ _ ?s0] => set (s_c := s0) end.
        destruct (unresolved_run jobId
                    (Error "Error" ("Failed to download: HTTP " +:+ pretty code))
                    s_c job1 Hf_b Hjob_b) as (? & ? & Hun).
        split_and!; [done | done |].
        by apply (unprocessed_from jobId s s_c _ job processing data).
    + match goal with |- context [finally _ _ ?s0] => set (s_c := s0) end.
      destruct (unresolved_run jobId err s_c job1 Hf_b Hjob_b) as (? & ? & Hun).
      split_and!; [done | done |].
      by apply (unprocessed_from jobId s s_c _ job processing data).
    + match goal with |- context [finally _ _ ?s0] => set (s_c := s0) end.
      destruct (unresolved_run jobId (Error "Error" "getaddrinfo ENOTFOUND")
                  s_c job1 Hf_b Hjob_b) as (? & ? & Hun).
      split_and!; [done | done |].
      by apply (unprocessed_from jobId s s_c _ job processing data).
  - unfold ret. destruct (files s !! p) as [content|] eqn:Hfile.
    + pose proof (guarded_run jobId job1 p false content s_b job1 Hf_b Hjob_b Hfile)
        as H.
      cbv zeta in H. destruct (content_error p content); [| done].
      destruct H as (? & ? & Hun). auto.
    + unfold finally, try_catch, process_source, fs.existsSync, bind, gets.
      change (files s_b) with (files s). rewrite Hfile.
      rewrite bool_decide_eq_false_2 by (by intros [? ?]). cbn [negb]. unfold throw.
      pose proof (unresolved_run jobId (Error "Error" "File not found") s_b job1
                    Hf_b Hjob_b) as H.
      cbv zeta in H. unfold finally in H.
      destruct (fail_job jobId (Error "Error" "File not found") s_b) as [s1 r1].
      unfold cleanup, metricsTracker.finishTracking, fs.existsSync, bind, gets,
        modify, ret in *.
      simpl in *. destruct H as (? & ? & ?). auto.
Qed.

End WithRuntime.
End SourceFacts.

Module C8.
Import importProcessor SourceErrors SourceFacts.

Section WithRuntime.
Context `{RT : Runtime}.

(** C8, as amended: when the store does not fail and the job is on
    record, [processImportJob] marks the job [failed], with a completion
    time, and throws the error again exactly when the source has an error
    ([source_error]): no file path, a download that fails, a file that is
    not there, or a JSON file whose content does not parse or is not an
    array; no record is processed then. Any other job is marked
    [completed]. The errors the claim names are among them. *)
Theorem C8_source_errors jobId s job :
  faults s = [] -> importJobs s !! jobId = Some job ->
  let run := processImportJob jobId s in
  match source_error job s with
  | Some e => run.2 = inl e /\ ended jobId failed run.1 /\ unprocessed jobId s run.1
  | None => run.2 = inr tt /\ ended jobId completed run.1
  end /\
  (ij_filePath job = None \/ ij_filePath job = Some EmptyString ->
   source_error job s = Some (Error "Error" "No file path")) /\
  (forall path,
      ij_filePath job = Some path -> path <> EmptyString -> remote path = false ->
      files s !! path = None ->
      source_error job s = Some (Error "Error" "File not found")) /\
  (forall url statusCode body,
      ij_filePath job = Some url -> url <> EmptyString -> remote url = true ->
      web s !! url = Some (Response statusCode body) -> statusCode <> 200%Z ->
      source_error job s
      = Some (Error "Error" ("Failed to download: HTTP " +:+ pretty statusCode))) /\
  (forall path content v,
      ij_filePath job = Some path -> path <> EmptyString -> remote path = false ->
      files s !! path = Some content ->
      Str.endsWith path ".ndjson" = false -> Str.endsWith path ".csv" = false ->
      JSON_parse content = inr v -> (forall records, v <> VArr records) ->
      source_error job s = Some (Error "Error" "JSON must be an array")).
Proof.
  intros Hf Hjob. cbv zeta. split; [by apply processImportJob_run |].
  assert (Hne : forall p, p <> EmptyString -> String.eqb p EmptyString = false).
  { intros p Hp. by apply String.eqb_neq. }
  unfold source_error. split_and!.
  - intros [-> | ->]; done.
  - intros path -> Hp -> ->. by rewrite (Hne _ Hp).
  - intros url code body -> Hp -> -> Hcode. rewrite (Hne _ Hp).
    by rewrite (proj2 (Z.eqb_neq _ _) Hcode).
  - intros path content v -> Hp -> -> Hnd Hcsv Hparse Hv. rewrite (Hne _ Hp).
    unfold content_error. rewrite Hnd, Hcsv, Hparse.
    destruct v; try done. by destruct (Hv l).
Qed.

End WithRuntime.
End C8.

(** C8 at work: a JSON file that holds an object, not an array. The job
    fails with the error of the source and no record is processed. *)
Lemma C8_source_errors_witness :
  let s := Sample.store_with_file "u.json" "{}" in
  let run := importProcessor.processImportJob 1 s in
  run.2 = inl (Error "Error" "JSON must be an array") /\
  SourceErrors.ended 1 failed run.1 /\ SourceErrors.unprocessed 1 s run.1.
Proof.
  cbv zeta.
  assert (faults (Sample.store_with_file "u.json" "{}") = []) as Hf by reflexivity.
  assert (importJobs (Sample.store_with_file "u.json" "{}") !! 1%Z
          = Some (Sample.users_job "u.json")) as Hjob by (vm_compute; reflexivity).
  pose proof (proj1 (C8.C8_source_errors 1 _ _ Hf Hjob)) as H. cbv zeta in H.
  assert (SourceErrors.source_error (Sample.users_job "u.json")
            (Sample.store_with_file "u.json" "{}")
          = Some (Error "Error" "JSON must be an array")) as Herr
    by (vm_compute; reflexivity).
  rewrite Herr in H. exact H.
Defined.

(** C8, as stated, fails: the source of this job has no error (its two
    records are read and reported), and the job fails all the same,
    because the store fails at the last update of the counters. *)
Lemma C8_store_failure_fails_job :
  let s := upd_faults (fun _ => [false; false; false; true])
             (Sample.store_with_file "u.ndjson" Sample.ndjson_file) in
  let run := importProcessor.processImportJob 1 s in
  SourceErrors.source_error (Sample.users_job "u.ndjson") s = None /\
  run.2 = inl StoreFailure /\
  (fun j => (ij_status j, ij_completedAt j)) <$> importJobs run.1 !! 1%Z
  = Some (failed, Some 0%Z) /\
  recordIndex <$> importErrors run.1 = [0%Z; 1%Z].
Proof. cbv zeta. split_and!; vm_compute; reflexivity. Defined.

(** ** C9: the status writes of a pipeline *)

Module StatusFacts.
Import importRepository importProcessor StoreFacts Relations Frames Outcomes
  BatchFacts TallyFacts SourceFacts Transitions.

#[global] Instance import_quiet_preorder : PreOrder import_quiet.
Proof.
  split.
  - by intros s.
  - intros s1 s2 s3 [? H12] [? H23]. split; [congruence |].
    intros id. by rewrite H23, H12.
Qed.

#[global] Instance export_quiet_preorder : PreOrder export_quiet.
Proof.
  split.
  - by intros s.
  - intros s1 s2 s3 [? H12] [? H23]. split; [congruence |].
    intros id. by rewrite H23, H12.
Qed.

Ltac quiet_step :=
  lazymatch goal with
  | |- frame _ (modify _) =>
      apply frame_modify; intros ?;
      by (try unfold import_quiet; try unfold export_quiet; simpl)
  | |- _ => frame_step
  end.

Ltac quiet := repeat (quiet_step; try assumption).

Lemma import_quiet_store_call : frame import_quiet store_call.
Proof. intros s. unfold store_call. by destruct (faults s) as [|[] fs]. Qed.

Lemma export_quiet_store_call : frame export_quiet store_call.
Proof. intros s. unfold store_call. by destruct (faults s) as [|[] fs]. Qed.

#[global] Hint Resolve import_quiet_store_call export_quiet_store_call : frames.

Lemma import_quiet_of_same_jobs {A} (m : M A) :
  frame same_jobs m -> frame import_quiet m.
Proof.
  apply frame_weaken. intros s s' (Hjobs & _ & Hlog & _). split; [done |].
  intros id. by rewrite Hjobs.
Qed.

(** An update of a job that keeps its status. *)
Lemma import_quiet_update id f :
  (forall j, ij_status (f j) = ij_status j) ->
  frame import_quiet (prisma.importJob_update id f).
Proof.
  intros Hf s. unfold prisma.importJob_update, bind, gets, modify, ret, throw.
  pose proof (import_quiet_store_call s) as [Hlog Hst].
  destruct (store_call s) as [s1 [e|[]]]; cbn [fst snd] in *; [done |].
  destruct (importJobs s1 !! id) as [j|] eqn:Hj; cbn [fst snd]; [| done].
  split; [exact Hlog |]. intros id'. rewrite <-Hst.
  cbn [upd_importJobs importJobs].
  destruct (decide (id' = id)) as [->|Hne].
  - rewrite lookup_insert_eq, Hj. simpl. by rewrite Hf.
  - by rewrite lookup_insert_ne.
Qed.

Lemma import_quiet_updateJobCounts jobId counts :
  frame import_quiet (updateJobCounts jobId counts).
Proof. by apply import_quiet_update. Qed.

Lemma import_quiet_recordError jobId index data e :
  frame import_quiet (recordError jobId index data e).
Proof.
  unfold recordError, createImportError, prisma.importError_create.
  destruct (match e with
            | ZodError issues => _
            | Error name message => _
            end) as [message type].
  quiet.
Qed.

Lemma import_quiet_updateProgress jobId processed errors :
  frame import_quiet (metricsTracker.updateProgress jobId processed errors).
Proof. unfold metricsTracker.updateProgress. quiet. Qed.

#[global] Hint Resolve import_quiet_updateJobCounts import_quiet_recordError
  import_quiet_updateProgress : frames.

Lemma import_quiet_processBatch jobId resource batch :
  frame import_quiet (processBatch jobId resource batch).
Proof.
  unfold processBatch, processItem. quiet.
  apply import_quiet_of_same_jobs. unfold upsert. frames.
Qed.

#[global] Hint Resolve import_quiet_processBatch : frames.

Lemma import_quiet_readFile path : frame import_quiet (fs.readFile path).
Proof. unfold fs.readFile. quiet. Qed.

#[global] Hint Resolve import_quiet_readFile : frames.

Section WithRuntime.
Context `{RT : Runtime}.

Lemma import_quiet_flush_when_full jobId resource processed st :
  frame import_quiet (flush_when_full jobId resource processed st).
Proof. unfold flush_when_full. quiet. Qed.

Lemma import_quiet_flush_rest jobId resource st :
  frame import_quiet (flush_rest jobId resource st).
Proof. unfold flush_rest. quiet. Qed.

Hint Resolve import_quiet_flush_when_full import_quiet_flush_rest : frames.

Lemma import_quiet_processNdjsonFile jobId resource path :
  frame import_quiet (processNdjsonFile jobId resource path).
Proof. unfold processNdjsonFile, ndjson_line. quiet. Qed.

Lemma import_quiet_processCsvFile jobId resource path :
  frame import_quiet (processCsvFile jobId resource path).
Proof. unfold processCsvFile, csv_line. quiet. Qed.

Lemma import_quiet_processJsonFile jobId resource path :
  frame import_quiet (processJsonFile jobId resource path).
Proof. unfold processJsonFile, json_record. quiet. Qed.

Lemma import_quiet_resolve_source job : frame import_quiet (resolve_source job).
Proof.
  unfold resolve_source, downloadFile, fs.writeFile, fs.unlink. quiet.
Qed.

Lemma import_quiet_cleanup jobId path downloaded :
  frame import_quiet (cleanup jobId path downloaded).
Proof.
  unfold cleanup, metricsTracker.finishTracking, fs.existsSync, fs.unlink. quiet.
Qed.

Lemma import_quiet_getJob jobId : frame import_quiet (getJob jobId).
Proof. unfold getJob, prisma.importJob_findUnique. quiet. Qed.

(** One step of a run: a part that writes no status, then the rest. *)
Lemma step_quiet (R : relation Store) `{!PreOrder R} {A B} (m : M A)
    (k : A -> M B) s0 s (P : Store * (exn + B) -> Prop) :
  R s0 s -> frame R m ->
  (forall s1 a, R s0 s1 -> P (k a s1)) ->
  (forall s1 e, R s0 s1 -> P (s1, inl e)) ->
  P (bind m k s).
Proof.
  intros H0 Hm Hk He. unfold bind. specialize (Hm s).
  destruct (m s) as [s1 [e|a]]; simpl in *; [apply He | apply Hk]; by etrans.
Qed.

(** A status write goes through and is logged, or fails and changes
    nothing. *)
Lemma updateJobStatus_cases jobId status data s cur :
  ij_status <$> importJobs s !! jobId = Some cur ->
  (exists s' j,
      updateJobStatus jobId status data s = (s', inr j) /\
      ij_status <$> importJobs s' !! jobId = Some status /\
      statusLog s' = statusLog s ++ [mkWrite ImportKind jobId cur status]) \/
  (exists s' e,
      updateJobStatus jobId status data s = (s', inl e) /\ import_quiet s s').
Proof.
  intros Hcur. destruct (importJobs s !! jobId) as [job|] eqn:Hjob; [| done].
  simpl in Hcur. injection Hcur as <-.
  unfold updateJobStatus, prisma.importJob_update, log_write, store_call, bind,
    gets, modify, ret, throw.
  rewrite Hjob. simpl.
  destruct (faults s) as [|[] fs]; simpl; rewrite ?Hjob; simpl.
  - left. eexists _, _. split; [done |]. simpl. rewrite lookup_insert_eq. done.
  - right. eexists _, _. split; [done |]. done.
  - left. eexists _, _. split; [done |]. simpl. rewrite lookup_insert_eq. done.
Qed.

(** The [catch] clause writes [failed] over the status, or nothing. *)
Lemma fail_job_log jobId e s cur :
  ij_status <$> importJobs s !! jobId = Some cur ->
  statusLog (fail_job jobId e s).1
  = statusLog s ++ writes ImportKind jobId [cur; failed] \/
  statusLog (fail_job jobId e s).1 = statusLog s.
Proof.
  intros Hcur. unfold fail_job, now. unfold bind at 1. unfold gets.
  unfold bind.
  destruct (updateJobStatus_cases jobId failed
              (mkStatusData None (Some (clock s))) s cur Hcur)
    as [(s' & j & -> & _ & Hlog) | (s' & e' & -> & Hlog & _)]; simpl; auto.
Qed.

Lemma finally_cleanup_log {A} (m : M A) jobId path downloaded s :
  statusLog (finally m (cleanup jobId path downloaded) s).1 = statusLog (m s).1.
Proof.
  unfold finally. destruct (m s) as [s1 r].
  pose proof (import_quiet_cleanup jobId path downloaded s1) as [Hlog _].
  by destruct (cleanup jobId path downloaded s1) as [s2 [e|[]]].
Qed.

(** The [try] block from the check of the file on: it returns with the
    job [completed], or throws with the status as it was, or throws after
    [completed] was written. *)
Lemma process_source_cases jobId job path s :
  ij_status <$> importJobs s !! jobId = Some processing ->
  let r := process_source jobId job path s in
  (r.2 = inr tt /\
   statusLog r.1 = statusLog s ++ writes ImportKind jobId [processing; completed]) \/
  (r.2 <> inr tt /\ import_quiet s r.1) \/
  (r.2 <> inr tt /\
   statusLog r.1 = statusLog s ++ writes ImportKind jobId [processing; completed] /\
   ij_status <$> importJobs r.1 !! jobId = Some completed).
Proof.
  intros Hst. cbv zeta. unfold process_source.
  apply (step_quiet import_quiet) with (s0 := s);
    [reflexivity | unfold fs.existsSync; quiet | | intros; right; left; done].
  intros s1 found H1. destruct (negb found); [right; left; done |].
  apply (step_quiet import_quiet) with (s0 := s);
    [done | | | intros; right; left; done].
  { destruct (Str.endsWith path ".ndjson");
      [apply import_quiet_processNdjsonFile |].
    destruct (Str.endsWith path ".csv");
      [apply import_quiet_processCsvFile | apply import_quiet_processJsonFile]. }
  intros s2 _ H2.
  apply (step_quiet import_quiet) with (s0 := s);
    [done | rule frame_gets | | intros; right; left; done].
  intros s3 t H3.
  assert (Hst3 : ij_status <$> importJobs s3 !! jobId = Some processing).
  { destruct H3 as [_ ->]. done. }
  destruct (updateJobStatus_cases jobId completed (mkStatusData None (Some t)) s3
              processing Hst3)
    as [(s4 & j & Hrun & Hst4 & Hlog4) | (s4 & e & Hrun & Hq)].
  - rewrite (bind_ok _ _ _ _ _ Hrun).
    assert (Hlog : statusLog s4
                   = statusLog s ++ writes ImportKind jobId [processing; completed]).
    { rewrite Hlog4. destruct H3 as [-> _]. done. }
    pose proof (import_quiet_getJob jobId s4) as [Hlog5 Hst5].
    unfold bind. destruct (getJob jobId s4) as [s5 [e|finalJob]]; simpl in *.
    + right; right. split_and!; [done | congruence |]. by rewrite Hst5.
    + left. split; [done | congruence].
  - rewrite (bind_err _ _ _ _ _ Hrun). right; left. split; [done |]. simpl.
    by etrans.
Qed.

(** The status writes of the [try], [catch] and [finally] of
    [processImportJob]. *)
Lemma guarded_log jobId job path downloaded s :
  ij_status <$> importJobs s !! jobId = Some processing ->
  exists tail,
    tail ∈ import_tails /\
    statusLog (finally (try_catch (process_source jobId job path) (fail_job jobId))
                 (cleanup jobId (Some path) downloaded) s).1
    = statusLog s ++ writes ImportKind jobId tail.
Proof.
  intros Hst. rewrite finally_cleanup_log. unfold try_catch, import_tails.
  destruct (process_source_cases jobId job path s Hst)
    as [[Hr Hlog] | [[Hr [Hlog Hst1]] | (Hr & Hlog & Hst1)]];
    destruct (process_source jobId job path s) as [s1 [e|[]]]; simpl in *;
    try done.
  - exists [processing; completed]. split; [set_solver | done].
  - rewrite <-(Hst1 jobId) in Hst.
    destruct (fail_job_log jobId e s1 processing Hst) as [-> | ->].
    + exists [processing; failed]. split; [set_solver | by rewrite Hlog].
    + exists [processing]. split; [set_solver |]. rewrite Hlog. simpl.
      by rewrite app_nil_r.
  - destruct (fail_job_log jobId e s1 completed Hst1) as [-> | ->].
    + exists [processing; completed; failed]. split; [set_solver |].
      rewrite Hlog. simpl. by rewrite <-app_assoc.
    + exists [processing; completed]. split; [set_solver | done].
Qed.

(** The status writes of [processImportJob] on a pending job, whatever
    the store does. *)
Lemma processImportJob_logged jobId s job :
  importJobs s !! jobId = Some job -> ij_status job = pending ->
  exists path,
    path ∈ import_paths /\
    logged ImportKind jobId s (processImportJob jobId s).1 path.
Proof.
  intros Hjob Hpending. unfold processImportJob, logged, import_paths.
  assert (Hquiet : forall s1, import_quiet s s1 ->
            exists path,
              path ∈ import_paths /\
              statusLog s1 = statusLog s ++ writes ImportKind jobId path).
  { intros s1 [-> _]. exists [pending]. split; [set_solver |]. simpl.
    by rewrite app_nil_r. }
  apply (step_quiet import_quiet) with (s0 := s);
    [reflexivity | unfold metricsTracker.startTracking; quiet | | intros; simpl; by apply Hquiet].
  intros s1 _ H1.
  apply (step_quiet import_quiet) with (s0 := s);
    [done | rule frame_gets | | intros; simpl; by apply Hquiet].
  intros s2 t H2.
  assert (Hst2 : ij_status <$> importJobs s2 !! jobId = Some pending).
  { destruct H2 as [_ ->]. rewrite Hjob. simpl. by rewrite Hpending. }
  destruct (updateJobStatus_cases jobId processing (mkStatusData (Some t) None) s2
              pending Hst2)
    as [(s3 & j & Hrun & Hst3 & Hlog3) | (s3 & e & Hrun & Hq)]; cycle 1.
  { rewrite (bind_err _ _ _ _ _ Hrun). apply Hquiet. by etrans. }
  rewrite (bind_ok _ _ _ _ _ Hrun).
  assert (Hlog : statusLog s3
                 = statusLog s ++ writes ImportKind jobId [pending; processing]).
  { rewrite Hlog3. destruct H2 as [-> _]. done. }
  assert (Htail : forall tail s',
            tail ∈ import_tails ->
            statusLog s' = statusLog s3 ++ writes ImportKind jobId tail ->
            exists path,
              path ∈ import_paths /\
              statusLog s' = statusLog s ++ writes ImportKind jobId path).
  { intros tail s' Htail ->. exists (pending :: tail).
    split; [unfold import_tails in Htail; set_solver |].
    rewrite Hlog. unfold import_tails in Htail.
    rewrite <-app_assoc.
    repeat (apply elem_of_cons in Htail as [-> | Htail]; [done |]).
    by apply elem_of_nil in Htail. }
  unfold bind, attempt.
  pose proof (import_quiet_resolve_source j s3) as [Hlog4 Hst4].
  destruct (resolve_source j s3) as [s4 [err|[path downloaded]]]; simpl in *.
  - rewrite finally_cleanup_log. rewrite <-Hst4 in Hst3.
    destruct (fail_job_log jobId err s4 processing Hst3) as [Hfail | Hfail].
    + apply (Htail [processing; failed]); [set_solver |].
      by rewrite Hfail, Hlog4.
    + apply (Htail [processing]); [set_solver |]. rewrite Hfail, Hlog4. simpl.
      by rewrite app_nil_r.
  - rewrite <-Hst4 in Hst3.
    destruct (guarded_log jobId j path downloaded s4 Hst3) as (tail & Htl & Hg).
    apply (Htail tail); [done | by rewrite Hg, Hlog4].
Qed.

End WithRuntime.

(** *** The export pipeline *)

Import exportProcessor.

Lemma export_quiet_as_string v : frame export_quiet (as_string v).
Proof. unfold as_string. quiet. Qed.

Lemma export_quiet_updateProgress jobId processed errors :
  frame export_quiet (metricsTracker.updateProgress jobId processed errors).
Proof. unfold metricsTracker.updateProgress. quiet. Qed.

#[global] Hint Resolve export_quiet_as_string export_quiet_updateProgress : frames.

Section WithRuntime.
Context `{RT : Runtime}.

Lemma export_quiet_fetch_page resource filters skip :
  frame export_quiet (fetch_page resource filters skip).
Proof.
  unfold fetch_page, user_where, article_where, comment_where, filter_id.
  quiet.
Qed.

Lemma export_quiet_write_record jobId format path fields st record :
  frame export_quiet (write_record jobId format path fields st record).
Proof. unfold write_record, exportProcessor.append. quiet. Qed.

Lemma export_quiet_for_each {S} rounds resource filters skip
    (body : S -> CursorRecord -> M S) st :
  (forall st x, frame export_quiet (body st x)) ->
  frame export_quiet (for_each_record rounds resource filters skip body st).
Proof.
  intros Hbody. revert skip st.
  induction rounds as [|rounds IH]; intros skip st; simpl; [by rule frame_ret |].
  rule frame_bind; [apply export_quiet_fetch_page |]. intros records.
  rule frame_bind; [by rule frame_foldM |]. intros st'.
  destruct (length records =? BATCH_SIZE)%nat; [apply IH | by rule frame_ret].
Qed.

Lemma export_updateJobStatus_cases jobId status data s cur :
  ej_status <$> exportJobs s !! jobId = Some cur ->
  (exists s' j,
      exportRepository.updateJobStatus jobId status data s = (s', inr j) /\
      ej_status <$> exportJobs s' !! jobId = Some status /\
      statusLog s' = statusLog s ++ [mkWrite ExportKind jobId cur status]) \/
  (exists s' e,
      exportRepository.updateJobStatus jobId status data s = (s', inl e) /\
      export_quiet s s').
Proof.
  intros Hcur. destruct (exportJobs s !! jobId) as [job|] eqn:Hjob; [| done].
  simpl in Hcur. injection Hcur as <-.
  unfold exportRepository.updateJobStatus, prisma.exportJob_update, log_write,
    store_call, bind, gets, modify, ret, throw.
  rewrite Hjob. simpl.
  destruct (faults s) as [|[] fs]; simpl; rewrite ?Hjob; simpl.
  - left. eexists _, _. split; [done |]. simpl. rewrite lookup_insert_eq. done.
  - right. eexists _, _. split; [done |]. done.
  - left. eexists _, _. split; [done |]. simpl. rewrite lookup_insert_eq. done.
Qed.

(** The [try] block of [processExportJob]: it returns with the job
    [completed], or throws with the status as it was. *)
Lemma export_to_file_cases jobId job s :
  ej_status <$> exportJobs s !! jobId = Some processing ->
  let r := export_to_file jobId job s in
  (r.2 = inr tt /\
   statusLog r.1 = statusLog s ++ writes ExportKind jobId [processing; completed]) \/
  (r.2 <> inr tt /\ export_quiet s r.1).
Proof.
  intros Hst. cbv zeta. unfold export_to_file.
  apply (step_quiet export_quiet) with (s0 := s);
    [reflexivity | rule frame_gets | | intros; right; done].
  intros s1 t H1. cbv zeta.
  apply (step_quiet export_quiet) with (s0 := s);
    [done | unfold fs.writeFile; quiet | | intros; right; done].
  intros s2 _ H2.
  apply (step_quiet export_quiet) with (s0 := s);
    [done | rule frame_gets | | intros; right; done].
  intros s3 rounds H3.
  apply (step_quiet export_quiet) with (s0 := s);
    [done | | | intros; right; done].
  { destruct (ej_format job); unfold exportProcessor.append; quiet;
      apply export_quiet_for_each; intros; apply export_quiet_write_record. }
  intros s4 st H4.
  apply (step_quiet export_quiet) with (s0 := s);
    [done | rule frame_gets | | intros; right; done].
  intros s5 t5 H5.
  assert (Hst5 : ej_status <$> exportJobs s5 !! jobId = Some processing).
  { destruct H5 as [_ ->]. done. }
  match goal with |- context [exportRepository.updateJobStatus jobId completed ?d] =>
    destruct (export_updateJobStatus_cases jobId completed d s5 processing Hst5)
      as [(s6 & j & Hrun & Hst6 & Hlog6) | (s6 & e & Hrun & Hq)]
  end.
  - rewrite (bind_ok _ _ _ _ _ Hrun). left. split; [done |]. simpl.
    rewrite Hlog6. destruct H5 as [-> _]. done.
  - rewrite (bind_err _ _ _ _ _ Hrun). right. split; [done |]. simpl. by etrans.
Qed.

(** The status writes of [processExportJob] on a pending job, whatever
    the store does. *)
Lemma processExportJob_logged jobId s job :
  exportJobs s !! jobId = Some job -> ej_status job = pending ->
  exists path,
    path ∈ export_paths /\
    logged ExportKind jobId s (processExportJob jobId s).1 path.
Proof.
  intros Hjob Hpending. unfold processExportJob, logged, export_paths.
  assert (Hquiet : forall s1, export_quiet s s1 ->
            exists path,
              path ∈ export_paths /\
              statusLog s1 = statusLog s ++ writes ExportKind jobId path).
  { intros s1 [-> _]. exists [pending]. split; [set_solver |]. simpl.
    by rewrite app_nil_r. }
  apply (step_quiet export_quiet) with (s0 := s);
    [reflexivity | unfold metricsTracker.startTracking; quiet | | intros; simpl; by apply Hquiet].
  intros s1 _ H1.
  apply (step_quiet export_quiet) with (s0 := s);
    [done | rule frame_gets | | intros; simpl; by apply Hquiet].
  intros s2 t H2.
  assert (Hst2 : ej_status <$> exportJobs s2 !! jobId = Some pending).
  { destruct H2 as [_ ->]. rewrite Hjob. simpl. by rewrite Hpending. }
  match goal with |- context [exportRepository.updateJobStatus jobId processing ?d] =>
    destruct (export_updateJobStatus_cases jobId processing d s2 pending Hst2)
      as [(s3 & j & Hrun & Hst3 & Hlog3) | (s3 & e & Hrun & Hq)]; cycle 1
  end.
  { rewrite (bind_err _ _ _ _ _ Hrun). apply Hquiet. by etrans. }
  rewrite (bind_ok _ _ _ _ _ Hrun).
  assert (Hlog : statusLog s3
                 = statusLog s ++ writes ExportKind jobId [pending; processing]).
  { rewrite Hlog3. destruct H2 as [-> _]. done. }
  unfold try_catch.
  destruct (export_to_file_cases jobId j s3 Hst3) as [[Hr Hlog4] | [Hr [Hlog4 Hst4]]];
    destruct (export_to_file jobId j s3) as [s4 [e|[]]]; simpl in *; try done.
  - exists [pending; processing; completed]. split; [set_solver |].
    rewrite Hlog4, Hlog, <-app_assoc. done.
  - unfold now. unfold bind at 1. unfold gets.
    rewrite <-(Hst4 jobId) in Hst3.
    match goal with |- context [exportRepository.updateJobStatus jobId failed ?d] =>
      destruct (export_updateJobStatus_cases jobId failed d s4 processing Hst3)
        as [(s5 & j5 & Hrun5 & _ & Hlog5) | (s5 & e5 & Hrun5 & Hlog5 & _)]
    end.
    + rewrite (bind_ok _ _ _ _ _ Hrun5).
      unfold metricsTracker.finishTracking, bind, modify, throw. simpl.
      exists [pending; processing; failed]. split; [set_solver |].
      rewrite Hlog5, Hlog4, Hlog, <-app_assoc. done.
    + rewrite (bind_err _ _ _ _ _ Hrun5). simpl.
      exists [pending; processing]. split; [set_solver |].
      by rewrite Hlog5, Hlog4, Hlog.
Qed.

End WithRuntime.
End StatusFacts.

Module C9.
Import importProcessor exportProcessor Transitions StatusFacts.

(** C9, against the code: whatever the store does, [processImportJob] on
    a pending job writes its status along one of [import_paths], and
    [processExportJob] along one of [export_paths]. Every step of these
    paths is a transition of the state machine, but for one import path,
    which goes from [completed] to [failed]; the job of the sample store,
    where the read of the job after the write of [completed] fails, takes
    it. *)
Theorem C9_completed_job_fails :
  (forall (RT : Runtime) jobId s job,
      importJobs s !! jobId = Some job -> ij_status job = pending ->
      exists path,
        path ∈ import_paths /\
        logged ImportKind jobId s (processImportJob jobId s).1 path) /\
  (forall (RT : Runtime) jobId s job,
      exportJobs s !! jobId = Some job -> ej_status job = pending ->
      exists path,
        path ∈ export_paths /\
        logged ExportKind jobId s (processExportJob jobId s).1 path) /\
  Forall (fun path => monotone path = true) export_paths /\
  Forall (fun path => monotone path = true \/
                      path = [pending; processing; completed; failed])
    import_paths /\
  logged ImportKind 1 Sample.failing_at_last_read
    (processImportJob (RT := Sample.runtime) 1 Sample.failing_at_last_read).1
    [pending; processing; completed; failed].
Proof.
  split_and!.
  - intros RT. apply processImportJob_logged.
  - intros RT. apply processExportJob_logged.
  - unfold export_paths. repeat constructor.
  - unfold import_paths. repeat (constructor; [by (left + right) |]). constructor.
  - vm_compute. reflexivity.
Qed.

End C9.
(** ** The cursors of an export *)

Module CursorFacts.
Import importRepository exportProcessor StoreFacts Relations Frames TallyFacts
  SourceFacts Cursors.

Lemma foldM_app {A S} (body : S -> A -> M S) l1 l2 st s :
  foldM body (l1 ++ l2) st s
  = (let* st' := foldM body l1 st in foldM body l2 st') s.
Proof.
  revert st s. induction l1 as [|x l1 IH]; intros st s; simpl; [done |].
  unfold bind. destruct (body st x s) as [s1 [e|st1]]; [done |].
  rewrite IH. reflexivity.
Qed.

#[global] Instance same_tables_preorder : PreOrder same_tables.
Proof.
  split.
  - by intros s.
  - intros s1 s2 s3 (? & ? & ? & ?) (? & ? & ? & ?).
    split_and!; [congruence.. | auto].
Qed.

(** The [where] clauses read the filters only. *)
Lemma filter_id_pure x : exists r, forall s, filter_id x s = (s, r).
Proof.
  unfold filter_id. destruct x as [| | |[z|lit]| | |];
    try (destruct (Str.parseInt _); by eexists).
  by eexists.
Qed.

Lemma user_where_pure filters : exists r, forall s, user_where filters s = (s, r).
Proof.
  unfold user_where. destruct (truthy (get filters "role")).
  - destruct (get filters "role"); by eexists.
  - by eexists.
Qed.

Lemma optional_id_pure x :
  exists r, forall s,
    (if truthy x then let* z := filter_id x in ret (Some z) else ret None) s
    = (s, r).
Proof.
  destruct (truthy x); [| by eexists].
  destruct (filter_id_pure x) as [[e|z] Hr]; eexists; intros s;
    unfold bind; rewrite Hr; reflexivity.
Qed.

Lemma article_where_pure filters :
  exists r, forall s, article_where filters s = (s, r).
Proof.
  unfold article_where.
  destruct (optional_id_pure (get filters "authorId")) as [r2 H2].
  destruct (truthy (get filters "status")).
  - destruct (get filters "status") as [| | | |st| |];
      try (by eexists; intros s; unfold bind; simpl).
    destruct r2 as [e|z]; eexists; intros s; unfold bind at 1 2; simpl;
      unfold bind at 1; rewrite H2; reflexivity.
  - destruct r2 as [e|z]; eexists; intros s; unfold bind at 1; simpl;
      unfold bind at 1; rewrite H2; reflexivity.
Qed.

Lemma comment_where_pure filters :
  exists r, forall s, comment_where filters s = (s, r).
Proof.
  unfold comment_where.
  destruct (optional_id_pure (get filters "articleId")) as [r1 H1].
  destruct (optional_id_pure (get filters "authorId")) as [r2 H2].
  destruct r1 as [e1|z1]; [eexists; intros s; unfold bind at 1; by rewrite H1 |].
  destruct r2 as [e2|z2]; eexists; intros s; unfold bind at 1; rewrite H1;
    unfold bind at 1; rewrite H2; reflexivity.
Qed.

(** What a cursor yields depends on the tables only. *)
Lemma selected_same_tables resource filters s s' :
  same_tables s s' -> selected resource filters s' = selected resource filters s.
Proof.
  intros (Hu & Ha & Hc & _). unfold selected, find_user, find_article.
  destruct resource.
  - destruct (user_where_pure filters) as [r Hr]. rewrite !Hr. simpl.
    destruct r; [done |]. by rewrite Hu.
  - destruct (article_where_pure filters) as [r Hr]. rewrite !Hr. simpl.
    destruct r; [done |]. by rewrite Ha, Hu.
  - destruct (comment_where_pure filters) as [r Hr]. rewrite !Hr. simpl.
    destruct r; [done |]. by rewrite Hc, Ha, Hu.
Qed.

(** A page of the cursor, when the store does not fail. *)
Lemma fetch_page_ok resource filters skip s all :
  faults s = [] -> selected resource filters s = inr all ->
  fetch_page resource filters skip s = (s, inr (take BATCH_SIZE (drop skip all))).
Proof.
  intros Hf. unfold selected, fetch_page, page, rows.
  destruct resource.
  - destruct (user_where_pure filters) as [r Hr]. rewrite Hr. simpl.
    destruct r as [e|cond]; [done |]. intros [= <-].
    unfold bind. rewrite Hr, (store_call_ok _ Hf). unfold gets.
    by rewrite fmap_take, fmap_drop.
  - destruct (article_where_pure filters) as [r Hr]. rewrite Hr. simpl.
    destruct r as [e|cond]; [done |]. intros [= <-].
    unfold bind. rewrite Hr, (store_call_ok _ Hf). unfold gets.
    by rewrite fmap_take, fmap_drop.
  - destruct (comment_where_pure filters) as [r Hr]. rewrite Hr. simpl.
    destruct r as [e|cond]; [done |]. intros [= <-].
    unfold bind. rewrite Hr, (store_call_ok _ Hf). unfold gets.
    by rewrite fmap_take, fmap_drop.
Qed.

(** A page of the cursor whose [where] clause is refused. *)
Lemma fetch_page_refused resource filters skip s e :
  selected resource filters s = inl e ->
  fetch_page resource filters skip s = (s, inl e).
Proof.
  unfold selected, fetch_page. destruct resource.
  - destruct (user_where_pure filters) as [r Hr]. rewrite Hr. simpl.
    destruct r as [e'|cond]; [| done]. intros [= <-]. unfold bind. by rewrite Hr.
  - destruct (article_where_pure filters) as [r Hr]. rewrite Hr. simpl.
    destruct r as [e'|cond]; [| done]. intros [= <-]. unfold bind. by rewrite Hr.
  - destruct (comment_where_pure filters) as [r Hr]. rewrite Hr. simpl.
    destruct r as [e'|cond]; [| done]. intros [= <-]. unfold bind. by rewrite Hr.
Qed.

(** The loop over the pages of a cursor is the loop over all its
    records, as long as the body leaves the tables alone. *)
Lemma for_each_record_all {S} resource filters (body : S -> CursorRecord -> M S)
    all rounds skip st s0 s :
  (forall st x, frame same_tables (body st x)) ->
  selected resource filters s0 = inr all ->
  same_tables s0 s -> faults s = [] ->
  length (drop skip all) < rounds * BATCH_SIZE ->
  for_each_record rounds resource filters skip body st s
  = foldM body (drop skip all) st s.
Proof.
  intros Hbody Hall. revert skip st s.
  induction rounds as [|rounds IH]; intros skip st s Hs Hf Hlen; [simpl in Hlen; lia |].
  simpl for_each_record.
  assert (Hsel : selected resource filters s = inr all)
    by (by rewrite (selected_same_tables _ _ _ _ Hs)).
  rewrite (bind_ok _ _ _ _ _ (fetch_page_ok _ _ skip _ _ Hf Hsel)).
  rewrite <-(take_drop BATCH_SIZE (drop skip all)) at 2.
  rewrite foldM_app. unfold bind.
  pose proof (frame_foldM same_tables body (take BATCH_SIZE (drop skip all)) st
                Hbody s) as Hframe.
  destruct (foldM body (take BATCH_SIZE (drop skip all)) st s) as [s1 [e|st1]];
    [done |].
  simpl in Hframe. rewrite drop_drop.
  rewrite length_take, length_drop.
  destruct (_ =? BATCH_SIZE)%nat eqn:Hfull.
  - apply Nat.eqb_eq in Hfull. rewrite Nat.add_comm. apply IH.
    + by etrans.
    + destruct Hframe as (_ & _ & _ & Hfaults). auto.
    + rewrite length_drop in *. simpl in Hlen. unfold BATCH_SIZE in *. lia.
  - apply Nat.eqb_neq in Hfull. rewrite drop_ge; [done | lia].
Qed.

Lemma rows_sorted {R} (id_of : R -> Z) cond table :
  rows id_of cond table ≡ₚ filter (fun r => cond r = true) table /\
  StronglySorted (ascending id_of) (rows id_of cond table).
Proof.
  unfold rows. split; [apply merge_sort_Permutation |].
  apply StronglySorted_merge_sort.
  - unfold ascending. intros a b c. lia.
  - unfold ascending. intros a b. lia.
Qed.

Lemma selected_length resource filters s all :
  selected resource filters s = inr all ->
  length all < enough_rounds s * BATCH_SIZE.
Proof.
  assert (Hrows : forall {R} (id_of : R -> Z) cond table,
             length (rows id_of cond table) <= length table).
  { intros R id_of cond table. rewrite (proj1 (rows_sorted id_of cond table)).
    apply length_filter. }
  unfold selected, enough_rounds, BATCH_SIZE.
  destruct resource.
  - destruct (user_where filters s).2; [done |]. intros [= <-].
    rewrite length_fmap. pose proof (Hrows _ u_id b (userTable s)). lia.
  - destruct (article_where filters s).2; [done |]. intros [= <-].
    rewrite length_fmap. pose proof (Hrows _ a_id b (articleTable s)). lia.
  - destruct (comment_where filters s).2; [done |]. intros [= <-].
    rewrite length_fmap. pose proof (Hrows _ c_id b (commentTable s)). lia.
Qed.

End CursorFacts.
(** ** The file of an export *)

Module ExportFacts.
Import importRepository exportProcessor StoreFacts Relations Frames TallyFacts
  SourceFacts Cursors CursorFacts.

Lemma append_cons x (a b : string) : String x a +:+ b = String x (a +:+ b).
Proof. reflexivity. Qed.

Lemma append_assoc (a b c : string) : (a +:+ b) +:+ c = a +:+ (b +:+ c).
Proof.
  induction a as [|x a IH]; [done |]. by rewrite !append_cons, IH.
Qed.

Lemma append_nil_r (a : string) : a +:+ EmptyString = a.
Proof. induction a as [|x a IH]; [done |]. by rewrite append_cons, IH. Qed.

#[global] Instance kept_preorder : PreOrder kept.
Proof.
  split.
  - by intros s.
  - intros s1 s2 s3 (? & ? & ? & ? & ? & ? & ? & ? & ?)
      (? & ? & ? & ? & ? & ? & ? & ? & ?).
    split_and!; congruence.
Qed.

Lemma kept_same_tables s s' : kept s s' -> same_tables s s'.
Proof. intros (? & ? & ? & _ & _ & _ & Hf & _). split_and!; congruence. Qed.

Ltac tables_step :=
  lazymatch goal with
  | |- frame _ (modify _) =>
      apply frame_modify; intros ?;
      by (try unfold same_tables; try unfold kept; simpl)
  | |- _ => frame_step
  end.

Ltac tables := repeat (tables_step; try assumption).

Section WithRuntime.
Context `{RT : Runtime}.

(** One record goes to the file; nothing else changes but the metrics. *)
Lemma write_record_run jobId format path fields n first record s c :
  files s !! path = Some c ->
  exists s',
    write_record jobId format path fields (n, first) record s
    = (s', inr ((n + 1)%Z, false)) /\
    files s' = <[path := c +:+ written format fields first [record]]> (files s) /\
    kept s s'.
Proof.
  intros Hc. unfold write_record, exportProcessor.append,
    metricsTracker.updateProgress, bind, modify, ret.
  fold (record_text fields record).
  destruct format; simpl.
  - destruct ((n + 1) mod 5000 =? 0)%Z; eexists; (split; [reflexivity |]); simpl;
      rewrite Hc; simpl; rewrite ?append_nil_r; done.
  - destruct first; simpl;
      destruct ((n + 1) mod 5000 =? 0)%Z; eexists; (split; [reflexivity |]);
      simpl; rewrite ?Hc; simpl; rewrite ?lookup_insert_eq; simpl;
      rewrite ?insert_insert_eq, ?append_nil_r, ?append_assoc; done.
Qed.

Lemma written_cons format fields first record rest :
  written format fields first (record :: rest)
  = written format fields first [record] +:+ written format fields false rest.
Proof.
  destruct format; simpl; rewrite ?append_nil_r, ?append_assoc; done.
Qed.

(** The loop over the records writes them all. *)
Lemma write_records_run jobId format path fields records n first s c :
  files s !! path = Some c ->
  exists s',
    foldM (write_record jobId format path fields) records (n, first) s
    = (s', inr ((n + Z.of_nat (length records))%Z,
                first && bool_decide (records = []))) /\
    files s' = <[path := c +:+ written format fields first records]> (files s) /\
    kept s s'.
Proof.
  revert n first s c. induction records as [|record rest IH]; intros n first s c Hc.
  - exists s. simpl. rewrite Z.add_0_r, andb_true_r.
    assert (written format fields first [] = EmptyString) as ->
      by (destruct format; reflexivity).
    rewrite append_nil_r. rewrite insert_id by done. done.
  - simpl foldM.
    destruct (write_record_run jobId format path fields n first record s c Hc)
      as (s1 & Hrun & Hfiles & Hkept).
    rewrite (bind_ok _ _ _ _ _ Hrun).
    destruct (IH (n + 1)%Z false s1 (c +:+ written format fields first [record]))
      as (s2 & Hrun2 & Hfiles2 & Hkept2).
    { by rewrite Hfiles, lookup_insert_eq. }
    exists s2. rewrite Hrun2. split_and!.
    + f_equal. f_equal. f_equal; [simpl length; lia |].
      rewrite (bool_decide_eq_false_2 (record :: rest = [])) by done.
      by rewrite andb_false_r.
    + rewrite Hfiles2, Hfiles, insert_insert_eq, append_assoc, <-written_cons. done.
    + by etrans.
Qed.

Lemma write_record_same_tables jobId format path fields st record :
  frame same_tables (write_record jobId format path fields st record).
Proof.
  unfold write_record, exportProcessor.append, metricsTracker.updateProgress.
  destruct st as [n first]. tables.
Qed.

Lemma json_items_rest fields record rest :
  record_text fields record +:+ json_items fields false rest
  = join ("," +:+ newline) (map (record_text fields) (record :: rest)).
Proof.
  revert record. induction rest as [|r' rest IH]; intros record.
  - apply append_nil_r.
  - change (json_items fields false (r' :: rest))
      with (("," +:+ newline) +:+ record_text fields r'
            +:+ json_items fields false rest).
    change (join ("," +:+ newline) (map (record_text fields) (record :: r' :: rest)))
      with (record_text fields record +:+ ("," +:+ newline)
            +:+ join ("," +:+ newline) (map (record_text fields) (r' :: rest))).
    by rewrite IH.
Qed.

Lemma json_items_join fields records :
  json_items fields true records
  = join ("," +:+ newline) (map (record_text fields) records).
Proof.
  destruct records as [|record rest]; [done |]. apply json_items_rest.
Qed.

Lemma export_updateJobStatus_ok jobId status data s job :
  faults s = [] -> exportJobs s !! jobId = Some job ->
  exportRepository.updateJobStatus jobId status data s
  = (upd_statusLog
       (fun l => l ++ [mkWrite ExportKind jobId (ej_status job) status])
       (upd_exportJobs
          (fun _ => <[jobId := exportRepository.with_status status data job]>
                      (exportJobs s)) s),
     inr (exportRepository.with_status status data job)).
Proof.
  intros Hf Hjob.
  unfold exportRepository.updateJobStatus, prisma.exportJob_update, log_write,
    bind, gets, modify, ret.
  rewrite Hjob, (store_call_ok _ Hf). simpl. by rewrite Hjob.
Qed.

(** The loop of an export over its cursor: all the records are written. *)
Lemma export_loop_run jobId job path records s0 s c :
  selected (ej_resource job) (default ∅ (ej_filters job)) s0 = inr records ->
  same_tables s0 s -> faults s = [] -> files s !! path = Some c ->
  exists s',
    for_each_record (enough_rounds s) (ej_resource job) (default ∅ (ej_filters job))
      0 (write_record jobId (ej_format job) path (ej_fields job)) (0%Z, true) s
    = (s', inr (Z.of_nat (length records), bool_decide (records = []))) /\
    files s'
    = <[path := c +:+ written (ej_format job) (ej_fields job) true records]>
        (files s) /\
    kept s s'.
Proof.
  intros Hsel Hs Hf Hc.
  rewrite (for_each_record_all (ej_resource job) (default ∅ (ej_filters job))
             _ records (enough_rounds s) 0 (0%Z, true) s s).
  - apply (write_records_run jobId (ej_format job) path (ej_fields job) records
             0 true s c Hc).
  - intros. apply write_record_same_tables.
  - by rewrite (selected_same_tables _ _ _ _ Hs).
  - reflexivity.
  - done.
  - simpl. apply (selected_length (ej_resource job) (default ∅ (ej_filters job))).
    by rewrite (selected_same_tables _ _ _ _ Hs).
Qed.

(** The end of the [try] block of [processExportJob]. *)
Lemma export_finish_run jobId job job1 records s s_d n path :
  faults s = [] ->
  job1 = exportRepository.with_status processing
           (exportRepository.mkStatusData (Some (clock s)) None None None None) job ->
  path = export_path jobId (clock s) (ej_format job) ->
  userTable s_d = userTable s -> articleTable s_d = articleTable s ->
  commentTable s_d = commentTable s -> faults s_d = faults s ->
  clock s_d = clock s ->
  exportJobs s_d = <[jobId := job1]> (exportJobs s) ->
  files s_d
  = <[path := export_text (ej_format job) (ej_fields job) records]> (files s) ->
  n = Z.of_nat (length records) ->
  exists s',
    (let* t := now in
     exportRepository.updateJobStatus jobId completed
       (exportRepository.mkStatusData None (Some t) (Some path)
          (Some ("/api/v1/exports/" +:+ pretty jobId +:+ "/download"))
          (Some n)) ;;
     metricsTracker.finishTracking jobId) s_d = (s', inr tt) /\
    exported jobId job records s s'.
Proof.
  intros Hf -> -> Hu Ha Hc Hfd Hclock Hjobs Hfiles ->.
  rewrite (bind_ok _ _ _ _ _ (now_run s_d)).
  assert (Hjob_d : exportJobs s_d !! jobId
                   = Some (exportRepository.with_status processing
                             (exportRepository.mkStatusData (Some (clock s)) None
                                None None None) job)).
  { rewrite Hjobs. apply lookup_insert_eq. }
  assert (Hf_d : faults s_d = []) by (by rewrite Hfd).
  erewrite bind_ok
    by (apply (export_updateJobStatus_ok jobId completed _ s_d _ Hf_d Hjob_d)).
  unfold metricsTracker.finishTracking, modify. eexists. split; [reflexivity |].
  unfold exported. simpl.
  split_and!; [done | | | apply lookup_delete_eq].
  - eexists. split; [rewrite Hjobs; by rewrite insert_insert_eq |].
    simpl. rewrite Hclock. done.
  - split_and!; simpl;
      [by rewrite Hu | by rewrite Ha | by rewrite Hc | by rewrite Hfd].
Qed.

Lemma try_catch_ok {A} (m : M A) h s s' a :
  m s = (s', inr a) -> try_catch m h s = (s', inr a).
Proof. unfold try_catch. by intros ->. Qed.

Lemma modify_run f s : modify f s = (f s, inr tt).
Proof. reflexivity. Qed.

Lemma gets_run {A} (f : Store -> A) s : gets f s = (s, inr (f s)).
Proof. reflexivity. Qed.

(** [processExportJob] when the store does not fail and the filters are
    accepted. *)
Lemma processExportJob_run jobId s job records :
  faults s = [] -> exportJobs s !! jobId = Some job ->
  selected (ej_resource job) (default ∅ (ej_filters job)) s = inr records ->
  exists s',
    processExportJob jobId s = (s', inr tt) /\ exported jobId job records s s'.
Proof.
  intros Hf Hjob Hsel. unfold processExportJob.
  rewrite (bind_ok _ _ _ _ _ (startTracking_run jobId s)).
  set (s_a := upd_metrics _ s).
  rewrite (bind_ok _ _ _ _ _ (now_run s_a)).
  match goal with |- context [exportRepository.updateJobStatus jobId processing ?d] =>
    set (data := d) end.
  rewrite (bind_ok _ _ _ _ _ (export_updateJobStatus_ok jobId processing data s_a
                                  job Hf Hjob)).
  set (job1 := exportRepository.with_status processing data job).
  set (s_b := upd_statusLog _ _).
  enough (exists s', export_to_file jobId job1 s_b = (s', inr tt) /\
                     exported jobId job records s s') as (s' & Hrun & Hs').
  { exists s'. split; [by apply try_catch_ok | done]. }
  unfold export_to_file.
  rewrite (bind_ok _ _ _ _ _ (now_run s_b)). cbv zeta.
  change (clock s_b) with (clock s).
  change (ej_format job1) with (ej_format job).
  change (ej_resource job1) with (ej_resource job).
  change (ej_filters job1) with (ej_filters job).
  change (ej_fields job1) with (ej_fields job).
  fold (export_path jobId (clock s) (ej_format job)).
  set (path := export_path jobId (clock s) (ej_format job)).
  unfold fs.writeFile. rewrite (bind_ok _ _ _ _ _ (modify_run _ s_b)).
  set (s_c := upd_files _ s_b).
  rewrite (bind_ok _ _ _ _ _ (gets_run _ s_c)).
  assert (Hs_c : same_tables s s_c) by done.
  assert (Hf_c : faults s_c = []) by exact Hf.
  pose proof (fun s_d n => export_finish_run jobId job job1 records s s_d n path
                              Hf eq_refl eq_refl) as Hfin.
  destruct (ej_format job) eqn:Hformat.
  - destruct (export_loop_run jobId job path records s s_c EmptyString Hsel Hs_c Hf_c)
      as (s_d & Hrun & Hfiles & Hkept); [apply lookup_insert_eq |].
    rewrite Hformat in Hrun, Hfiles. rewrite (bind_ok _ _ _ _ _ Hrun).
    cbn [fst].
    destruct Hkept as (Hu & Ha & Hc & Hjobs & _ & _ & Hfd & Hclock & _).
    apply Hfin;
      [by rewrite Hu | by rewrite Ha | by rewrite Hc
      | by rewrite Hfd | by rewrite Hclock | by rewrite Hjobs | | done].
    rewrite Hfiles. simpl. by rewrite insert_insert_eq.
  - set (s_c1 := upd_files (fun fsys =>
        <[path := default EmptyString (fsys !! path) +:+ ("[" +:+ newline)]> fsys) s_c).
    destruct (export_loop_run jobId job path records s s_c1
                ("[" +:+ newline) Hsel)
      as (s_d & Hrun & Hfiles & Hkept); [done | done | |].
    { simpl. rewrite lookup_insert_eq. simpl. by rewrite lookup_insert_eq. }
    rewrite Hformat in Hrun, Hfiles.
    set (s_e := upd_files (fun fsys =>
        <[path := default EmptyString (fsys !! path) +:+ (newline +:+ "]")]> fsys) s_d).
    erewrite bind_ok; cycle 1.
    { unfold exportProcessor.append at 1.
      rewrite (bind_ok _ _ _ _ _ (modify_run _ s_c)).
      change (enough_rounds s_c) with (enough_rounds s_c1).
      rewrite (bind_ok _ _ _ _ _ Hrun).
      unfold exportProcessor.append.
      rewrite (bind_ok _ _ _ _ _ (modify_run _ s_d)). reflexivity. }
    cbn [fst].
    destruct Hkept as (Hu & Ha & Hc & Hjobs & _ & _ & Hfd & Hclock & _).
    apply (Hfin s_e);
      [by (etrans; [exact Hu |]) | by (etrans; [exact Ha |])
      | by (etrans; [exact Hc |]) | by (etrans; [exact Hfd |])
      | by (etrans; [exact Hclock |]) | by (etrans; [exact Hjobs |]) | | done].
    simpl. rewrite Hfiles, lookup_insert_eq. simpl.
    rewrite !insert_insert_eq. unfold json_text. f_equal.
    rewrite json_items_join, !append_assoc. reflexivity.
Qed.

(** [processExportJob] when the query of the cursor is refused. *)
Lemma processExportJob_refused jobId s job e :
  faults s = [] -> exportJobs s !! jobId = Some job ->
  selected (ej_resource job) (default ∅ (ej_filters job)) s = inl e ->
  exists s',
    processExportJob jobId s = (s', inl e) /\ export_failed jobId job s s'.
Proof.
  intros Hf Hjob Hsel. unfold processExportJob.
  rewrite (bind_ok _ _ _ _ _ (startTracking_run jobId s)).
  set (s_a := upd_metrics _ s).
  rewrite (bind_ok _ _ _ _ _ (now_run s_a)).
  match goal with |- context [exportRepository.updateJobStatus jobId processing ?d] =>
    set (data := d) end.
  rewrite (bind_ok _ _ _ _ _ (export_updateJobStatus_ok jobId processing data s_a
                                  job Hf Hjob)).
  set (job1 := exportRepository.with_status processing data job).
  set (s_b := upd_statusLog _ _).
  set (path := export_path jobId (clock s) (ej_format job)).
  set (s_c := upd_files
                (fun fsys => <[path := match ej_format job with
                                       | ndjson => EmptyString
                                       | json => "[" +:+ newline
                                       end]> fsys) s_b).
  assert (Hrun : export_to_file jobId job1 s_b = (s_c, inl e)).
  { unfold export_to_file.
    rewrite (bind_ok _ _ _ _ _ (now_run s_b)). cbv zeta.
    change (clock s_b) with (clock s).
    change (ej_format job1) with (ej_format job).
    change (ej_resource job1) with (ej_resource job).
    change (ej_filters job1) with (ej_filters job).
    change (ej_fields job1) with (ej_fields job).
    fold (export_path jobId (clock s) (ej_format job)). fold path.
    unfold fs.writeFile. rewrite (bind_ok _ _ _ _ _ (modify_run _ s_b)).
    match goal with |- context [upd_files ?f s_b] => set (s_0 := upd_files f s_b) end.
    rewrite (bind_ok _ _ _ _ _ (gets_run _ s_0)).
    assert (Hrefused : forall {S} (body : S -> CursorRecord -> M S) st s1,
               same_tables s s1 ->
               for_each_record (enough_rounds s_0) (ej_resource job)
                 (default ∅ (ej_filters job)) 0 body st s1 = (s1, inl e)).
    { intros S body st s1 Hs1. simpl.
      erewrite bind_err; [done |]. apply fetch_page_refused.
      by rewrite (selected_same_tables _ _ _ _ Hs1). }
    subst s_c. destruct (ej_format job).
    - erewrite bind_err; cycle 1.
      { apply Hrefused. done. }
      subst s_0. unfold upd_files. simpl. by rewrite ?insert_insert_eq.
    - erewrite bind_err; cycle 1.
      { unfold exportProcessor.append at 1.
        rewrite (bind_ok _ _ _ _ _ (modify_run _ s_0)).
        erewrite bind_err; [reflexivity |]. apply Hrefused. done. }
      subst s_0. unfold upd_files. simpl.
      by rewrite lookup_insert_eq, insert_insert_eq. }
  unfold try_catch. rewrite Hrun.
  rewrite (bind_ok _ _ _ _ _ (now_run s_c)).
  assert (Hjob_c : exportJobs s_c !! jobId = Some job1) by apply lookup_insert_eq.
  assert (Hf_c : faults s_c = []) by exact Hf.
  erewrite bind_ok
    by (apply (export_updateJobStatus_ok jobId failed _ s_c _ Hf_c Hjob_c)).
  unfold metricsTracker.finishTracking.
  erewrite bind_ok by apply modify_run.
  eexists. split; [reflexivity |].
  unfold export_failed. simpl.
  split_and!; [done | | done | apply lookup_delete_eq].
  eexists. split; [by rewrite insert_insert_eq |]. done.
Qed.

End WithRuntime.

(** *** What an export leaves alone *)

#[global] Instance elsewhere_preorder jobId : PreOrder (elsewhere jobId).
Proof.
  split.
  - by intros s.
  - intros s1 s2 s3 (? & ? & ? & ? & ? & H12) (? & ? & ? & ? & ? & H23).
    split_and!; [congruence.. |]. intros id Hid. by rewrite H23, H12.
Qed.

Ltac elsewhere_step :=
  lazymatch goal with
  | |- frame _ (modify _) =>
      apply frame_modify; intros ?; by (unfold elsewhere; simpl)
  | |- _ => frame_step
  end.

Ltac elsewhere_steps := repeat (elsewhere_step; try assumption).

Lemma elsewhere_store_call jobId : frame (elsewhere jobId) store_call.
Proof. intros s. unfold store_call. by destruct (faults s) as [|[] fs]. Qed.

#[global] Hint Resolve elsewhere_store_call : frames.

Lemma elsewhere_as_string jobId v : frame (elsewhere jobId) (as_string v).
Proof. unfold as_string. elsewhere_steps. Qed.

Lemma elsewhere_updateProgress jobId id processed errors :
  frame (elsewhere jobId) (metricsTracker.updateProgress id processed errors).
Proof. unfold metricsTracker.updateProgress. elsewhere_steps. Qed.

#[global] Hint Resolve elsewhere_as_string elsewhere_updateProgress : frames.

Lemma elsewhere_updateJobStatus jobId status data :
  frame (elsewhere jobId) (exportRepository.updateJobStatus jobId status data).
Proof.
  intros s.
  unfold exportRepository.updateJobStatus, prisma.exportJob_update, log_write,
    bind, gets, modify, ret, throw.
  pose proof (elsewhere_store_call jobId s) as Hcall.
  destruct (store_call s) as [s1 [e|[]]]; cbn [fst snd] in *; [done |].
  destruct (exportJobs s1 !! jobId) as [j|] eqn:Hj; cbn [fst snd]; [| done].
  destruct (exportJobs s !! jobId); cbn [fst snd];
    (etrans; [exact Hcall |]); unfold elsewhere; simpl;
    (split_and!; try done; intros id Hid; by rewrite lookup_insert_ne).
Qed.

#[global] Hint Resolve elsewhere_updateJobStatus : frames.

Section WithRuntime.
Context `{RT : Runtime}.

Lemma elsewhere_fetch_page jobId resource filters skip :
  frame (elsewhere jobId) (fetch_page resource filters skip).
Proof.
  unfold fetch_page, user_where, article_where, comment_where, filter_id.
  elsewhere_steps.
Qed.

Lemma elsewhere_write_record jobId id format path fields st record :
  frame (elsewhere jobId) (write_record id format path fields st record).
Proof. unfold write_record, exportProcessor.append. elsewhere_steps. Qed.

Lemma elsewhere_for_each {S} jobId rounds resource filters skip
    (body : S -> CursorRecord -> M S) st :
  (forall st x, frame (elsewhere jobId) (body st x)) ->
  frame (elsewhere jobId) (for_each_record rounds resource filters skip body st).
Proof.
  intros Hbody. revert skip st.
  induction rounds as [|rounds IH]; intros skip st; simpl; [by rule frame_ret |].
  rule frame_bind; [apply elsewhere_fetch_page |]. intros records.
  rule frame_bind; [by rule frame_foldM |]. intros st'.
  destruct (length records =? BATCH_SIZE)%nat; [apply IH | by rule frame_ret].
Qed.

Lemma elsewhere_processExportJob jobId :
  frame (elsewhere jobId) (processExportJob jobId).
Proof.
  unfold processExportJob, export_to_file, metricsTracker.startTracking,
    metricsTracker.finishTracking, fs.writeFile, exportProcessor.append.
  elsewhere_steps.
  all: apply elsewhere_for_each; intros; apply elsewhere_write_record.
Qed.

End WithRuntime.
End ExportFacts.

(** ** Properties of the exports *)

Module Exports.
Import exportProcessor Relations Cursors CursorFacts ExportFacts.

Section WithRuntime.
Context `{RT : Runtime}.



(** X3: when the query of the cursor is refused (a filter the store
    does not take), [processExportJob] throws that error after it marked
    the job failed, with its completion time and no file path; the file
    it opened stays behind, empty for NDJSON and with the opening bracket
    for JSON. *)
Theorem refused_export_fails jobId s job e :
  faults s = [] -> exportJobs s !! jobId = Some job ->
  selected (ej_resource job) (default ∅ (ej_filters job)) s = inl e ->
  exists s',
    processExportJob jobId s = (s', inl e) /\ export_failed jobId job s s'.
Proof. apply processExportJob_refused. Qed.

(** X4: whatever the store does and however it ends, an export changes
    no user, article or comment, no import job and no import error, and
    no export job but its own. *)
Theorem export_leaves_the_rest jobId s :
  elsewhere jobId s (processExportJob jobId s).1.
Proof. apply elsewhere_processExportJob. Qed.

End WithRuntime.
End Exports.



(** X3 at work: a filter on the role that is no string. *)
Lemma refused_export_fails_witness :
  exists s',
    exportProcessor.processExportJob 1
      (Examples.store_with_export ndjson (Some {[ "role" := VBool true ]}))
    = (s', inl InvalidArgument) /\
    Cursors.export_failed 1
      (Examples.users_export ndjson (Some {[ "role" := VBool true ]}))
      (Examples.store_with_export ndjson (Some {[ "role" := VBool true ]})) s'.
Proof.
  apply Exports.refused_export_fails; vm_compute; reflexivity.
Defined.
